(** * Taxonomy index of the Voice AI knowledge repository

    A shallow embedding of the taxonomy logic of the documentation site —
    [src/lib/mdx.ts], the search bar [src/components/layout/SearchBar.tsx]
    and the search page (the component [SearchPage], in
    [src/types/navigation.ts]) — together with the properties that its
    specification states, and of what the topic page and its layout
    [src/components/layout/TopicLayout.tsx] make of the navigation tree and
    of the pathname.

    Conventions of the embedding.
    - A JavaScript string is a [string] of 8-bit characters; the model covers
      ASCII text: [toLowerCase] changes the letters A-Z only, and the white
      space of [trim] and of the regular expression class [\s] is the ASCII
      white space (tab, line feed, vertical tab, form feed, carriage return,
      space).
    - [Map<string, Category>] is a [gmap string Category]; the
      [Map<string | null, Category[]>] of children is indexed by
      [option string].
    - A [while] loop or an unbounded recursion takes a [fuel] argument that
      bounds the number of iterations (the call depth); the result [None]
      means that the fuel ran out.  A loop that returns [None] for every fuel
      does not terminate in the source. *)

From Stdlib Require Import Ascii.
From stdpp Require Import gmap strings list fin_maps sorting.

Open Scope Z_scope.

(** ** Data model *)

(** [interface Category] / [interface TaxonomyCategory]. *)
Record Category := mkCategory {
  id : string;
  title : string;
  slug : string;
  description : string;
  parentId : option string;
  order : Z;
  tags : list string;
  icon : option string
}.

#[global] Instance Category_eq_dec : EqDecision Category.
Proof. solve_decision. Defined.

(** JavaScript truthiness of a [string | null] value: [null] and the empty
    string are falsy.  The result is the string when it is truthy. *)
Definition truthy (s : option string) : option string :=
  match s with
  | Some EmptyString => None
  | Some p => Some p
  | None => None
  end.

(** [categories.forEach((cat) => categoryMap.set(cat.id, cat))]: a later
    category with the same id overwrites an earlier one. *)
Definition categoryMap (categories : list Category) : gmap string Category :=
  foldl (fun m cat => <[id cat := cat]> m) ∅ categories.

(** ** Walking the parent chain *)

(** The loop update
    [current = current.parentId ? categoryMap.get(current.parentId) : undefined]
    shared by [buildHref] and [getAllTopicSlugs]. *)
Definition parentOf (m : gmap string Category) (current : Category)
  : option Category :=
  match truthy (parentId current) with
  | Some p => m !! p
  | None => None
  end.

(** [while (current) { pathSegments.unshift(current.slug); current = ... }].
    One unit of fuel pays for one iteration of the loop body. *)
Fixpoint walkUp (fuel : nat) (m : gmap string Category)
    (current : option Category) (pathSegments : list string)
  : option (list string) :=
  match current with
  | None => Some pathSegments
  | Some cur =>
      match fuel with
      | O => None
      | S fuel' =>
          walkUp fuel' m (parentOf m cur) (slug cur :: pathSegments)
      end
  end.

(** [Array.prototype.join]. *)
Definition join (sep : string) (l : list string) : string :=
  String.concat sep l.

(** [buildHref(category, categoryMap)] of the search bar and the search
    page. *)
Definition buildHref (fuel : nat) (category : Category)
    (m : gmap string Category) : option string :=
  pathSegments ← walkUp fuel m (Some category) [];
  Some ("/topics/" +:+ join "/" pathSegments).

(** [getAllTopicSlugs()], over the taxonomy [categories]. *)
Definition getAllTopicSlugs (fuel : nat) (categories : list Category)
  : option (list (list string)) :=
  let m := categoryMap categories in
  mapM (fun category => walkUp fuel m (Some category) []) categories.

(** The walk to the root ancestor in [groupedResults] of the search page:
    [while (current?.parentId) { rootId = current.parentId;
                                 current = categoryMap.get(current.parentId); }].
    The result is the final [rootId]. *)
Fixpoint rootWalk (fuel : nat) (m : gmap string Category)
    (current : option Category) (rootId : string) : option string :=
  match current with
  | None => Some rootId
  | Some cur =>
      match truthy (parentId cur) with
      | None => Some rootId
      | Some p =>
          match fuel with
          | O => None
          | S fuel' => rootWalk fuel' m (m !! p) p
          end
      end
  end.

(** The parent graph as the walks see it. *)
Definition parent_rel (m : gmap string Category) (c p : Category) : Prop :=
  parentOf m c = Some p.

Definition ancestor (m : gmap string Category) : relation Category :=
  tc (parent_rel m).

Definition acyclic (m : gmap string Category) : Prop :=
  ∀ c, ¬ ancestor m c c.

(** The first [n] proper ancestors of a category, nearest first. *)
Fixpoint climb (n : nat) (m : gmap string Category) (c : Category)
  : list Category :=
  match n with
  | O => []
  | S n' =>
      match parentOf m c with
      | None => []
      | Some p => p :: climb n' m p
      end
  end.

(** [chain par c l]: [l] is the complete list of proper ancestors of [c]
    along the parent function [par], nearest first; the chain ends at a
    category without a parent. *)
Inductive chain (par : Category → option Category)
  : Category → list Category → Prop :=
  | chain_root c :
      par c = None → chain par c []
  | chain_step c p l :
      par c = Some p → chain par p l → chain par c (p :: l).

(** The parent of a category in the tree of [buildTree]: the children of a
    node are filed under its exact id, without a truthiness test. *)
Definition treeParent (m : gmap string Category) (c : Category)
  : option Category :=
  match parentId c with
  | Some p => m !! p
  | None => None
  end.

(** The parent graph of the data: the parent of a category is the category
    that carries its [parentId] as id, whatever the string is.  The walks
    follow a [parentId] only when it is truthy ([parent_rel]). *)
Definition dataParent_rel (m : gmap string Category) (c p : Category) : Prop :=
  treeParent m c = Some p.

Definition dataAncestor (m : gmap string Category) : relation Category :=
  tc (dataParent_rel m).

Definition dataAcyclic (m : gmap string Category) : Prop :=
  ∀ c, ¬ dataAncestor m c c.

(** The proper ancestors of a category that the walks reach, nearest first:
    as many resolved parents as an acyclic map can offer, and one more. *)
Definition ancestorsOf (m : gmap string Category) (c : Category)
  : list Category :=
  climb (S (size m)) m c.

(** The values that the root walk of the search page gives to [rootId], in
    order: the truthy [parentId]s of the category and of the ancestors that
    the walk reaches. *)
Definition rootIds (c : Category) (ancestors : list Category) : list string :=
  omap (fun x => truthy (parentId x)) (c :: ancestors).

(** ** Outcomes of the functions that index the taxonomy *)

(** A call returns a value, throws (the only candidate in this code is the
    [TypeError] of a property access on [undefined]) or exhausts its fuel. *)
Inductive outcome (A : Type) : Type :=
  | Value (a : A)
  | Throws
  | OutOfFuel.
Arguments Value {A} a.
Arguments Throws {A}.
Arguments OutOfFuel {A}.

#[global] Instance outcome_ret : MRet outcome := fun A a => Value a.
#[global] Instance outcome_bind : MBind outcome := fun A B f x =>
  match x with
  | Value a => f a
  | Throws => Throws
  | OutOfFuel => OutOfFuel
  end.

(** A fuel-bounded computation seen as an outcome. *)
Definition fueled {A} (x : option A) : outcome A :=
  match x with
  | Some a => Value a
  | None => OutOfFuel
  end.

(** ** Indexing the categories *)

(** The two maps built by the [forEach] at the head of [getNavigationTree]
    and [findTopicBySlugPath]. *)
Record Index := mkIndex {
  byId : gmap string Category;
  childrenMap : gmap (option string) (list Category)
}.

(** One iteration of
    [categoryMap.set(cat.id, cat);
     if (!childrenMap.has(parentId)) childrenMap.set(parentId, []);
     childrenMap.get(parentId)!.push(cat)].
    The non-null assertion [!] is erased at run time: were the bucket missing,
    [push] would throw. *)
Definition indexCategory (ix : Index) (cat : Category) : outcome Index :=
  let cm := <[id cat := cat]> (byId ix) in
  let ch :=
    match childrenMap ix !! parentId cat with
    | Some _ => childrenMap ix
    | None => <[parentId cat := []]> (childrenMap ix)
    end in
  match ch !! parentId cat with
  | Some bucket => Value (mkIndex cm (<[parentId cat := bucket ++ [cat]]> ch))
  | None => Throws
  end.

Fixpoint indexCategories (ix : Index) (categories : list Category)
  : outcome Index :=
  match categories with
  | [] => Value ix
  | cat :: rest => ix' ← indexCategory ix cat; indexCategories ix' rest
  end.

(** The categories whose [parentId] is exactly [k], in input order: the
    bucket of [k] once all categories are indexed. *)
Definition childrenOf (categories : list Category) (k : option string)
  : list Category :=
  filter (fun c => parentId c = k) categories.

(** ** Sorting *)

(** [Array.prototype.sort(compare)].  ECMAScript leaves the algorithm to the
    implementation and fixes the result for a comparator that is a total
    preorder: the sorted rearrangement that keeps tied elements in their
    original order (the sort is stable).  There is only one such list
    ([sortBy_unique]); insertion computes it.  A negative or zero
    [compare x y] keeps [x] before [y]. *)
Fixpoint insertBy {A} (compare : A → A → Z) (x : A) (l : list A) : list A :=
  match l with
  | [] => [x]
  | y :: l' =>
      if decide (compare x y ≤ 0) then x :: y :: l'
      else y :: insertBy compare x l'
  end.

Fixpoint sortBy {A} (compare : A → A → Z) (l : list A) : list A :=
  match l with
  | [] => []
  | x :: l' => insertBy compare x (sortBy compare l')
  end.

(** The order that a comparator induces: [x] may stay before [y]. *)
Definition leBy {A} (compare : A → A → Z) (x y : A) : Prop :=
  compare x y ≤ 0.

#[global] Instance leBy_dec {A} (compare : A → A → Z) x y :
  Decision (leBy compare x y).
Proof. unfold leBy. apply _. Defined.

(** Two elements are tied when each may stay before the other. *)
Definition tieBy {A} (compare : A → A → Z) (x y : A) : Prop :=
  leBy compare x y ∧ leBy compare y x.

#[global] Instance tieBy_dec {A} (compare : A → A → Z) x y :
  Decision (tieBy compare x y).
Proof. unfold tieBy. apply _. Defined.

(** The comparators of this code are total preorders. *)
Class Consistent {A} (compare : A → A → Z) : Prop := {
  consistent_total x y : leBy compare x y ∨ leBy compare y x;
  consistent_trans x y z :
    leBy compare x y → leBy compare y z → leBy compare x z
}.

(** [(a, b) => a.order - b.order] *)
Definition byOrder (a b : Category) : Z := order a - order b.

(** ** The navigation tree *)

(** [interface NavItem { title; href; children }] *)
#[warnings="-register-all"]
Inductive NavItem : Type :=
  mkNavItem (nav_title : string) (nav_href : string)
            (nav_children : list NavItem).

Definition nav_title (n : NavItem) : string :=
  match n with mkNavItem t _ _ => t end.
Definition nav_href (n : NavItem) : string :=
  match n with mkNavItem _ h _ => h end.
Definition nav_children (n : NavItem) : list NavItem :=
  match n with mkNavItem _ _ c => c end.

(** [buildTree(parentId, basePath)].  [children.sort] sorts the bucket in
    place; a bucket is read again only when two categories share an id, and
    sorting a sorted bucket again leaves it unchanged ([sortBy_idemp]), so the
    buckets are not threaded through.  One unit of fuel pays for one level of
    calls. *)
Fixpoint buildTree (fuel : nat)
    (children_map : gmap (option string) (list Category))
    (parent : option string) (basePath : string) : option (list NavItem) :=
  match fuel with
  | O => None
  | S fuel' =>
      let children := default [] (children_map !! parent) in
      mapM (fun cat =>
              let href := basePath +:+ "/" +:+ slug cat in
              kids ← buildTree fuel' children_map (Some (id cat)) href;
              Some (mkNavItem (title cat) href kids))
           (sortBy byOrder children)
  end.

(** [getNavigationTree()], over the taxonomy [categories]. *)
Definition getNavigationTree (fuel : nat) (categories : list Category)
  : outcome (list NavItem) :=
  ix ← indexCategories (mkIndex ∅ ∅) categories;
  fueled (buildTree fuel (childrenMap ix) None "/topics").

(** *** What the tree is, stated on the category list *)

(** The path of a child below [basePath]. *)
Definition childPath (basePath : string) (cat : Category) : string :=
  basePath +:+ "/" +:+ slug cat.

(** [navLevel categories parent basePath items]: [items] lists the children
    of [parent] — the categories whose [parentId] is [parent] — by ascending
    [order], those of equal [order] in the order of the input list, each with
    its title and its href, and so on below each of them. *)
#[warnings="-register-all"]
Inductive navLevel (categories : list Category)
  : option string → string → list NavItem → Prop :=
  | navLevel_intro parent basePath sorted items :
      sorted ≡ₚ childrenOf categories parent →
      StronglySorted (fun a b => order a ≤ order b) sorted →
      (∀ o, filter (fun c => order c = o) sorted =
            filter (fun c => order c = o) (childrenOf categories parent)) →
      Forall2 (fun c item =>
                 nav_title item = title c ∧
                 nav_href item = childPath basePath c ∧
                 navLevel categories (Some (id c)) (childPath basePath c)
                          (nav_children item))
              sorted items →
      navLevel categories parent basePath items.

(** [inTree categories parent items c item]: [item] is the node of the tree
    [items] built for the children of [parent] that was made from the
    category [c]. *)
Inductive inTree (categories : list Category)
  : option string → list NavItem → Category → NavItem → Prop :=
  | inTree_here parent items i c item :
      sortBy byOrder (childrenOf categories parent) !! i = Some c →
      items !! i = Some item →
      inTree categories parent items c item
  | inTree_below parent items i c' item' c item :
      sortBy byOrder (childrenOf categories parent) !! i = Some c' →
      items !! i = Some item' →
      inTree categories (Some (id c')) (nav_children item') c item →
      inTree categories parent items c item.

(** The segments of a path, each after a slash. *)
Fixpoint slashes (path : list string) : string :=
  match path with
  | [] => ""
  | s :: rest => "/" +:+ s +:+ slashes rest
  end.

(** ** Resolving a slug path *)

(** The [for (const slug of slugPath)] loop of [findTopicBySlugPath]:
    [None] is the early [return null]; otherwise the final [parentId]. *)
Fixpoint descend (children_map : gmap (option string) (list Category))
    (parent : option string) (slugPath : list string)
  : option (option string) :=
  match slugPath with
  | [] => Some parent
  | s :: rest =>
      let children := default [] (children_map !! parent) in
      match find (fun c => bool_decide (slug c = s)) children with
      | None => None
      | Some found => descend children_map (Some (id found)) rest
      end
  end.

(** [findTopicBySlugPath(slugPath)]: the result [None] is [null]. *)
Definition findTopicBySlugPath (categories : list Category)
    (slugPath : list string) : outcome (option Category) :=
  ix ← indexCategories (mkIndex ∅ ∅) categories;
  match descend (childrenMap ix) None slugPath with
  | None => Value None
  | Some parent =>
      match truthy parent with
      | Some p => Value (byId ix !! p)
      | None => Value None
      end
  end.

(** [getTopicMetadata(slugPath)] returns the category found, seen at the
    narrower type [{ title, description, tags, icon }]. *)
Definition getTopicMetadata (categories : list Category)
    (slugPath : list string) : outcome (option Category) :=
  findTopicBySlugPath categories slugPath.

(** ** Previous and next topic *)

Record TopicInfo := mkTopicInfo {
  info_title : string;
  info_href : string
}.

#[global] Instance TopicInfo_eq_dec : EqDecision TopicInfo.
Proof. solve_decision. Defined.

Record PrevNext := mkPrevNext {
  prev : option TopicInfo;
  next : option TopicInfo
}.

(** [allSlugs.findIndex((s) => s.join('/') === currentSlugStr)]; [None] is
    the index [-1]. *)
Fixpoint findIndex {A} (p : A → bool) (l : list A) : option nat :=
  match l with
  | [] => None
  | x :: l' => if p x then Some O else S <$> findIndex p l'
  end.

(** The local [getTopicInfo(slug)]. *)
Definition getTopicInfo (categories : list Category)
    (slug_path : option (list string)) : outcome (option TopicInfo) :=
  match slug_path with
  | None => Value None
  | Some s =>
      meta ← getTopicMetadata categories s;
      match meta with
      | None => Value None
      | Some c => Value (Some (mkTopicInfo (title c) ("/topics/" +:+ join "/" s)))
      end
  end.

(** [getPrevNextTopics(slugPath)] *)
Definition getPrevNextTopics (fuel : nat) (categories : list Category)
    (slugPath : list string) : outcome PrevNext :=
  allSlugs ← fueled (getAllTopicSlugs fuel categories);
  let currentSlugStr := join "/" slugPath in
  match findIndex (fun s => bool_decide (join "/" s = currentSlugStr)) allSlugs with
  | None => Value (mkPrevNext None None)
  | Some currentIndex =>
      let prevSlug :=
        if decide (0 < currentIndex)%nat
        then allSlugs !! (currentIndex - 1)%nat else None in
      let nextSlug :=
        if decide (currentIndex < length allSlugs - 1)%nat
        then allSlugs !! (currentIndex + 1)%nat else None in
      p ← getTopicInfo categories prevSlug;
      n ← getTopicInfo categories nextSlug;
      Value (mkPrevNext p n)
  end.

(** *** Resolution of a slug path, stated on the category list *)

(** [firstChild categories parent s c]: [c] is the first category, in input
    order, among those whose [parentId] is [parent], whose slug is [s]. *)
Definition firstChild (categories : list Category) (parent : option string)
    (s : string) (c : Category) : Prop :=
  ∃ before after,
    childrenOf categories parent = before ++ c :: after ∧
    slug c = s ∧ Forall (fun x => slug x ≠ s) before.

(** [resolves categories parent path last]: starting below [parent], every
    segment of [path] has a matching child; [last] is the id of the category
    reached ([parent] itself for the empty path). *)
Inductive resolves (categories : list Category)
  : option string → list string → option string → Prop :=
  | resolves_nil parent :
      resolves categories parent [] parent
  | resolves_cons parent s rest c last :
      firstChild categories parent s c →
      resolves categories (Some (id c)) rest last →
      resolves categories parent (s :: rest) last.

(** Some segment of the path has no matching child under the parent resolved
    so far. *)
Definition unmatched (categories : list Category) (path : list string) : Prop :=
  ∃ resolved s rest parent,
    path = resolved ++ s :: rest ∧
    resolves categories None resolved parent ∧
    Forall (fun c => slug c ≠ s) (childrenOf categories parent).

(** [linked categories parent cur]: the loop variable [cur] of a walk up is
    the category that the id [parent] identifies. *)
Definition linked (categories : list Category) (parent : option string)
    (cur : option Category) : Prop :=
  match cur with
  | None => parent = None
  | Some c0 => c0 ∈ categories ∧ parent = Some (id c0)
  end.

(** [firstAt p l i]: [i] is the first position of [l] at which [p] holds. *)
Definition firstAt {A} (p : A → bool) (l : list A) (i : nat) : Prop :=
  (∃ x, l !! i = Some x ∧ p x = true) ∧
  ∀ j y, (j < i)%nat → l !! j = Some y → p y = false.

(** The entry of a neighbour: its title and href when its slug path
    resolves, [null] otherwise. *)
Definition infoOf (meta : option Category) (s : list string)
  : option TopicInfo :=
  (fun c => mkTopicInfo (title c) ("/topics/" +:+ join "/" s)) <$> meta.

(** ** Strings *)

(** The code of a character. *)
Definition code (c : ascii) : N := N_of_ascii c.

(** White space and line terminators of ECMAScript, within ASCII: the
    characters that [trim] removes and that the class [\s] matches. *)
Definition isSpace (c : ascii) : bool :=
  (code c =? 32)%N || ((9 <=? code c)%N && (code c <=? 13)%N).

(** Line terminators, within ASCII: line feed and carriage return. *)
Definition isLineTerminator (c : ascii) : bool :=
  (code c =? 10)%N || (code c =? 13)%N.

Definition isUpper (c : ascii) : bool :=
  (65 <=? code c)%N && (code c <=? 90)%N.

Definition isLower (c : ascii) : bool :=
  (97 <=? code c)%N && (code c <=? 122)%N.

Definition isDigit (c : ascii) : bool :=
  (48 <=? code c)%N && (code c <=? 57)%N.

Definition lowerChar (c : ascii) : ascii :=
  if isUpper c then ascii_of_N (code c + 32) else c.

(** [String.prototype.toLowerCase] *)
Fixpoint toLowerCase (s : string) : string :=
  match s with
  | EmptyString => EmptyString
  | String c s' => String (lowerChar c) (toLowerCase s')
  end.

Fixpoint trimStart (s : string) : string :=
  match s with
  | EmptyString => EmptyString
  | String c s' => if isSpace c then trimStart s' else s
  end.

Fixpoint trimEnd (s : string) : string :=
  match s with
  | EmptyString => EmptyString
  | String c s' =>
      match trimEnd s' with
      | EmptyString => if isSpace c then EmptyString else String c EmptyString
      | t => String c t
      end
  end.

(** [String.prototype.trim] *)
Definition trim (s : string) : string := trimEnd (trimStart s).

(** [String.prototype.startsWith] *)
Fixpoint startsWith (s q : string) : bool :=
  match q, s with
  | EmptyString, _ => true
  | String _ _, EmptyString => false
  | String c q', String d s' => bool_decide (c = d) && startsWith s' q'
  end.

(** [String.prototype.includes] *)
Fixpoint includes (s q : string) : bool :=
  startsWith s q ||
  match s with
  | EmptyString => false
  | String _ s' => includes s' q
  end.

(** Every character of the string satisfies [p]. *)
Fixpoint allChars (p : ascii → bool) (s : string) : bool :=
  match s with
  | EmptyString => true
  | String c s' => p c && allChars p s'
  end.

(** ** Search *)

(** An element of [allItems]: [{ ...cat, href, parentTitle }]. *)
Record SearchItem := mkSearchItem {
  item_category : Category;
  href : string;
  parentTitle : option string
}.

(** ['title' | 'description' | 'tags'] *)
Inductive MatchType := Title | Description | Tags.

#[global] Instance MatchType_eq_dec : EqDecision MatchType.
Proof. solve_decision. Defined.

(** [interface SearchResult]: [{ ...item, matchType }]. *)
Record SearchResult := mkSearchResult {
  result_item : SearchItem;
  matchType : MatchType
}.

(** [getParentTitle(category, categoryMap)] *)
Definition getParentTitle (category : Category) (m : gmap string Category)
  : option string :=
  match truthy (parentId category) with
  | None => None
  | Some p => title <$> m !! p
  end.

(** [allItems], over the taxonomy [categories]. *)
Definition allItems (fuel : nat) (categories : list Category)
  : option (list SearchItem) :=
  let m := categoryMap categories in
  mapM (fun cat =>
          h ← buildHref fuel cat m;
          Some (mkSearchItem cat h (getParentTitle cat m)))
       categories.

(** The body of [allItems.forEach]: the [matchType] of an item, [None] when
    the item does not match. *)
Definition matchTypeOf (queryLower : string) (item : SearchItem)
  : option MatchType :=
  let cat := item_category item in
  if includes (toLowerCase (title cat)) queryLower then Some Title
  else if includes (toLowerCase (description cat)) queryLower
  then Some Description
  else if existsb (fun tag => includes (toLowerCase tag) queryLower) (tags cat)
  then Some Tags
  else None.

Definition isTitle (r : SearchResult) : bool :=
  bool_decide (matchType r = Title).

Definition result_order (r : SearchResult) : Z :=
  order (item_category (result_item r)).

(** The comparator of [matches.sort]. *)
Definition compareResults (a b : SearchResult) : Z :=
  if isTitle a && negb (isTitle b) then -1
  else if negb (isTitle a) && isTitle b then 1
  else result_order a - result_order b.

(** The state that [search] sets. *)
Record SearchState := mkSearchState {
  results : list SearchResult;
  selectedIndex : Z
}.

(** [search(searchQuery)], with the limit of [matches.slice(0, limit)] as a
    parameter: 8 in the search bar of the header, 20 in the search page. *)
Definition search (limit : nat) (items : list SearchItem)
    (searchQuery : string) : SearchState :=
  match trim searchQuery with
  | EmptyString => mkSearchState [] (-1)
  | _ =>
      let queryLower := toLowerCase searchQuery in
      let matches :=
        omap (fun item => mkSearchResult item <$> matchTypeOf queryLower item)
             items in
      mkSearchState (take limit (sortBy compareResults matches)) (-1)
  end.

Definition searchBar := search 8.
Definition searchPage := search 20.

(** [interface Topic] as [getAllTopics] fills it. *)
Record Topic := mkTopic {
  topic_id : string;
  topic_title : string;
  topic_slug : string;
  topic_description : string;
  topic_parentId : option string;
  topic_order : Z;
  topic_tags : list string;
  topic_content : string;
  topic_icon : option string
}.

(** [getAllTopics()] *)
Definition getAllTopics (categories : list Category) : list Topic :=
  (fun category =>
     mkTopic (id category) (title category) (slug category)
             (description category) (parentId category) (order category)
             (tags category) "" (icon category)) <$> categories.

(** [searchTopics(query)] of [lib/mdx.ts] *)
Definition searchTopics (categories : list Category) (query : string)
  : list Topic :=
  match trim query with
  | EmptyString => []
  | _ =>
      let queryLower := toLowerCase query in
      take 20
        (filter (fun topic =>
                   includes (toLowerCase (topic_title topic)) queryLower
                   || includes (toLowerCase (topic_description topic)) queryLower
                   || existsb (fun tag => includes (toLowerCase tag) queryLower)
                              (topic_tags topic) = true)
                (getAllTopics categories))
  end.

(** *** What a match is, stated on the strings *)

(** [field] contains [query] as a substring, letter case apart. *)
Definition containsCI (field query : string) : Prop :=
  ∃ before found after,
    field = before +:+ found +:+ after ∧
    toLowerCase found = toLowerCase query.

(** The first field, in the order title, description, tags, that contains
    the query. *)
Definition firstMatch (query : string) (item : SearchItem) (mt : MatchType)
  : Prop :=
  let cat := item_category item in
  match mt with
  | Title => containsCI (title cat) query
  | Description =>
      ¬ containsCI (title cat) query ∧ containsCI (description cat) query
  | Tags =>
      ¬ containsCI (title cat) query ∧ ¬ containsCI (description cat) query ∧
      ∃ tag, tag ∈ tags cat ∧ containsCI tag query
  end.

(** Some field of the item contains the query. *)
Definition matchesQuery (query : string) (item : SearchItem) : Prop :=
  let cat := item_category item in
  containsCI (title cat) query ∨ containsCI (description cat) query ∨
  ∃ tag, tag ∈ tags cat ∧ containsCI tag query.

(** The order of the results: a title match may stay before anything, any
    other match before another non-title match, and within the same kind the
    smaller [order] comes first. *)
Definition rankLe (a b : SearchResult) : Prop :=
  (isTitle a = true ∨ isTitle b = false) ∧
  (isTitle a = isTitle b → result_order a ≤ result_order b).

(** The results that are tied: same kind and same [order]. *)
Definition tied (t : bool) (o : Z) (r : SearchResult) : Prop :=
  isTitle r = t ∧ result_order r = o.

#[global] Instance tied_dec t o r : Decision (tied t o r).
Proof. unfold tied. apply _. Defined.

(** The string consists of white space only (or is empty). *)
Definition whitespaceOnly (s : string) : Prop :=
  ∀ i c, String.get i s = Some c → isSpace c = true.

(** ** Regular expressions *)

(** The regular expressions of [lib/mdx.ts] are written with the combinators
    below, one per construct, in continuation-passing style so that a failure
    of what follows makes a quantifier give characters back (backtracking).
    A continuation receives the rest of the input. *)

(** A literal character. *)
Definition lit {R} (c : ascii) (s : string) (k : string → option R)
  : option R :=
  match s with
  | String d s' => if bool_decide (c = d) then k s' else None
  | EmptyString => None
  end.

(** [class{min,max}], greedy ([max = None]: no upper bound, so that
    [class+] is [rep class 1 None]).  The continuation also receives the
    characters taken, for a capture group around the quantifier. *)
Fixpoint rep {R} (class : ascii → bool) (min : nat) (max : option nat)
    (s : string) (taken : string) (k : string → string → option R)
  : option R :=
  let stop := if decide (min = 0%nat) then k taken s else None in
  match s with
  | String c s' =>
      if class c && bool_decide (max ≠ Some 0%nat) then
        match rep class (pred min) (pred <$> max) s'
                  (taken +:+ String c EmptyString) k with
        | Some r => Some r
        | None => stop
        end
      else stop
  | EmptyString => stop
  end.

(** [a|b]: the first alternative that leads to a match. *)
Definition orElse {R} (a b : option R) : option R :=
  match a with
  | Some r => Some r
  | None => b
  end.

(** [^] and [$] without the flag [m]: [prev] is the character before the
    position, [None] at the beginning of the input. *)
Definition atStart (prev : option ascii) : bool :=
  match prev with
  | None => true
  | Some _ => false
  end.

Definition atEnd (s : string) : bool :=
  match s with
  | EmptyString => true
  | String _ _ => false
  end.

(** [^] and [$] with the flag [m]. *)
Definition atLineStart (prev : option ascii) : bool :=
  match prev with
  | None => true
  | Some c => isLineTerminator c
  end.

Definition atLineEnd (s : string) : bool :=
  match s with
  | EmptyString => true
  | String c _ => isLineTerminator c
  end.

(** A regular expression tried at one position: the character before the
    position and the input from the position on; a match yields a value (the
    captures, or the replacement) and the rest of the input after the match.
    None of the expressions of this file matches the empty string. *)
Definition regex (G : Type) : Type :=
  option ascii → string → option (G * string).

(** The matches of a regular expression with the flag [g], from left to
    right, as the loop [while ((match = re.exec(content)) !== null)] finds
    them: after a match the search resumes at its end.  [skip] counts the
    characters of the last match that are still to be passed. *)
Fixpoint execAll {G} (re : regex G) (prev : option ascii) (s : string)
    (skip : nat) : list G :=
  match s with
  | EmptyString => []
  | String c s' =>
      match skip with
      | S n => execAll re (Some c) s' n
      | O =>
          match re prev s with
          | Some (g, rest) =>
              g :: execAll re (Some c) s'
                     (String.length s - String.length rest - 1)
          | None => execAll re (Some c) s' 0
          end
      end
  end.

(** [String.prototype.replace] with a regular expression with the flag [g]:
    every match is replaced, the characters between the matches are kept. *)
Fixpoint replaceAll (re : regex string) (prev : option ascii) (s : string)
    (skip : nat) : string :=
  match s with
  | EmptyString => EmptyString
  | String c s' =>
      match skip with
      | S n => replaceAll re (Some c) s' n
      | O =>
          match re prev s with
          | Some (replacement, rest) =>
              replacement +:+
              replaceAll re (Some c) s'
                (String.length s - String.length rest - 1)
          | None => String c (replaceAll re (Some c) s' 0)
          end
      end
  end.

(** ** The table of contents *)

Definition isHash (c : ascii) : bool := bool_decide (c = "#"%char).

(** [.] *)
Definition isDot (c : ascii) : bool := negb (isLineTerminator c).

(** [[^a-z0-9]] *)
Definition notAlnum (c : ascii) : bool := negb (isLower c || isDigit c).

Definition isNot (x : ascii) (c : ascii) : bool := negb (bool_decide (c = x)).

(** [/\[([^\]]+)\]\([^)]+\)/], with the replacement ['$1']. *)
Definition linkRegex : regex string := fun _ s =>
  lit "[" s (fun s1 =>
  rep (isNot "]") 1 None s1 "" (fun text s2 =>
  lit "]" s2 (fun s3 =>
  lit "(" s3 (fun s4 =>
  rep (isNot ")") 1 None s4 "" (fun _ s5 =>
  lit ")" s5 (fun s6 =>
  Some (text, s6))))))).

(** [stripMarkdownLinks(text)] *)
Definition stripMarkdownLinks (text : string) : string :=
  replaceAll linkRegex None text 0.

(** [/^(#{2,4})\s+(.+)$/m]: the captures are [match[1]] and [match[2]]. *)
Definition headingRegex : regex (string * string) := fun prev s =>
  if atLineStart prev then
    rep isHash 2 (Some 4%nat) s "" (fun hashes s1 =>
    rep isSpace 1 None s1 "" (fun _ s2 =>
    rep isDot 1 None s2 "" (fun text s3 =>
    if atLineEnd s3 then Some ((hashes, text), s3) else None)))
  else None.

(** [/[^a-z0-9]+/], with the replacement ['-']. *)
Definition nonAlnumRegex : regex string := fun _ s =>
  rep notAlnum 1 None s "" (fun _ rest => Some ("-", rest)).

(** [/(^-|-$)/], with the replacement ['']. *)
Definition edgeHyphenRegex : regex string := fun prev s =>
  orElse
    (if atStart prev then lit "-" s (fun rest => Some ("", rest)) else None)
    (lit "-" s (fun rest => if atEnd rest then Some ("", rest) else None)).

(** The id of a heading:
    [text.toLowerCase().replace(/[^a-z0-9]+/g, '-').replace(/(^-|-$)/g, '')]. *)
Definition headingId (text : string) : string :=
  replaceAll edgeHyphenRegex None
    (replaceAll nonAlnumRegex None (toLowerCase text) 0) 0.

(** [interface TableOfContentsItem { id; text; level }] *)
Record TableOfContentsItem := mkTableOfContentsItem {
  toc_id : string;
  toc_text : string;
  toc_level : nat
}.

#[global] Instance TableOfContentsItem_eq_dec : EqDecision TableOfContentsItem.
Proof. solve_decision. Defined.

(** The body of the loop of [extractTableOfContents] for one match. *)
Definition tocItem (groups : string * string) : TableOfContentsItem :=
  let level := String.length groups.1 in
  let rawText := trim groups.2 in
  let text := stripMarkdownLinks rawText in
  mkTableOfContentsItem (headingId text) text level.

(** [extractTableOfContents(content)] *)
Definition extractTableOfContents (content : string)
  : list TableOfContentsItem :=
  tocItem <$> execAll headingRegex None content 0.

(** *** What the regular expressions do, stated on the strings *)

(** The longest prefix whose characters satisfy [p], and what follows it. *)
Fixpoint takeWhileS (p : ascii → bool) (s : string) : string :=
  match s with
  | EmptyString => EmptyString
  | String c s' => if p c then String c (takeWhileS p s') else EmptyString
  end.

Fixpoint dropWhileS (p : ascii → bool) (s : string) : string :=
  match s with
  | EmptyString => EmptyString
  | String c s' => if p c then dropWhileS p s' else s
  end.

(** The string does not begin with a character that satisfies [p]. *)
Definition stopsAt (p : ascii → bool) (s : string) : bool :=
  match s with
  | EmptyString => true
  | String c _ => negb (p c)
  end.

(** An upper bound of a quantifier admits [n] repetitions. *)
Definition admits (max : option nat) (n : nat) : Prop :=
  match max with
  | None => True
  | Some m => (n ≤ m)%nat
  end.

#[global] Instance admits_dec max n : Decision (admits max n).
Proof. destruct max; simpl; apply _. Defined.

(** The last character of [prev] followed by [s]. *)
Fixpoint lastOr (prev : option ascii) (s : string) : option ascii :=
  match s with
  | EmptyString => prev
  | String c s' => lastOr (Some c) s'
  end.









(** *** The id of a heading, stated on the strings *)

(** A lowercase letter or a digit. *)
Definition isAlnum (c : ascii) : bool := isLower c || isDigit c.

(** Every maximal run of characters other than lowercase letters and digits
    becomes one hyphen; [inRun] tells that the position is inside such a
    run, the hyphen of which is already written. *)
Fixpoint collapse (inRun : bool) (s : string) : string :=
  match s with
  | EmptyString => EmptyString
  | String c s' =>
      if notAlnum c
      then if inRun then collapse true s' else String "-" (collapse true s')
      else String c (collapse false s')
  end.

(** Without the hyphen at the beginning, if there is one. *)
Definition dropFirstHyphen (s : string) : string :=
  match s with
  | String c s' => if bool_decide (c = "-"%char) then s' else s
  | EmptyString => EmptyString
  end.

(** Without the hyphen at the end, if there is one. *)
Fixpoint dropLastHyphen (s : string) : string :=
  match s with
  | EmptyString => EmptyString
  | String c EmptyString =>
      if bool_decide (c = "-"%char) then EmptyString else s
  | String c s' => String c (dropLastHyphen s')
  end.

(** The maximal runs of lowercase letters and digits of a string, in
    order. *)
Fixpoint alnumWords (s : string) : list string :=
  match s with
  | EmptyString => []
  | String c s' =>
      if notAlnum c then alnumWords s'
      else if stopsAt isAlnum s' then String c EmptyString :: alnumWords s'
      else match alnumWords s' with
           | w :: ws => String c w :: ws
           | [] => [String c EmptyString]
           end
  end.

(** A word of an id: lowercase letters and digits, at least one. *)
Definition isWord (w : string) : Prop :=
  w ≠ EmptyString ∧ allChars isAlnum w = true.

(** ** Topics of a parent *)

(** The topic that [getAllTopics] makes of a category. *)
Definition topicOf (category : Category) : Topic :=
  mkTopic (id category) (title category) (slug category)
          (description category) (parentId category) (order category)
          (tags category) "" (icon category).

(** The comparator of [getTopicsByParent]. *)
Definition byTopicOrder (a b : Topic) : Z := topic_order a - topic_order b.

(** [getTopicsByParent(parentId)] of [lib/mdx.ts]; [===] tells [null] from
    the empty string. *)
Definition getTopicsByParent (categories : list Category)
    (parent : option string) : list Topic :=
  sortBy byTopicOrder
    (filter (fun topic => topic_parentId topic = parent)
            (getAllTopics categories)).

(** Some field of the topic contains the query. *)
Definition topicMatches (query : string) (topic : Topic) : Prop :=
  containsCI (topic_title topic) query ∨
  containsCI (topic_description topic) query ∨
  ∃ tag, tag ∈ topic_tags topic ∧ containsCI tag query.

(** ** The keyboard of the search components *)

(** [e.key], as far as the handlers tell the keys apart. *)
Inductive Key := ArrowDown | ArrowUp | Enter | Escape | OtherKey.

#[global] Instance Key_eq_dec : EqDecision Key.
Proof. solve_decision. Defined.

(** What [router.push] is called with: the href of a result, or the address
    [`/search?q=${encodeURIComponent(query)}`] of the search page, kept as
    the query it is made of. *)
Inductive Navigation :=
  | ToHref (target : string)
  | ToSearch (query : string).

#[global] Instance Navigation_eq_dec : EqDecision Navigation.
Proof. solve_decision. Defined.

(** [results[selectedIndex]]: [undefined] out of the array, also for the
    index [-1]. *)
Definition resultAt (l : list SearchResult) (i : Z) : option SearchResult :=
  if decide (0 ≤ i) then l !! Z.to_nat i else None.

(** [(prev) => prev < results.length - 1 ? prev + 1 : prev] *)
Definition arrowDown (l : list SearchResult) (prev : Z) : Z :=
  if decide (prev < Z.of_nat (length l) - 1) then prev + 1 else prev.

(** [(prev) => (prev > 0 ? prev - 1 : -1)] *)
Definition arrowUp (prev : Z) : Z :=
  if decide (0 < prev) then prev - 1 else -1.

(** The state of the search bar of the header. *)
Record BarState := mkBarState {
  bar_query : string;
  bar_results : list SearchResult;
  bar_selectedIndex : Z;
  bar_isOpen : bool
}.

(** [handleKeyDown(e)] of the search bar: the next state, and the call of
    [router.push] if there is one.  [e.preventDefault()] and the blur of the
    input field are outside the state. *)
Definition handleKeyDown (key : Key) (st : BarState)
  : BarState * option Navigation :=
  match key with
  | ArrowDown =>
      (mkBarState (bar_query st) (bar_results st)
                  (arrowDown (bar_results st) (bar_selectedIndex st))
                  (bar_isOpen st), None)
  | ArrowUp =>
      (mkBarState (bar_query st) (bar_results st)
                  (arrowUp (bar_selectedIndex st)) (bar_isOpen st), None)
  | Enter =>
      match resultAt (bar_results st) (bar_selectedIndex st) with
      | Some r =>
          (mkBarState "" (bar_results st) (bar_selectedIndex st) false,
           Some (ToHref (href (result_item r))))
      | None =>
          match trim (bar_query st) with
          | EmptyString => (st, None)
          | _ =>
              (mkBarState (bar_query st) (bar_results st)
                          (bar_selectedIndex st) false,
               Some (ToSearch (bar_query st)))
          end
      end
  | Escape =>
      (mkBarState (bar_query st) (bar_results st) (bar_selectedIndex st)
                  false, None)
  | OtherKey => (st, None)
  end.

(** The state of the search page. *)
Record PageState := mkPageState {
  page_query : string;
  page_results : list SearchResult;
  page_selectedIndex : Z
}.

(** [handleKeyDown(e)] of the search page. *)
Definition pageKeyDown (key : Key) (st : PageState)
  : PageState * option Navigation :=
  match key with
  | ArrowDown =>
      (mkPageState (page_query st) (page_results st)
                   (arrowDown (page_results st) (page_selectedIndex st)),
       None)
  | ArrowUp =>
      (mkPageState (page_query st) (page_results st)
                   (arrowUp (page_selectedIndex st)), None)
  | Enter =>
      match resultAt (page_results st) (page_selectedIndex st) with
      | Some r => (st, Some (ToHref (href (result_item r))))
      | None => (st, None)
      end
  | Escape =>
      (mkPageState "" (page_results st) (page_selectedIndex st), None)
  | OtherKey => (st, None)
  end.

(** The state that the search bar is in once [search(query)] has run for the
    query typed, the list open. *)
Definition typed (items : list SearchItem) (query : string) : BarState :=
  let st := searchBar items query in
  mkBarState query (results st) (selectedIndex st) true.

(** The effect [useEffect(() => { search(query) }, [query, search])] of the
    search bar, which runs after a handler has changed the query and before
    the next key: [search] sets the results and the selection anew. *)
Definition afterRender (items : list SearchItem) (before after : BarState)
  : BarState :=
  if decide (bar_query after = bar_query before) then after
  else
    let st := searchBar items (bar_query after) in
    mkBarState (bar_query after) (results st) (selectedIndex st)
               (bar_isOpen after).

(** The state of the search bar after a sequence of keys, each followed by
    the effect. *)
Definition pressKeys (items : list SearchItem) (keys : list Key)
    (st : BarState) : BarState :=
  foldl (fun st key => afterRender items st (handleKeyDown key st).1) st keys.

(** The same effect in the search page. *)
Definition pageAfterRender (items : list SearchItem)
    (before after : PageState) : PageState :=
  if decide (page_query after = page_query before) then after
  else
    let st := searchPage items (page_query after) in
    mkPageState (page_query after) (results st) (selectedIndex st).

(** The state of the search page after a sequence of keys, each followed by
    the effect. *)
Definition pagePressKeys (items : list SearchItem) (keys : list Key)
    (st : PageState) : PageState :=
  foldl (fun st key => pageAfterRender items st (pageKeyDown key st).1)
        st keys.

(** The state that the search page is in once [search(query)] has run for
    the query typed. *)
Definition pageTyped (items : list SearchItem) (query : string) : PageState :=
  let st := searchPage items query in
  mkPageState query (results st) (selectedIndex st).

(** The popular topics of the search page:
    [allItems.filter((item) => item.parentId === null).slice(0, 6)]. *)
Definition popularTopics (items : list SearchItem) : list SearchItem :=
  take 6 (filter (fun item => parentId (item_category item) = None) items).

(** ** The groups of the search page *)

(** [rootCategory?.title || 'Other'] *)
Definition titleOrOther (rootCategory : option Category) : string :=
  match rootCategory with
  | Some c => match title c with EmptyString => "Other" | t => t end
  | None => "Other"
  end.

(** The [groupName] of a result in [groupedResults]. *)
Definition groupNameOf (fuel : nat) (m : gmap string Category)
    (result : SearchResult) : option string :=
  let resultId := id (item_category (result_item result)) in
  rootId ← rootWalk fuel m (m !! resultId) resultId;
  Some (titleOrOther (m !! rootId)).


(** The top of the parent chain of a category: the last category that the
    walk visits. *)
Definition topOf (c : Category) (ancestors : list Category) : Category :=
  default c (last ancestors).

(** ** The layout of a topic page *)

(** The [navigation] that the topic page makes of the navigation tree:
    three levels, the items of the third level without children ([label] is
    the title). *)
Definition pageNavigation (navigationTree : list NavItem) : list NavItem :=
  (fun item =>
     mkNavItem (nav_title item) (nav_href item)
       ((fun child =>
           mkNavItem (nav_title child) (nav_href child)
             ((fun grandchild =>
                 mkNavItem (nav_title grandchild) (nav_href grandchild) [])
                <$> nav_children child))
          <$> nav_children item))
    <$> navigationTree.

(** [isAncestorActive(navItem)] of the sidebar of the layout, for the
    current [pathname]: whether the item is shown expanded.  An item
    without [children] has none to look into. *)
Fixpoint isAncestorActive (pathname : string) (navItem : NavItem) : bool :=
  match navItem with
  | mkNavItem _ item_href children =>
      if bool_decide (pathname = item_href) then true
      else if startsWith pathname (item_href +:+ "/") then true
      else existsb (isAncestorActive pathname) children
  end.

(** The pathname is the href of the item or lies below it. *)
Definition onPath (pathname : string) (navItem : NavItem) : bool :=
  bool_decide (pathname = nav_href navItem)
  || startsWith pathname (nav_href navItem +:+ "/").

(** The items of the first three levels of a tree. *)
Definition threeLevels (items : list NavItem) : list NavItem :=
  items ++ (items ≫= nav_children)
        ++ ((items ≫= nav_children) ≫= nav_children).

(** [String.prototype.split] with a separator of one character. *)
Fixpoint split (sep : ascii) (s : string) : list string :=
  match s with
  | EmptyString => [EmptyString]
  | String c s' =>
      if bool_decide (c = sep) then EmptyString :: split sep s'
      else match split sep s' with
           | w :: ws => String c w :: ws
           | [] => [String c EmptyString]
           end
  end.

(** [String.prototype.toUpperCase] on a character (ASCII). *)
Definition upperChar (c : ascii) : ascii :=
  if isLower c then ascii_of_N (code c - 32) else c.

(** [word.charAt(0).toUpperCase() + word.slice(1)] *)
Definition capitalize (word : string) : string :=
  match word with
  | EmptyString => EmptyString
  | String c rest => String (upperChar c) rest
  end.

(** The label of a segment that is not the last:
    [segment.split('-').map(capitalize).join(' ')]. *)
Definition segmentLabel (segment : string) : string :=
  join " " (capitalize <$> split "-" segment).

(** An element of [breadcrumbs]: [{ label, href, isLast }]. *)
Record Crumb := mkCrumb {
  crumb_label : string;
  crumb_href : string;
  crumb_isLast : bool
}.

(** [breadcrumbs] of the layout, for the title of the page and the
    pathname. *)
Definition breadcrumbs (pageTitle pathname : string) : list Crumb :=
  let segments := filter (fun s => s ≠ EmptyString) (split "/" pathname) in
  imap (fun index segment =>
          let crumbHref := "/" +:+ join "/" (take (S index) segments) in
          let isLast := bool_decide (index = (length segments - 1)%nat) in
          mkCrumb (if isLast then pageTitle else segmentLabel segment)
                  crumbHref isLast)
       segments.

(** A segment of a path: not empty, without a slash. *)
Definition isSegment (s : string) : Prop :=
  s ≠ EmptyString ∧ allChars (isNot "/") s = true.

(** The entry that [getPrevNextTopics] makes of the [j]-th category and the
    [j]-th slug path. *)
Definition neighbourAt (categories : list Category)
    (allSlugs : list (list string)) (j : nat) : option TopicInfo :=
  c ← categories !! j;
  s ← allSlugs !! j;
  Some (mkTopicInfo (title c) ("/topics/" +:+ join "/" s)).

(** ** Invariants of the data model *)

(** The ids are unique. *)
Definition uniqueIds (categories : list Category) : Prop :=
  NoDup (id <$> categories).

(** No id is the empty string (which the truthiness tests of the walks take
    for an absent id). *)
Definition nonEmptyIds (categories : list Category) : Prop :=
  Forall (fun c => id c ≠ "") categories.

(** The slug is unique within each group of siblings. *)
Definition siblingSlugsUnique (categories : list Category) : Prop :=
  Forall (fun c1 =>
    Forall (fun c2 =>
      parentId c1 = parentId c2 → slug c1 = slug c2 → c1 = c2) categories)
    categories.

(** A check of acyclicity that computes: no category of the map has a chain
    of resolved parents longer than the map. *)
Definition acyclicb (m : gmap string Category) : bool :=
  forallb (fun kc => bool_decide (length (climb (S (size m)) m kc.2) ≤ size m)%nat)
          (map_to_list m).

(** A dangling reference: the [parentId] of the category is a string that is
    the id of no category. *)
Definition dangling (categories : list Category) (c : Category) : Prop :=
  ∃ p, parentId c = Some p ∧ ∀ x, x ∈ categories → id x ≠ p.

(** Every [parentId] is [null] or the id of a category. *)
Definition parentsResolve (categories : list Category) : Prop :=
  Forall (fun c =>
            parentId c = None ∨
            ∃ p, p ∈ categories ∧ parentId c = Some (id p))
         categories.

(** ** Sample taxonomies *)

Definition root (i t s : string) (o : Z) : Category :=
  mkCategory i t s "" None o [] None.

Definition child (i t s parent : string) (o : Z) : Category :=
  mkCategory i t s "" (Some parent) o [] None.

(** A root whose id is the empty string, and a child that refers to it. *)
Definition emptyIdTaxonomy : list Category :=
  [ root "" "A" "a" 1; child "b" "B" "b" "" 1 ].

(** Two roots and a child of the first. *)
Definition smallTaxonomy : list Category :=
  [ root "f" "Foundations" "foundations" 1;
    child "s" "Speech" "speech-recognition" "f" 1;
    root "g" "Guides" "guides" 2 ].

(** Siblings [a] (order 2), [b] (order 1) and [c] (order 1) under one
    parent. *)
Definition siblingTaxonomy : list Category :=
  [ root "p" "P" "p" 1;
    child "a" "A" "a" "p" 2;
    child "b" "B" "b" "p" 1;
    child "c" "C" "c" "p" 1 ].

(** A taxonomy with a dangling reference: [o] refers to the missing id
    [gone], and [k] is a child of [o]. *)
Definition orphanTaxonomy : list Category :=
  [ root "f" "Foundations" "foundations" 1;
    child "o" "Orphan" "orphan" "gone" 1;
    child "k" "Kid" "kid" "o" 1 ].

(** Two categories with a dangling reference around a root; the slug path
    of the last one is also the slug path of the root. *)
Definition strayTaxonomy : list Category :=
  [ child "o" "O" "o" "gone" 1;
    root "b" "B" "b" 1;
    child "p" "P" "b" "gone" 1 ].

(** An item whose title contains a space. *)
Definition spacedItem : SearchItem :=
  mkSearchItem (root "x" "a b" "x" 1) "/topics/x" None.

(** The three items of the example of the specification, the title match
    last in input order. *)
Definition speechItems : list SearchItem :=
  [ mkSearchItem
      (mkCategory "x" "X" "x" "uses speech recognition" None 1 [] None)
      "/topics/x" None;
    mkSearchItem
      (mkCategory "y" "Y" "y" "" None 2 ["speech-recognition"] None)
      "/topics/y" None;
    mkSearchItem
      (mkCategory "s" "Speech Recognition" "s" "" None 3 [] None)
      "/topics/s" None ].




(** Two categories, each the parent of the other. *)
Definition cyclicTaxonomy : list Category :=
  [ child "a" "A" "a" "b" 1; child "b" "B" "b" "a" 2 ].
(** * Properties *)

(** ** The parent chain *)

Section Chain.
Context (par : Category → option Category).

Lemma chain_det c l1 l2 : chain par c l1 → chain par c l2 → l1 = l2.
Proof.
  intros H1; revert l2.
  induction H1 as [c Hc|c p l Hp _ IH]; intros l2 H2;
    inversion H2; subst; try congruence.
  assert (p = p0) by congruence; subst. f_equal; auto.
Qed.

Lemma chain_suffix c l1 x l2 :
  chain par c (l1 ++ x :: l2) → chain par x l2.
Proof.
  revert c; induction l1 as [|y l1 IH]; intros c Hc;
    inversion Hc; subst; eauto.
Qed.

(** A complete chain never passes twice through a category, nor through
    its start. *)
Lemma chain_not_in c l : chain par c l → c ∉ l.
Proof.
  intros Hl Hin. apply list_elem_of_split in Hin as (l1 & l2 & ->).
  pose proof (chain_suffix _ _ _ _ Hl) as Hl2.
  pose proof (chain_det _ _ _ Hl Hl2) as Heq.
  apply (f_equal length) in Heq. rewrite length_app in Heq. simpl in Heq. lia.
Qed.

Lemma chain_finite_NoDup c l : chain par c l → NoDup (c :: l).
Proof.
  induction 1 as [c Hc|c p l Hp Hl IH].
  - constructor; [by intros ?%elem_of_nil | constructor].
  - constructor; [|done]. apply chain_not_in. by apply chain_step.
Qed.
End Chain.

Section ParentChain.
Context (m : gmap string Category).

Lemma chain_ancestor c l a :
  chain (parentOf m) c l → a ∈ l → ancestor m c a.
Proof.
  induction 1 as [c Hc|c p l Hp _ IH]; intros Ha.
  - by apply elem_of_nil in Ha.
  - apply elem_of_cons in Ha as [->|Ha].
    + by apply tc_once.
    + eapply tc_l; [exact Hp | by apply IH].
Qed.

Lemma ancestor_chain c a :
  ancestor m c a → ∀ l, chain (parentOf m) c l → a ∈ l.
Proof.
  induction 1 as [x y Hxy|x y z Hxy _ IH]; intros l Hl;
    inversion Hl; subst; unfold parent_rel in Hxy; try congruence.
  - assert (y = p) by congruence; subst. left.
  - assert (y = p) by congruence; subst. right; auto.
Qed.

Lemma chain_NoDup c l : acyclic m → chain (parentOf m) c l → NoDup l.
Proof.
  intros Hacyc; induction 1 as [c Hc|c p l Hp Hl IH]; constructor; auto.
  intros Hin. apply (Hacyc p). by eapply chain_ancestor.
Qed.

Lemma climb_ancestor n c a : a ∈ climb n m c → ancestor m c a.
Proof.
  revert c; induction n as [|n IH]; intros c; simpl.
  - by intros ?%elem_of_nil.
  - destruct (parentOf m c) as [p|] eqn:Hp; [|by intros ?%elem_of_nil].
    intros [->|Ha]%elem_of_cons; [by apply tc_once|].
    eapply tc_l; [exact Hp | by apply IH].
Qed.

Lemma climb_NoDup n c : acyclic m → NoDup (climb n m c).
Proof.
  intros Hacyc; revert c; induction n as [|n IH]; intros c; simpl;
    [constructor|].
  destruct (parentOf m c) as [p|]; constructor; auto.
  intros Hin. apply (Hacyc p). by eapply climb_ancestor.
Qed.

Lemma parentOf_value c p : parentOf m c = Some p → ∃ k, m !! k = Some p.
Proof. unfold parentOf. destruct (truthy _); [eauto|done]. Qed.

Lemma climb_value n c a : a ∈ climb n m c → ∃ k, m !! k = Some a.
Proof.
  revert c; induction n as [|n IH]; intros c; simpl.
  - by intros ?%elem_of_nil.
  - destruct (parentOf m c) as [p|] eqn:Hp; [|by intros ?%elem_of_nil].
    intros [->|Ha]%elem_of_cons; eauto using parentOf_value.
Qed.

(** Pigeonhole: in an acyclic graph a chain of resolved parents cannot be
    longer than the number of categories in the map. *)
Lemma climb_bounded n c : acyclic m → (length (climb n m c) ≤ size m)%nat.
Proof.
  intros Hacyc. rewrite <-length_map_to_list.
  rewrite <-(length_fmap snd (map_to_list m)).
  apply submseteq_length, NoDup_submseteq; [by apply climb_NoDup|].
  intros a [k Hk]%climb_value.
  apply list_elem_of_fmap. exists (k, a). split; [done|].
  by apply elem_of_map_to_list.
Qed.

Lemma climb_chain n c :
  (length (climb n m c) < n)%nat → chain (parentOf m) c (climb n m c).
Proof.
  revert c; induction n as [|n IH]; intros c; simpl; [lia|].
  destruct (parentOf m c) as [p|] eqn:Hp; simpl; intros Hlen.
  - apply chain_step; [done|]. apply IH. lia.
  - by apply chain_root.
Qed.

Lemma acyclic_chain c :
  acyclic m → ∃ l, chain (parentOf m) c l ∧ (length l ≤ size m)%nat.
Proof.
  intros Hacyc. exists (climb (S (size m)) m c). split.
  - apply climb_chain. pose proof (climb_bounded (S (size m)) c Hacyc). lia.
  - by apply climb_bounded.
Qed.

(** The loop of [buildHref] on a category with a complete chain: it needs
    one iteration for the category and one for each ancestor. *)
Lemma walkUp_chain c l fuel acc :
  chain (parentOf m) c l →
  walkUp fuel m (Some c) acc =
    if decide (length l < fuel)%nat
    then Some (rev (slug <$> l) ++ slug c :: acc)
    else None.
Proof.
  intros Hl; revert fuel acc.
  induction Hl as [c Hc|c p l Hp _ IH]; intros [|fuel] acc; simpl.
  - done.
  - rewrite Hc. by destruct fuel.
  - done.
  - rewrite Hp, IH. repeat case_decide; try lia; [|done].
    by rewrite <-app_assoc.
Qed.

Lemma walkUp_Some_chain fuel c acc r :
  walkUp fuel m (Some c) acc = Some r →
  ∃ l, chain (parentOf m) c l ∧ (length l < fuel)%nat.
Proof.
  revert c acc; induction fuel as [|fuel IH]; intros c acc; simpl; [done|].
  destruct (parentOf m c) as [p|] eqn:Hp.
  - intros (l & Hl & Hlen)%IH. exists (p :: l). split;
      [by apply chain_step | simpl; lia].
  - intros _. exists []. split; [by apply chain_root | simpl; lia].
Qed.
End ParentChain.

Lemma categoryMap_snoc cats c :
  categoryMap (cats ++ [c]) = <[id c := c]> (categoryMap cats).
Proof. unfold categoryMap. by rewrite foldl_app. Qed.

Lemma categoryMap_size cats : (size (categoryMap cats) ≤ length cats)%nat.
Proof.
  induction cats as [|c cats IH] using rev_ind; [done|].
  rewrite categoryMap_snoc, length_app, map_size_insert. simpl.
  destruct (categoryMap cats !! id c); simpl; lia.
Qed.

(** ** The index *)

Lemma indexCategory_spec ix cat :
  ∃ ix', indexCategory ix cat = Value ix' ∧
    byId ix' = <[id cat := cat]> (byId ix) ∧
    ∀ k, default [] (childrenMap ix' !! k) =
         default [] (childrenMap ix !! k) ++
         (if decide (parentId cat = k) then [cat] else []).
Proof.
  unfold indexCategory.
  destruct (childrenMap ix !! parentId cat) as [bucket|] eqn:Hb.
  - rewrite Hb. eexists; split; [done|]. split; [done|]. intros k; simpl.
    rewrite lookup_insert. case_decide; subst; simpl.
    + by rewrite Hb.
    + by rewrite app_nil_r.
  - rewrite lookup_insert_eq. eexists; split; [done|]. split; [done|].
    intros k; simpl. rewrite insert_insert_eq, lookup_insert.
    case_decide; subst; simpl.
    + by rewrite Hb.
    + by rewrite app_nil_r.
Qed.

Lemma indexCategories_spec cats ix :
  ∃ ix', indexCategories ix cats = Value ix' ∧
    byId ix' = foldl (fun m cat => <[id cat := cat]> m) (byId ix) cats ∧
    ∀ k, default [] (childrenMap ix' !! k) =
         default [] (childrenMap ix !! k) ++ childrenOf cats k.
Proof.
  revert ix; induction cats as [|cat cats IH]; intros ix; simpl.
  - exists ix. split; [done|]. split; [done|]. intros k.
    by rewrite app_nil_r.
  - destruct (indexCategory_spec ix cat) as (ix1 & -> & Hid & Hch).
    destruct (IH ix1) as (ix2 & Hix2 & Hid2 & Hch2). simpl.
    exists ix2. split; [done|]. split; [by rewrite Hid2, Hid|].
    intros k. rewrite Hch2, Hch, <-app_assoc. f_equal.
    unfold childrenOf. rewrite filter_cons.
    by repeat case_decide.
Qed.

(** Indexing never throws, and yields the map by id and the buckets of
    children in input order. *)
Lemma indexCategories_init cats :
  ∃ ix, indexCategories (mkIndex ∅ ∅) cats = Value ix ∧
    byId ix = categoryMap cats ∧
    ∀ k, default [] (childrenMap ix !! k) = childrenOf cats k.
Proof.
  destruct (indexCategories_spec cats (mkIndex ∅ ∅)) as (ix & H1 & H2 & H3).
  exists ix. split; [done|]. split; [done|]. intros k. by rewrite H3.
Qed.

(** ** Resolving slug paths *)

Lemma find_slug_Some (l : list Category) s c :
  find (fun c => bool_decide (slug c = s)) l = Some c ↔
  ∃ before after,
    l = before ++ c :: after ∧ slug c = s ∧ Forall (fun x => slug x ≠ s) before.
Proof.
  induction l as [|x l IH]; simpl.
  - split; [done|]. intros ([|??] & ? & ? & _); done.
  - case_bool_decide as Hx.
    + split.
      * intros [= ->]. by exists [], l.
      * intros ([|y before] & after & Heq & Hs & Hall); simplify_eq/=; [done|].
        by inversion Hall.
    + rewrite IH. split.
      * intros (before & after & -> & Hs & Hall).
        exists (x :: before), after. by repeat constructor.
      * intros ([|y before] & after & Heq & Hs & Hall); simplify_eq/=.
        inversion Hall; subst. by exists before, after.
Qed.

Lemma find_slug_None (l : list Category) s :
  find (fun c => bool_decide (slug c = s)) l = None ↔
  Forall (fun x => slug x ≠ s) l.
Proof.
  induction l as [|x l IH]; simpl; [by split|].
  case_bool_decide as Hx.
  - split; [done|]. by inversion 1.
  - rewrite IH. split; [by constructor | by inversion 1].
Qed.

Lemma firstChild_det cats parent s c1 c2 :
  firstChild cats parent s c1 → firstChild cats parent s c2 → c1 = c2.
Proof.
  intros H1%find_slug_Some H2%find_slug_Some. congruence.
Qed.

Section Descend.
Context (cats : list Category).
Context (ch : gmap (option string) (list Category)).
Hypothesis Hch : ∀ k, default [] (ch !! k) = childrenOf cats k.

Lemma descend_Some parent path last :
  descend ch parent path = Some last ↔ resolves cats parent path last.
Proof.
  revert parent; induction path as [|s rest IH]; intros parent; simpl.
  - split; [intros [= ->]; constructor | by inversion 1].
  - rewrite Hch.
    destruct (find _ _) as [found|] eqn:Hfind.
    + apply find_slug_Some in Hfind. rewrite IH. split.
      * by apply resolves_cons.
      * inversion 1 as [|? ? ? c ? Hc Hrest]; subst.
        by rewrite (firstChild_det _ _ _ _ _ Hfind Hc).
    + apply find_slug_None in Hfind. split; [done|].
      inversion 1 as [|? ? ? c ? (before & after & Heq & Hs & _) _]; subst.
      rewrite Heq in Hfind. apply Forall_app in Hfind as [_ Hfind].
      by inversion Hfind.
Qed.

Lemma descend_None parent path :
  descend ch parent path = None ↔
  ∃ resolved s rest p,
    path = resolved ++ s :: rest ∧ resolves cats parent resolved p ∧
    Forall (fun c => slug c ≠ s) (childrenOf cats p).
Proof.
  revert parent; induction path as [|s rest IH]; intros parent; simpl.
  - split; [done|]. intros ([|??] & ? & ? & ? & ? & _); done.
  - rewrite Hch.
    destruct (find _ _) as [found|] eqn:Hfind.
    + pose proof Hfind as Hfirst. apply find_slug_Some in Hfirst.
      rewrite IH. split.
      * intros (resolved & s' & rest' & p & -> & Hres & Hno).
        exists (s :: resolved), s', rest', p. split; [done|].
        split; [by eapply resolves_cons|done].
      * intros ([|s0 resolved] & s' & rest' & p & Heq & Hres & Hno);
          simplify_eq/=.
        -- inversion Hres; subst. apply find_slug_None in Hno. congruence.
        -- inversion Hres as [|? ? ? c ? Hc Hrest]; subst.
           rewrite (firstChild_det _ _ _ _ _ Hfirst Hc).
           by exists resolved, s', rest', p.
    + split; [|done]. intros _. apply find_slug_None in Hfind.
      exists [], s, rest, parent. split; [done|]. split; [constructor|done].
Qed.
End Descend.

(** ** The map by id *)

Lemma categoryMap_lookup_Some cats i c :
  categoryMap cats !! i = Some c → c ∈ cats ∧ id c = i.
Proof.
  revert c; induction cats as [|x cats IH] using rev_ind; intros c.
  - unfold categoryMap; simpl. by rewrite lookup_empty.
  - rewrite categoryMap_snoc, lookup_insert. case_decide as Hi.
    + intros [= ->]. split; [|done]. apply elem_of_app. right. left.
    + intros [??]%IH. split; [|done]. apply elem_of_app. by left.
Qed.

Lemma categoryMap_lookup_is_Some cats c :
  c ∈ cats → is_Some (categoryMap cats !! id c).
Proof.
  induction cats as [|x cats IH] using rev_ind.
  - by intros ?%elem_of_nil.
  - rewrite categoryMap_snoc, lookup_insert. case_decide as Hi; [by eexists|].
    intros [?|Hx%list_elem_of_singleton]%elem_of_app; [auto|]. by subst.
Qed.

(** With unique ids the map returns the category itself. *)
Lemma categoryMap_lookup_NoDup cats c :
  NoDup (id <$> cats) → c ∈ cats → categoryMap cats !! id c = Some c.
Proof.
  intros Hnd Hc.
  destruct (categoryMap_lookup_is_Some cats c Hc) as [c' Hc'].
  rewrite Hc'. f_equal.
  apply categoryMap_lookup_Some in Hc' as [Hin Hid].
  apply list_elem_of_lookup in Hc as [i Hi].
  apply list_elem_of_lookup in Hin as [j Hj].
  assert (i = j) as ->; [|congruence].
  eapply NoDup_lookup; [exact Hnd| |];
    rewrite list_lookup_fmap; [by rewrite Hi | by rewrite Hj; simpl; f_equal].
Qed.

Lemma elem_of_childrenOf cats k c :
  c ∈ childrenOf cats k ↔ c ∈ cats ∧ parentId c = k.
Proof. unfold childrenOf. rewrite list_elem_of_filter. tauto. Qed.

Lemma firstChild_elem_of cats parent s c :
  firstChild cats parent s c → c ∈ cats ∧ parentId c = parent ∧ slug c = s.
Proof.
  intros (before & after & Heq & Hs & _).
  assert (c ∈ childrenOf cats parent) as [??]%elem_of_childrenOf; [|done].
  rewrite Heq. apply elem_of_app. right. left.
Qed.

(** The id reached by a non-empty resolved path is the id of a category. *)
Lemma resolves_last cats parent path last :
  resolves cats parent path last →
  path = [] ∧ last = parent ∨ ∃ c, c ∈ cats ∧ last = Some (id c).
Proof.
  induction 1 as [parent|parent s rest c last Hc _ IH]; [by left|].
  right. destruct IH as [[-> ->]|?]; [|done].
  exists c. split; [|done]. by apply firstChild_elem_of in Hc as [? _].
Qed.

Lemma truthy_Some_id (i : string) : i ≠ "" → truthy (Some i) = Some i.
Proof. by destruct i. Qed.

Lemma truthy_Some s p : truthy s = Some p → s = Some p ∧ p ≠ "".
Proof. destruct s as [[|??]|]; simpl; [done| |done]. by intros [= <-]. Qed.

Lemma unmatched_descend cats ix path :
  indexCategories (mkIndex ∅ ∅) cats = Value ix →
  unmatched cats path ↔ descend (childrenMap ix) None path = None.
Proof.
  intros Hix. destruct (indexCategories_init cats) as (ix' & Hix' & _ & Hch).
  assert (ix' = ix) as -> by congruence.
  symmetry. by apply descend_None.
Qed.

(** C3, as amended: [getTopicMetadata] never throws, and returns [null] for
    the empty path and for a path with a segment that has no matching child
    under the parent resolved so far; when no category has the empty string as
    its id these are the only paths for which it returns [null]. *)
Theorem getTopicMetadata_null cats path :
  (∃ r, getTopicMetadata cats path = Value r) ∧
  getTopicMetadata cats [] = Value None ∧
  (path = [] ∨ unmatched cats path → getTopicMetadata cats path = Value None) ∧
  (nonEmptyIds cats →
   getTopicMetadata cats path = Value None →
   path = [] ∨ unmatched cats path).
Proof.
  unfold getTopicMetadata, findTopicBySlugPath.
  destruct (indexCategories_init cats) as (ix & Hix & Hid & Hch).
  rewrite Hix; simpl. split; [|split; [|split]].
  - destruct (descend _ _ _) as [parent|]; [|by eexists].
    destruct (truthy parent); by eexists.
  - done.
  - intros [->|Hun]; [done|].
    apply (unmatched_descend cats ix path Hix) in Hun. by rewrite Hun.
  - intros Hne.
    destruct (descend _ _ _) as [parent|] eqn:Hd.
    + apply (descend_Some cats _ Hch) in Hd.
      apply resolves_last in Hd as [[-> _]|(c & Hc & ->)]; [by left|].
      rewrite truthy_Some_id
        by (by apply (proj1 (Forall_forall _ _) Hne)).
      rewrite Hid.
      destruct (categoryMap_lookup_is_Some cats c Hc) as [c' ->]. done.
    + intros _. right. by apply (unmatched_descend cats ix path Hix).
Qed.

Lemma getTopicMetadata_null_witness :
  nonEmptyIds smallTaxonomy ∧
  getTopicMetadata smallTaxonomy ["guides"; "speech-recognition"] = Value None ∧
  (["guides"; "speech-recognition"] = [] ∨
   unmatched smallTaxonomy ["guides"; "speech-recognition"]).
Proof.
  assert (nonEmptyIds smallTaxonomy) as Hne.
  { unfold nonEmptyIds. by apply (bool_decide_unpack _); vm_compute. }
  split; [done|]. split; [by vm_compute|].
  apply (getTopicMetadata_null smallTaxonomy
           ["guides"; "speech-recognition"]); [done|by vm_compute].
Defined.

(** C3, as stated, fails on a category whose id is the empty string: its
    one-segment path is matched and not empty, and the result is [null]. *)
Lemma getTopicMetadata_null_empty_id :
  ¬ (getTopicMetadata emptyIdTaxonomy ["a"] = Value None ↔
     ["a"] = [] ∨ unmatched emptyIdTaxonomy ["a"]).
Proof.
  intros [Hnull _]. destruct Hnull as [?|Hun]; [by vm_compute|done|].
  eapply unmatched_descend in Hun; [|by vm_compute].
  by vm_compute in Hun.
Qed.

(** ** Deciding acyclicity *)

Section Acyclicb.
Context (m : gmap string Category).

Lemma ancestor_value c a : ancestor m c a → ∃ k, m !! k = Some a.
Proof.
  induction 1 as [x y Hxy|x y z _ _ IH]; [|done].
  by eapply parentOf_value.
Qed.

Lemma cycle_step c :
  ancestor m c c → ∃ p, parentOf m c = Some p ∧ ancestor m p p.
Proof.
  intros Hc. inversion Hc as [x y Hxy|x p z Hxp Hpc]; subst.
  - exists c. split; [done|]. by apply tc_once.
  - exists p. split; [done|]. eapply tc_r; [exact Hpc | exact Hxp].
Qed.

Lemma cycle_climb n c : ancestor m c c → length (climb n m c) = n.
Proof.
  revert c; induction n as [|n IH]; intros c Hc; simpl; [done|].
  destruct (cycle_step c Hc) as (p & -> & Hp). simpl. by rewrite IH.
Qed.

Lemma acyclicb_sound : acyclicb m = true → acyclic m.
Proof.
  unfold acyclicb. rewrite forallb_forall. intros Hall c Hc.
  destruct (ancestor_value c c Hc) as [k Hk].
  assert (In (k, c) (map_to_list m)) as Hin.
  { apply list_elem_of_In. by apply elem_of_map_to_list. }
  apply Hall in Hin. cbn [snd] in Hin.
  apply bool_decide_eq_true in Hin.
  rewrite cycle_climb in Hin by done. lia.
Qed.
End Acyclicb.

(** ** From a resolved path back to its href *)

Section RoundTrip.
Context (cats : list Category).
Hypothesis Hunique : uniqueIds cats.
Hypothesis Hnonempty : nonEmptyIds cats.

Lemma parentOf_linked c parent cur :
  c ∈ cats → parentId c = parent → linked cats parent cur →
  parentOf (categoryMap cats) c = cur.
Proof.
  unfold parentOf. intros Hc -> Hcur.
  destruct cur as [c0|]; simpl in Hcur.
  - destruct Hcur as [Hc0 ->].
    rewrite truthy_Some_id.
    + by apply categoryMap_lookup_NoDup.
    + by eapply (proj1 (Forall_forall _ _) Hnonempty).
  - by rewrite Hcur.
Qed.

(** Walking up from the end of a resolved path retraces the path. *)
Lemma resolves_walkUp parent path last :
  resolves cats parent path last →
  ∀ cur, linked cats parent cur →
  ∃ cur', linked cats last cur' ∧
    ∀ fuel acc,
      walkUp (length path + fuel) (categoryMap cats) cur' acc =
      walkUp fuel (categoryMap cats) cur (path ++ acc).
Proof.
  induction 1 as [parent|parent s rest c last Hc _ IH]; intros cur Hcur.
  - by exists cur.
  - apply firstChild_elem_of in Hc as (Hin & Hpar & Hs).
    destruct (IH (Some c)) as (cur' & Hlast & Hwalk); [done|].
    exists cur'. split; [done|]. intros fuel acc.
    replace (length (s :: rest) + fuel)%nat
      with (length rest + S fuel)%nat by (simpl; lia).
    rewrite Hwalk. simpl.
    by rewrite (parentOf_linked c parent cur Hin Hpar Hcur), Hs.
Qed.
End RoundTrip.

(** C2, as amended: when the ids are unique and none is the empty string, the
    href that [buildHref] builds for the category to which [getTopicMetadata]
    resolves a slug path is ["/topics/"] followed by the segments of that
    path joined by ["/"]; the walk takes one iteration per segment.  (Neither
    acyclicity nor the uniqueness of sibling slugs is needed.) *)
Theorem buildHref_getTopicMetadata cats path c fuel :
  uniqueIds cats → nonEmptyIds cats →
  getTopicMetadata cats path = Value (Some c) →
  (length path ≤ fuel)%nat →
  buildHref fuel c (categoryMap cats) = Some ("/topics/" +:+ join "/" path).
Proof.
  intros Hunique Hnonempty Hmeta Hfuel.
  unfold getTopicMetadata, findTopicBySlugPath in Hmeta.
  destruct (indexCategories_init cats) as (ix & Hix & Hid & Hch).
  rewrite Hix in Hmeta; simpl in Hmeta.
  destruct (descend _ _ _) as [last|] eqn:Hd; [|done].
  destruct (truthy last) as [p|] eqn:Hp; [|done].
  apply truthy_Some in Hp as [-> Hp].
  apply (descend_Some cats _ Hch) in Hd.
  destruct (resolves_walkUp cats Hunique Hnonempty _ _ _ Hd None)
    as (cur' & Hlast & Hwalk); [done|].
  destruct cur' as [c'|]; [|done]. destruct Hlast as [Hc' [= ->]].
  rewrite Hid, (categoryMap_lookup_NoDup cats c' Hunique Hc') in Hmeta.
  assert (c' = c) as -> by congruence.
  unfold buildHref.
  replace fuel with (length path + (fuel - length path))%nat by lia.
  rewrite Hwalk. destruct (fuel - length path)%nat; simpl;
    by rewrite app_nil_r.
Qed.

Lemma buildHref_getTopicMetadata_witness :
  buildHref 2 (child "s" "Speech" "speech-recognition" "f" 1)
    (categoryMap smallTaxonomy) =
  Some "/topics/foundations/speech-recognition".
Proof.
  apply (buildHref_getTopicMetadata smallTaxonomy
           ["foundations"; "speech-recognition"]).
  - unfold uniqueIds. by apply (bool_decide_unpack _); vm_compute.
  - unfold nonEmptyIds. by apply (bool_decide_unpack _); vm_compute.
  - by vm_compute.
  - simpl; lia.
Defined.

(** C2, as stated, fails when a category has the empty string as its id:
    the taxonomy below is acyclic with unique ids and unique sibling slugs,
    the path [a/b] resolves to the child, and [buildHref] stops at the child
    because its parent id is falsy. *)
Lemma buildHref_getTopicMetadata_empty_id :
  acyclic (categoryMap emptyIdTaxonomy) ∧
  siblingSlugsUnique emptyIdTaxonomy ∧
  uniqueIds emptyIdTaxonomy ∧
  getTopicMetadata emptyIdTaxonomy ["a"; "b"] =
    Value (Some (child "b" "B" "b" "" 1)) ∧
  ∀ fuel,
    buildHref fuel (child "b" "B" "b" "" 1) (categoryMap emptyIdTaxonomy) ≠
    Some ("/topics/" +:+ join "/" ["a"; "b"]).
Proof.
  split; [by apply acyclicb_sound; vm_compute|].
  split; [by apply (bool_decide_unpack _); vm_compute|].
  split; [by apply (bool_decide_unpack _); vm_compute|].
  split; [by vm_compute|].
  intros [|[|fuel]]; by vm_compute.
Qed.

(** ** Termination of the walks *)

Lemma topOf_cons c p l : topOf c (p :: l) = topOf p l.
Proof. unfold topOf. by destruct l as [|x l] using rev_ind;
  [|rewrite app_comm_cons, !last_snoc]. Qed.

Lemma topOf_app c l1 a l2 : topOf c (l1 ++ a :: l2) = topOf a l2.
Proof.
  revert c. induction l1 as [|x l1 IH]; intros c; simpl.
  - apply topOf_cons.
  - by rewrite topOf_cons.
Qed.

(** The graph that the walks follow is part of the parent graph of the
    data, and all of it when no id is the empty string. *)
Lemma parentOf_treeParent m c p :
  parentOf m c = Some p → treeParent m c = Some p.
Proof.
  unfold parentOf, treeParent.
  destruct (parentId c) as [[|x k]|]; simpl; done.
Qed.

Lemma ancestor_dataAncestor m c a : ancestor m c a → dataAncestor m c a.
Proof.
  induction 1 as [x y Hxy|x y z Hxy _ IH].
  - apply tc_once. by apply parentOf_treeParent.
  - eapply tc_l; [|exact IH]. by apply parentOf_treeParent.
Qed.

Lemma dataAcyclic_acyclic m : dataAcyclic m → acyclic m.
Proof. intros Hdata c Hc. apply (Hdata c). by apply ancestor_dataAncestor. Qed.

Lemma treeParent_parentOf cats c :
  nonEmptyIds cats →
  treeParent (categoryMap cats) c = parentOf (categoryMap cats) c.
Proof.
  intros Hne. unfold parentOf, treeParent.
  destruct (parentId c) as [[|x k]|]; simpl; try done.
  destruct (categoryMap cats !! "") as [a|] eqn:Ha; [|done].
  apply categoryMap_lookup_Some in Ha as [Hin Hid].
  by destruct (proj1 (Forall_forall _ _) Hne a Hin).
Qed.

Lemma dataAncestor_ancestor cats c a :
  nonEmptyIds cats →
  dataAncestor (categoryMap cats) c a → ancestor (categoryMap cats) c a.
Proof.
  intros Hne. induction 1 as [x y Hxy|x y z Hxy _ IH];
    unfold dataParent_rel in Hxy; rewrite treeParent_parentOf in Hxy by done.
  - by apply tc_once.
  - by eapply tc_l.
Qed.

Lemma acyclic_dataAcyclic cats :
  nonEmptyIds cats → acyclic (categoryMap cats) →
  dataAcyclic (categoryMap cats).
Proof. intros Hne Hacyc c Hc. apply (Hacyc c). by apply dataAncestor_ancestor. Qed.

(** A graph whose edges go down along a measure has no cycle. *)
Lemma ranked_acyclic (R : relation Category) (rank : Category → nat) :
  (∀ c p, R c p → (rank p < rank c)%nat) → ∀ c, ¬ tc R c c.
Proof.
  intros Hrank.
  assert (∀ c d, tc R c d → (rank d < rank c)%nat) as Hlt.
  { induction 1 as [x y Hxy|x y z Hxy _ IH].
    - by apply Hrank.
    - apply Hrank in Hxy. lia. }
  intros c Hc%Hlt. lia.
Qed.

Lemma ancestorsOf_chain m c :
  acyclic m → chain (parentOf m) c (ancestorsOf m c).
Proof.
  intros Hacyc. unfold ancestorsOf. apply climb_chain.
  pose proof (climb_bounded m (S (size m)) c Hacyc). lia.
Qed.

(** The walk to the root, iteration by iteration: it assigns the truthy
    parent ids of the chain to [rootId], one per iteration, and returns the
    last one. *)
Lemma rootWalk_exact m c l fuel rootId :
  chain (parentOf m) c l →
  rootWalk fuel m (Some c) rootId =
    if decide (length (rootIds c l) ≤ fuel)%nat
    then Some (default rootId (last (rootIds c l)))
    else None.
Proof.
  intros Hl. revert fuel rootId.
  induction Hl as [c Hc|c p l Hp _ IH]; intros fuel rootId.
  - unfold parentOf in Hc. unfold rootIds. cbn [omap list_omap].
    destruct (truthy (parentId c)) as [k|] eqn:Hk.
    + destruct fuel as [|fuel]; simpl; rewrite Hk; [done|].
      rewrite Hc. by destruct fuel.
    + destruct fuel; simpl; by rewrite Hk.
  - unfold parentOf in Hp.
    assert (rootIds c (p :: l) =
            default [] ((fun k => [k]) <$> truthy (parentId c))
              ++ rootIds p l) as Hids.
    { unfold rootIds. cbn [omap list_omap].
      by destruct (truthy (parentId c)). }
    destruct (truthy (parentId c)) as [k|] eqn:Hk; [|done].
    rewrite Hids. cbn [fmap option_fmap option_map default app].
    destruct fuel as [|fuel]; simpl; rewrite Hk; [done|].
    rewrite Hp, IH. cbn [length].
    assert (default rootId (last (k :: rootIds p l)) =
            default k (last (rootIds p l))) as ->.
    { rewrite last_cons. by destruct (last (rootIds p l)). }
    repeat case_decide; try lia; done.
Qed.

Lemma rootIds_length m c l :
  chain (parentOf m) c l →
  length (rootIds c l) =
    (length l +
     if truthy (parentId (topOf c l)) is Some _ then 1 else 0)%nat.
Proof.
  induction 1 as [c Hc|c p l Hp _ IH].
  - unfold rootIds, topOf. simpl. by destruct (truthy (parentId c)).
  - rewrite topOf_cons. unfold parentOf in Hp.
    unfold rootIds in *. cbn [omap list_omap] in *.
    destruct (truthy (parentId c)); [|done].
    cbn [length]. by rewrite IH.
Qed.

Lemma mapM_exact {A B} (f : A → option B) (g : A → B) (P : A → Prop)
    `{!∀ x, Decision (P x)} (l : list A) :
  (∀ x, f x = if decide (P x) then Some (g x) else None) →
  mapM f l = if decide (Forall P l) then Some (g <$> l) else None.
Proof.
  intros Hf. induction l as [|x l IH]; [done|].
  cbn [mapM]. rewrite Hf, IH.
  destruct (decide (P x)) as [Hx|Hx]; simpl.
  - destruct (decide (Forall P l)) as [Hl|Hl]; simpl.
    + by rewrite decide_True by by constructor.
    + rewrite decide_False; [done|]. by inversion 1.
  - rewrite decide_False; [done|]. by inversion 1.
Qed.

(** C5: in a parent graph without cycles every walk up the parent chain
    terminates.  The walks follow a [parentId] only when it is truthy and
    the id of a category; the ancestors that they reach, [ancestorsOf], are
    ancestors in the parent graph of the data, each once, and all of them
    when no id is the empty string.  The loop of [buildHref] and
    [getAllTopicSlugs] runs its body once for the start and once for each
    of them: it returns exactly when the fuel exceeds their number, with one
    segment for the start and one for each.  The walk to the root of the
    search page runs its body once for each value it gives to [rootId] —
    one for each ancestor reached, and one more when the top of the chain
    names a parent that is not in the map — and returns the last of them.
    [getAllTopicSlugs] returns exactly when the fuel exceeds the number of
    ancestors of every category, with the path of each. *)
Theorem parent_walk_terminates cats c :
  let m := categoryMap cats in
  dataAcyclic m →
  let ancestors := ancestorsOf m c in
  NoDup ancestors ∧
  (∀ a, a ∈ ancestors → dataAncestor m c a) ∧
  (nonEmptyIds cats → ∀ a, dataAncestor m c a → a ∈ ancestors) ∧
  (length ancestors ≤ length cats)%nat ∧
  (∀ fuel acc,
     walkUp fuel m (Some c) acc =
       if decide (length ancestors < fuel)%nat
       then Some (rev (slug <$> ancestors) ++ slug c :: acc)
       else None) ∧
  (∀ fuel,
     buildHref fuel c m =
       if decide (length ancestors < fuel)%nat
       then Some ("/topics/" +:+
                  join "/" (rev (slug <$> ancestors) ++ [slug c]))
       else None) ∧
  (∀ fuel rootId,
     rootWalk fuel m (Some c) rootId =
       if decide (length (rootIds c ancestors) ≤ fuel)%nat
       then Some (default rootId (last (rootIds c ancestors)))
       else None) ∧
  length (rootIds c ancestors) =
    (length ancestors +
     if truthy (parentId (topOf c ancestors)) is Some _ then 1 else 0)%nat ∧
  (∀ fuel,
     getAllTopicSlugs fuel cats =
       if decide (Forall (fun x => length (ancestorsOf m x) < fuel)%nat cats)
       then Some ((fun x => rev (slug <$> ancestorsOf m x) ++ [slug x])
                    <$> cats)
       else None).
Proof.
  intros m Hdata ancestors.
  pose proof (dataAcyclic_acyclic m Hdata) as Hacyc.
  pose proof (ancestorsOf_chain m c Hacyc) as Hl. fold ancestors in Hl.
  split; [by eapply chain_NoDup|].
  split.
  { intros a Ha. apply ancestor_dataAncestor. by eapply chain_ancestor. }
  split.
  { intros Hne a Ha%dataAncestor_ancestor; [|done].
    by eapply ancestor_chain. }
  split.
  { pose proof (climb_bounded m (S (size m)) c Hacyc) as Hlen.
    pose proof (categoryMap_size cats). unfold ancestors, ancestorsOf.
    subst m. lia. }
  split; [intros; by apply walkUp_chain|].
  split.
  { intros fuel. unfold buildHref. rewrite (walkUp_chain m c ancestors) by done.
    by case_decide. }
  split; [intros; by apply rootWalk_exact|].
  split; [by eapply rootIds_length|].
  intros fuel. unfold getAllTopicSlugs. fold m.
  apply (mapM_exact _ (fun x => rev (slug <$> ancestorsOf m x) ++ [slug x])
           (fun x => (length (ancestorsOf m x) < fuel)%nat)).
  intros x. apply walkUp_chain. by apply ancestorsOf_chain.
Qed.

Lemma parent_walk_terminates_witness :
  buildHref 2 (child "s" "Speech" "speech-recognition" "f" 1)
    (categoryMap smallTaxonomy) =
    Some "/topics/foundations/speech-recognition" ∧
  buildHref 1 (child "s" "Speech" "speech-recognition" "f" 1)
    (categoryMap smallTaxonomy) = None ∧
  rootWalk 1 (categoryMap smallTaxonomy)
    (Some (child "s" "Speech" "speech-recognition" "f" 1)) "s" = Some "f".
Proof.
  destruct (parent_walk_terminates smallTaxonomy
              (child "s" "Speech" "speech-recognition" "f" 1))
    as (_ & _ & _ & _ & _ & Hhref & Hroot & _).
  { apply acyclic_dataAcyclic; [unfold nonEmptyIds; by repeat constructor|].
    by apply acyclicb_sound; vm_compute. }
  split; [|split].
  - rewrite (Hhref 2%nat). by vm_compute.
  - rewrite (Hhref 1%nat). by vm_compute.
  - rewrite (Hroot 1%nat "s"). by vm_compute.
Defined.

(** The specification counts the ancestors in the parent graph of the data.
    In a taxonomy without cycles whose root has the empty string for id, the
    child has that root for its one ancestor, yet the walk from the child
    takes its [parentId] for absent: the loop body runs once, for the child
    itself, and the path has one segment. *)
Lemma parent_walk_terminates_empty_id :
  let m := categoryMap emptyIdTaxonomy in
  let a := root "" "A" "a" 1 in
  let b := child "b" "B" "b" "" 1 in
  dataAcyclic m ∧
  (∀ x, dataAncestor m b x ↔ x = a) ∧
  ancestorsOf m b = [] ∧
  walkUp 1 m (Some b) [] = Some ["b"] ∧
  buildHref 1 b m = Some "/topics/b" ∧
  rootWalk 0 m (Some b) "b" = Some "b".
Proof.
  intros m a b.
  assert (∀ c p, dataParent_rel m c p →
            parentId c = Some "" ∧ p = a ∨ parentId c = Some "b" ∧ p = b)
    as Hedge.
  { intros c p. unfold dataParent_rel, treeParent.
    destruct (parentId c) as [k|]; [|done]. intros Hp.
    apply categoryMap_lookup_Some in Hp as [Hin <-].
    apply elem_of_cons in Hin as [->|Hin]; [by left|].
    apply list_elem_of_singleton in Hin as ->. by right. }
  split.
  { unfold dataAcyclic, dataAncestor.
    apply (ranked_acyclic (dataParent_rel m)
             (fun c => match parentId c with
                       | Some "" => 1
                       | Some _ => 2
                       | None => 0
                       end)%nat).
    intros c p [[-> ->]|[-> ->]]%Hedge; simpl; lia. }
  split; [|by vm_compute].
  intros x. split.
  - intros Hx. inversion Hx as [? ? Hbx|? y ? Hby Hyx]; subst.
    + by destruct (Hedge _ _ Hbx) as [[_ ->]|[[=] _]].
    + destruct (Hedge _ _ Hby) as [[_ ->]|[[=] _]].
      inversion Hyx as [? ? Hax|? z ? Haz _]; subst.
      * by destruct (Hedge _ _ Hax) as [[[=] _]|[[=] _]].
      * by destruct (Hedge _ _ Haz) as [[[=] _]|[[=] _]].
  - intros ->. apply tc_once. by vm_compute.
Qed.

(** ** Sorting *)

Section Sorting.
Context {A : Type} (compare : A → A → Z).

Lemma insertBy_perm x l : insertBy compare x l ≡ₚ x :: l.
Proof.
  induction l as [|y l IH]; simpl; [done|].
  case_decide; [done|]. by rewrite IH, Permutation_swap.
Qed.

Lemma sortBy_perm l : sortBy compare l ≡ₚ l.
Proof.
  induction l as [|x l IH]; simpl; [done|].
  by rewrite insertBy_perm, IH.
Qed.

Lemma elem_of_sortBy x l : x ∈ sortBy compare l ↔ x ∈ l.
Proof. by rewrite sortBy_perm. Qed.

(** Stability: the elements of a class whose members are pairwise tied
    (or already in order) keep their relative order. *)
Lemma insertBy_filter (P : A → Prop) `{!∀ x, Decision (P x)} x l :
  (∀ y, P x → P y → leBy compare x y) →
  filter P (insertBy compare x l) = filter P (x :: l).
Proof.
  intros Htie. induction l as [|y l IH]; simpl; [done|].
  case_decide as Hxy; [done|].
  rewrite filter_cons, IH, !filter_cons.
  destruct (decide (P y)) as [Hy|Hy]; [|done].
  destruct (decide (P x)) as [Hx|Hx]; [|done].
  by destruct Hxy; apply Htie.
Qed.

Lemma sortBy_filter (P : A → Prop) `{!∀ x, Decision (P x)} l :
  (∀ x y, P x → P y → leBy compare x y) →
  filter P (sortBy compare l) = filter P l.
Proof.
  intros Htie. induction l as [|x l IH]; simpl; [done|].
  rewrite insertBy_filter by auto. by rewrite !filter_cons, IH.
Qed.

Context `{!Consistent compare}.

Lemma insertBy_sorted x l :
  StronglySorted (leBy compare) l →
  StronglySorted (leBy compare) (insertBy compare x l).
Proof.
  induction 1 as [|y l Hl IH Hy]; simpl; [by repeat constructor|].
  case_decide as Hxy.
  - constructor; [by constructor|]. constructor; [done|].
    eapply Forall_impl; [exact Hy|]. intros z Hz.
    by eapply consistent_trans.
  - constructor; [done|].
    rewrite (Forall_forall (leBy compare y)). intros z Hz.
    apply (elem_of_Permutation_proper _ _ _ (insertBy_perm x l)) in Hz.
    apply elem_of_cons in Hz as [->|Hz].
    + by destruct (consistent_total x y).
    + by eapply (proj1 (Forall_forall _ _) Hy).
Qed.

Lemma sortBy_sorted l : StronglySorted (leBy compare) (sortBy compare l).
Proof.
  induction l as [|x l IH]; simpl; [constructor|].
  by apply insertBy_sorted.
Qed.

Lemma insertBy_sorted_id x l :
  Forall (leBy compare x) l → insertBy compare x l = x :: l.
Proof.
  destruct 1 as [|y l Hy _]; simpl; [done|]. by rewrite decide_True.
Qed.

(** Sorting a sorted list changes nothing: in-place sorting of a bucket
    that was sorted before is harmless. *)
Lemma sortBy_sorted_id l :
  StronglySorted (leBy compare) l → sortBy compare l = l.
Proof.
  induction 1 as [|x l Hl IH Hx]; simpl; [done|].
  rewrite IH. by apply insertBy_sorted_id.
Qed.

Lemma sortBy_idemp l :
  sortBy compare (sortBy compare l) = sortBy compare l.
Proof. apply sortBy_sorted_id, sortBy_sorted. Qed.
End Sorting.

Section SortUnique.
Context {A : Type} (compare : A → A → Z) `{!Consistent compare}.

Lemma leBy_refl x : leBy compare x x.
Proof. by destruct (consistent_total x x). Qed.

Lemma sorted_head_least x t y :
  StronglySorted (leBy compare) (x :: t) → y ∈ x :: t → leBy compare x y.
Proof.
  intros Hs [->|Hy]%elem_of_cons; [apply leBy_refl|].
  apply StronglySorted_inv in Hs as [_ Hx].
  by apply (proj1 (Forall_forall _ _) Hx).
Qed.

(** Two sorted rearrangements of one list that keep the tied elements in
    the same order are equal. *)
Lemma stable_sorted_unique l1 l2 :
  l1 ≡ₚ l2 →
  StronglySorted (leBy compare) l1 → StronglySorted (leBy compare) l2 →
  (∀ x, filter (tieBy compare x) l1 = filter (tieBy compare x) l2) →
  l1 = l2.
Proof.
  revert l2; induction l1 as [|x1 t1 IH]; intros l2 Hperm Hs1 Hs2 Htie.
  - by apply Permutation_nil_l in Hperm.
  - destruct l2 as [|x2 t2]; [by apply Permutation_nil_r in Hperm|].
    assert (tieBy compare x1 x2) as Hx.
    { split.
      - apply (sorted_head_least x1 t1); [done|]. rewrite Hperm. left.
      - apply (sorted_head_least x2 t2); [done|]. rewrite <-Hperm. left. }
    assert (x1 = x2) as <-.
    { pose proof (Htie x1) as H1. rewrite !filter_cons in H1.
      rewrite decide_True in H1 by (split; apply leBy_refl).
      rewrite decide_True in H1 by done. congruence. }
    f_equal. apply IH.
    + by apply Permutation_cons_inv in Hperm.
    + by apply StronglySorted_inv in Hs1 as [? _].
    + by apply StronglySorted_inv in Hs2 as [? _].
    + intros y. pose proof (Htie y) as Hy. rewrite !filter_cons in Hy.
      destruct (decide (tieBy compare y x1)); congruence.
Qed.

(** The list that [Array.prototype.sort] must return is the one that
    insertion computes. *)
Lemma sortBy_unique l l' :
  l' ≡ₚ l → StronglySorted (leBy compare) l' →
  (∀ x, filter (tieBy compare x) l' = filter (tieBy compare x) l) →
  l' = sortBy compare l.
Proof.
  intros Hperm Hsorted Hstable. apply stable_sorted_unique.
  - by rewrite sortBy_perm.
  - done.
  - apply sortBy_sorted. done.
  - intros x. rewrite Hstable. symmetry. apply sortBy_filter.
    intros a b [Hxa Hax] [Hxb Hbx]. by eapply consistent_trans.
Qed.
End SortUnique.

Lemma StronglySorted_weaken {A} (R R' : A → A → Prop) l :
  (∀ x y, R x y → R' x y) → StronglySorted R l → StronglySorted R' l.
Proof.
  intros HR. induction 1 as [|x l _ IH Hx]; constructor; [done|].
  eapply Forall_impl; [exact Hx|]. auto.
Qed.

#[global] Instance byOrder_consistent : Consistent byOrder.
Proof. split; unfold leBy, byOrder; intros; lia. Qed.

(** ** The navigation tree *)

Section BuildTree.
Context (cats : list Category).
Context (ch : gmap (option string) (list Category)).
Hypothesis Hch : ∀ k, default [] (ch !! k) = childrenOf cats k.

Lemma buildTree_Some fuel parent base items :
  buildTree (S fuel) ch parent base = Some items ↔
  Forall2 (fun c item =>
             ∃ kids,
               buildTree fuel ch (Some (id c)) (childPath base c) = Some kids ∧
               item = mkNavItem (title c) (childPath base c) kids)
          (sortBy byOrder (childrenOf cats parent)) items.
Proof.
  simpl. rewrite Hch, mapM_Some.
  split; intros H; (eapply Forall2_impl; [exact H|]); intros c item;
    unfold childPath; rewrite bind_Some.
  - intros (kids & Hkids & [= <-]). by exists kids.
  - intros (kids & Hkids & ->). by exists kids.
Qed.

Lemma sorted_children parent :
  let sorted := sortBy byOrder (childrenOf cats parent) in
  sorted ≡ₚ childrenOf cats parent ∧
  StronglySorted (fun a b => order a ≤ order b) sorted ∧
  ∀ o, filter (fun c => order c = o) sorted =
       filter (fun c => order c = o) (childrenOf cats parent).
Proof.
  split; [apply sortBy_perm|]. split.
  - eapply StronglySorted_weaken; [|apply (sortBy_sorted byOrder)].
    unfold leBy, byOrder. intros; lia.
  - intros o. apply sortBy_filter. unfold leBy, byOrder. intros; lia.
Qed.

Lemma buildTree_navLevel fuel parent base items :
  buildTree fuel ch parent base = Some items →
  navLevel cats parent base items.
Proof.
  revert parent base items.
  induction fuel as [|fuel IH]; intros parent base items; [done|].
  rewrite buildTree_Some. intros Hitems.
  destruct (sorted_children parent) as (Hperm & Hsorted & Hstable).
  econstructor; [exact Hperm | exact Hsorted | exact Hstable |].
  eapply Forall2_impl; [exact Hitems|].
  intros c item (kids & Hkids & ->). simpl. eauto.
Qed.

Lemma buildTree_is_Some fuel parent base :
  (∀ c, c ∈ childrenOf cats parent →
        is_Some (buildTree fuel ch (Some (id c)) (childPath base c))) →
  is_Some (buildTree (S fuel) ch parent base).
Proof.
  intros Hkids.
  assert (∃ items,
    Forall2 (fun c item =>
               ∃ kids,
                 buildTree fuel ch (Some (id c)) (childPath base c)
                   = Some kids ∧
                 item = mkNavItem (title c) (childPath base c) kids)
            (sortBy byOrder (childrenOf cats parent)) items)
    as [items Hitems].
  { apply Forall_exists_Forall2_l, Forall_forall.
    intros c Hc%elem_of_sortBy. destruct (Hkids c Hc) as [kids Hk]. eauto. }
  exists items. by apply buildTree_Some.
Qed.

Lemma treeParent_chain_elem_of c l :
  chain (treeParent (categoryMap cats)) c l → Forall (.∈ cats) l.
Proof.
  induction 1 as [c Hc|c p l Hp _ IH]; constructor; [|done].
  unfold treeParent in Hp. destruct (parentId c); [|done].
  by apply categoryMap_lookup_Some in Hp as [? _].
Qed.

(** With unique ids the tree below a category is no deeper than the number
    of categories allows: the fuel and the depth of the category add up. *)
Lemma buildTree_total_below fuel c l base :
  uniqueIds cats → c ∈ cats →
  chain (treeParent (categoryMap cats)) c l →
  (length cats < fuel + S (length l))%nat →
  is_Some (buildTree fuel ch (Some (id c)) base).
Proof.
  intros Hunique. revert c l base.
  induction fuel as [|fuel IH]; intros c l base Hc Hl Hlen.
  - exfalso. pose proof (chain_finite_NoDup _ _ _ Hl) as Hnd.
    assert (length (c :: l) ≤ length cats)%nat; [|simpl in *; lia].
    apply submseteq_length, NoDup_submseteq; [done|].
    intros x [->|Hx]%elem_of_cons; [done|].
    by eapply (proj1 (Forall_forall _ _) (treeParent_chain_elem_of _ _ Hl)).
  - apply buildTree_is_Some. intros c' [Hin Hpar]%elem_of_childrenOf.
    apply (IH c' (c :: l)); [done| |simpl in *; lia].
    apply chain_step; [|done]. unfold treeParent. rewrite Hpar.
    by apply categoryMap_lookup_NoDup.
Qed.

Lemma buildTree_total base :
  uniqueIds cats →
  is_Some (buildTree (S (length cats)) ch None base).
Proof.
  intros Hunique. apply buildTree_is_Some.
  intros c [Hin Hpar]%elem_of_childrenOf.
  apply (buildTree_total_below _ c []); [done|done| |simpl; lia].
  apply chain_root. unfold treeParent. by rewrite Hpar.
Qed.
End BuildTree.

Lemma getNavigationTree_unfold fuel cats :
  ∃ ix, (∀ k, default [] (childrenMap ix !! k) = childrenOf cats k) ∧
    getNavigationTree fuel cats =
      fueled (buildTree fuel (childrenMap ix) None "/topics").
Proof.
  destruct (indexCategories_init cats) as (ix & Hix & _ & Hch).
  exists ix. split; [done|]. unfold getNavigationTree. by rewrite Hix.
Qed.

(** C6: at every level of the tree that [getNavigationTree] returns, the
    children of a node are its categories sorted by ascending [order], those
    of equal [order] in the order of the input list; the function returns for
    every taxonomy with unique ids; and [b] (order 1) comes before [a]
    (order 2) under their common parent, the tie of [b] and [c] being kept in
    input order. *)
Theorem getNavigationTree_sorted cats :
  (∀ fuel tree,
     getNavigationTree fuel cats = Value tree →
     navLevel cats None "/topics" tree) ∧
  (uniqueIds cats →
   ∃ tree, getNavigationTree (S (length cats)) cats = Value tree) ∧
  getNavigationTree 3 siblingTaxonomy =
    Value [ mkNavItem "P" "/topics/p"
              [ mkNavItem "B" "/topics/p/b" [];
                mkNavItem "C" "/topics/p/c" [];
                mkNavItem "A" "/topics/p/a" [] ] ].
Proof.
  split; [|split].
  - intros fuel tree.
    destruct (getNavigationTree_unfold fuel cats) as (ix & Hch & ->).
    destruct (buildTree _ _ _ _) as [items|] eqn:Hitems; [|done].
    intros [= <-]. by eapply buildTree_navLevel.
  - intros Hunique.
    destruct (getNavigationTree_unfold (S (length cats)) cats)
      as (ix & Hch & ->).
    destruct (buildTree_total cats _ Hch "/topics" Hunique) as [tree ->].
    by exists tree.
  - by vm_compute.
Qed.

Lemma getNavigationTree_sorted_witness :
  ∃ tree,
    getNavigationTree (S (length smallTaxonomy)) smallTaxonomy = Value tree ∧
    navLevel smallTaxonomy None "/topics" tree.
Proof.
  destruct (getNavigationTree_sorted smallTaxonomy) as (Hlevel & Htotal & _).
  destruct Htotal as [tree Htree].
  { unfold uniqueIds. by apply (bool_decide_unpack _); vm_compute. }
  exists tree. split; [done|]. by eapply Hlevel.
Defined.

(** ** Strings of paths *)

Lemma string_app_cons x (a b : string) : String x a +:+ b = String x (a +:+ b).
Proof. done. Qed.

Lemma string_app_nil_l (b : string) : "" +:+ b = b.
Proof. done. Qed.

Lemma string_app_assoc (a b c : string) : (a +:+ b) +:+ c = a +:+ (b +:+ c).
Proof.
  induction a as [|x a IH]; [done|]. rewrite !string_app_cons. by f_equal.
Qed.

Lemma string_app_nil_r (a : string) : a +:+ "" = a.
Proof.
  induction a as [|x a IH]; [done|]. rewrite string_app_cons. by f_equal.
Qed.

Lemma slashes_app p q : slashes (p ++ q) = slashes p +:+ slashes q.
Proof.
  induction p as [|s p IH]; simpl; [done|].
  by rewrite IH, !string_app_assoc.
Qed.

Lemma slashes_join path : path ≠ [] → slashes path = "/" +:+ join "/" path.
Proof.
  induction path as [|s [|s' rest] IH]; intros Hne; [done| |].
  - simpl. by rewrite string_app_nil_r.
  - change (slashes (s :: s' :: rest))
      with ("/" +:+ s +:+ slashes (s' :: rest)).
    by rewrite IH.
Qed.

Lemma topics_slashes path :
  path ≠ [] → "/topics" +:+ slashes path = "/topics/" +:+ join "/" path.
Proof. intros Hne. by rewrite slashes_join. Qed.

(** ** Top-down and bottom-up hrefs *)

Section TreeHref.
Context (cats : list Category).
Context (ch : gmap (option string) (list Category)).
Hypothesis Hch : ∀ k, default [] (ch !! k) = childrenOf cats k.
Hypothesis Hunique : uniqueIds cats.
Hypothesis Hnonempty : nonEmptyIds cats.

Lemma inTree_walkUp parent items c item :
  inTree cats parent items c item →
  ∀ fuel base path cur,
    buildTree fuel ch parent base = Some items →
    linked cats parent cur →
    base = "/topics" +:+ slashes path →
    (∀ k acc,
       walkUp (length path + k) (categoryMap cats) cur acc
         = Some (path ++ acc)) →
    ∃ path',
      path' ≠ [] ∧
      (length path' ≤ length path + fuel)%nat ∧
      nav_href item = "/topics" +:+ slashes path' ∧
      ∀ k acc,
        walkUp (length path' + k) (categoryMap cats) (Some c) acc
          = Some (path' ++ acc).
Proof.
  induction 1 as [parent items i c item Hc Hitem
                 |parent items i c' item' c item Hc' Hitem' _ IH];
    intros [|fuel] base path cur Hbuild Hcur Hbase Hwalk; try done;
    apply buildTree_Some with (cats := cats) in Hbuild; try done.
  - destruct (Forall2_lookup_lr _ _ _ _ _ _ Hbuild Hc Hitem)
      as (kids & _ & ->).
    assert (c ∈ cats ∧ parentId c = parent) as [Hin Hpar].
    { apply elem_of_childrenOf, (elem_of_sortBy byOrder).
      by eapply list_elem_of_lookup_2. }
    exists (path ++ [slug c]). split; [by destruct path|].
    split; [rewrite length_app; simpl; lia|]. split.
    + simpl. unfold childPath.
      by rewrite Hbase, slashes_app, string_app_assoc; simpl;
        rewrite string_app_nil_r.
    + intros k acc. rewrite length_app. simpl.
      replace (length path + 1 + k)%nat with (S (length path + k)) by lia.
      simpl. rewrite (parentOf_linked cats Hunique Hnonempty c parent cur)
        by done.
      by rewrite Hwalk, <-app_assoc.
  - destruct (Forall2_lookup_lr _ _ _ _ _ _ Hbuild Hc' Hitem')
      as (kids & Hkids & ->).
    assert (c' ∈ cats ∧ parentId c' = parent) as [Hin Hpar].
    { apply elem_of_childrenOf, (elem_of_sortBy byOrder).
      by eapply list_elem_of_lookup_2. }
    destruct (IH fuel (childPath base c') (path ++ [slug c']) (Some c'))
      as (path' & Hne & Hlen & Hhref & Hwalk'); [done|done| | |].
    + unfold childPath.
      by rewrite Hbase, slashes_app, string_app_assoc; simpl;
        rewrite string_app_nil_r.
    + intros k acc. rewrite length_app. simpl.
      replace (length path + 1 + k)%nat with (S (length path + k)) by lia.
      simpl. rewrite (parentOf_linked cats Hunique Hnonempty c' parent cur)
        by done.
      by rewrite Hwalk, <-app_assoc.
    + exists path'. split; [done|]. split; [|done].
      rewrite length_app in Hlen. simpl in Hlen. lia.
Qed.
End TreeHref.

(** C7, as amended: when the ids are unique and none is the empty string, the
    href that [getNavigationTree] computes top-down for a node of the tree is
    the href that [buildHref] computes bottom-up for the category of that
    node. *)
Theorem navigation_href_buildHref cats fuel tree c item :
  uniqueIds cats → nonEmptyIds cats →
  getNavigationTree fuel cats = Value tree →
  inTree cats None tree c item →
  ∀ fuel', (fuel ≤ fuel')%nat →
    buildHref fuel' c (categoryMap cats) = Some (nav_href item).
Proof.
  intros Hunique Hnonempty Htree Hin fuel' Hfuel.
  destruct (getNavigationTree_unfold fuel cats) as (ix & Hch & Heq).
  rewrite Heq in Htree.
  destruct (buildTree _ _ _ _) as [items|] eqn:Hitems; [|done].
  injection Htree as ->.
  destruct (inTree_walkUp cats _ Hch Hunique Hnonempty None tree c item Hin
              fuel "/topics" [] None Hitems)
    as (path & Hne & Hlen & Hhref & Hwalk); [done|done| |].
  { intros k acc. by destruct k. }
  unfold buildHref.
  replace fuel' with (length path + (fuel' - length path))%nat
    by (simpl in Hlen; lia).
  rewrite Hwalk, Hhref, app_nil_r. simpl. f_equal.
  symmetry. by apply topics_slashes.
Qed.

Lemma navigation_href_buildHref_witness :
  buildHref 3 (child "s" "Speech" "speech-recognition" "f" 1)
    (categoryMap smallTaxonomy) =
  Some "/topics/foundations/speech-recognition".
Proof.
  apply (navigation_href_buildHref smallTaxonomy 3
           [ mkNavItem "Foundations" "/topics/foundations"
               [ mkNavItem "Speech" "/topics/foundations/speech-recognition" [] ];
             mkNavItem "Guides" "/topics/guides" [] ]
           (child "s" "Speech" "speech-recognition" "f" 1)
           (mkNavItem "Speech" "/topics/foundations/speech-recognition" [])).
  - unfold uniqueIds. by apply (bool_decide_unpack _); vm_compute.
  - unfold nonEmptyIds. by apply (bool_decide_unpack _); vm_compute.
  - by vm_compute.
  - eapply (inTree_below _ _ _ 0%nat); [by vm_compute|done|].
    eapply (inTree_here _ _ _ 0%nat); [by vm_compute|done].
  - lia.
Defined.

(** C7, as stated, fails when a category has the empty string as its id: the
    child below it is in the tree with the href [/topics/a/b], and
    [buildHref] returns [/topics/b] for it. *)
Lemma navigation_href_buildHref_empty_id :
  let b := child "b" "B" "b" "" 1 in
  let item := mkNavItem "B" "/topics/a/b" [] in
  let tree := [ mkNavItem "A" "/topics/a" [item] ] in
  getNavigationTree 3 emptyIdTaxonomy = Value tree ∧
  inTree emptyIdTaxonomy None tree b item ∧
  ∀ fuel, buildHref fuel b (categoryMap emptyIdTaxonomy) ≠ Some (nav_href item).
Proof.
  split; [by vm_compute|]. split.
  - eapply (inTree_below _ _ _ 0%nat); [by vm_compute|done|].
    eapply (inTree_here _ _ _ 0%nat); [by vm_compute|done].
  - intros [|[|fuel]]; by vm_compute.
Qed.

(** ** Dangling references *)

Lemma getAllTopicSlugs_total cats :
  acyclic (categoryMap cats) →
  is_Some (getAllTopicSlugs (S (length cats)) cats).
Proof.
  intros Hacyc. unfold getAllTopicSlugs.
  apply mapM_is_Some, Forall_forall. intros x _. unfold compose.
  destruct (acyclic_chain (categoryMap cats) x Hacyc) as (lx & Hlx & Hlenx).
  pose proof (categoryMap_size cats).
  rewrite (walkUp_chain _ x lx) by done. rewrite decide_True; [done|lia].
Qed.

Lemma getNavigationTree_total cats :
  uniqueIds cats →
  ∃ tree, getNavigationTree (S (length cats)) cats = Value tree.
Proof.
  intros Hunique.
  destruct (getNavigationTree_unfold (S (length cats)) cats)
    as (ix & Hch & ->).
  destruct (buildTree_total cats _ Hch "/topics" Hunique) as [tree ->].
  by exists tree.
Qed.

Lemma getNavigationTree_no_throw fuel cats :
  getNavigationTree fuel cats ≠ Throws.
Proof.
  destruct (getNavigationTree_unfold fuel cats) as (ix & _ & ->).
  by destruct (buildTree _ _ _ _).
Qed.

Lemma mapM_ext_in {A B} (f g : A → option B) (l : list A) :
  (∀ x, x ∈ l → f x = g x) → mapM f l = mapM g l.
Proof.
  induction l as [|x l IH]; intros Hfg; [done|].
  simpl. rewrite (Hfg x) by left. rewrite IH; [done|].
  intros y Hy. apply Hfg. by right.
Qed.

(** The tree does not depend on buckets that no id leads to. *)
Lemma buildTree_agree cats ch1 ch2 p fuel parent base :
  (∀ k, default [] (ch1 !! k) = childrenOf cats k) →
  (∀ k, k ≠ Some p → default [] (ch2 !! k) = childrenOf cats k) →
  (∀ x, x ∈ cats → id x ≠ p) →
  parent ≠ Some p →
  buildTree fuel ch1 parent base = buildTree fuel ch2 parent base.
Proof.
  intros H1 H2 Hp. revert parent base.
  induction fuel as [|fuel IH]; intros parent base Hparent; [done|].
  simpl. rewrite H1, H2 by done. apply mapM_ext_in.
  intros c [Hc _]%elem_of_sortBy%elem_of_childrenOf.
  rewrite IH; [done|]. intros [= Heq]. by apply (Hp c).
Qed.

Lemma childrenOf_remove cats c k :
  parentId c ≠ k →
  childrenOf (filter (fun x => x ≠ c) cats) k = childrenOf cats k.
Proof.
  intros Hk. unfold childrenOf.
  induction cats as [|x cats IH]; [done|].
  rewrite !filter_cons. destruct (decide (x ≠ c)) as [Hx|Hx].
  - rewrite filter_cons. by rewrite IH.
  - apply dec_stable in Hx. subst x. by rewrite decide_False, IH.
Qed.

Lemma dangling_parentOf cats c :
  dangling cats c → parentOf (categoryMap cats) c = None.
Proof.
  intros (p & Hpar & Hp). unfold parentOf. rewrite Hpar.
  destruct (truthy (Some p)) as [q|] eqn:Hq; [|done].
  apply truthy_Some in Hq as [[= <-] _].
  destruct (categoryMap cats !! p) as [x|] eqn:Hx; [|done].
  apply categoryMap_lookup_Some in Hx as [Hin Hid]. by destruct (Hp x Hin).
Qed.

Lemma reaches_chain m d c :
  parentOf m c = None → rtc (parent_rel m) d c →
  ∃ l segs,
    chain (parentOf m) d l ∧
    rev (slug <$> l) ++ [slug d] = slug c :: segs.
Proof.
  intros Hc. induction 1 as [|d y c Hdy _ IH].
  - exists [], []. split; [by apply chain_root|done].
  - destruct (IH Hc) as (l & segs & Hl & Hsegs).
    exists (y :: l), (segs ++ [slug d]). split; [by apply chain_step|].
    rewrite fmap_cons. simpl rev. by rewrite Hsegs.
Qed.

(** C4: a category whose [parentId] refers to a missing id does not make the
    functions fail.  The walk of [buildHref] and of [getAllTopicSlugs] stops
    at the unresolved reference after the orphan itself, so that the orphan
    is the root of its own path and of the path of every category below it.
    [getNavigationTree] never throws, its tree is the one of the taxonomy
    without the orphan (which it does not reach), and the functions return
    whenever the other invariants (acyclic graph, unique ids) give them
    enough fuel. *)
Theorem dangling_parent_is_root cats c :
  c ∈ cats → dangling cats c →
  (∀ fuel acc,
     walkUp (S fuel) (categoryMap cats) (Some c) acc = Some (slug c :: acc)) ∧
  (∀ fuel,
     buildHref (S fuel) c (categoryMap cats) = Some ("/topics/" +:+ slug c)) ∧
  (∀ d, rtc (parent_rel (categoryMap cats)) d c →
     ∃ segs n, ∀ fuel, (n ≤ fuel)%nat →
       buildHref fuel d (categoryMap cats) =
         Some ("/topics/" +:+ join "/" (slug c :: segs))) ∧
  (∀ fuel all i,
     getAllTopicSlugs (S fuel) cats = Some all →
     cats !! i = Some c → all !! i = Some [slug c]) ∧
  (acyclic (categoryMap cats) →
   is_Some (getAllTopicSlugs (S (length cats)) cats)) ∧
  (∀ fuel, getNavigationTree fuel cats ≠ Throws) ∧
  (∀ fuel,
     getNavigationTree fuel cats =
     getNavigationTree fuel (filter (fun x => x ≠ c) cats)) ∧
  (uniqueIds cats →
   ∃ tree, getNavigationTree (S (length cats)) cats = Value tree).
Proof.
  intros Hc Hdangling.
  pose proof (dangling_parentOf cats c Hdangling) as Hroot.
  assert (∀ fuel acc,
    walkUp (S fuel) (categoryMap cats) (Some c) acc = Some (slug c :: acc))
    as Hwalk.
  { intros fuel acc. simpl. rewrite Hroot. by destruct fuel. }
  split; [done|]. split; [|split; [|split; [|split; [|split; [|split]]]]].
  - intros fuel. unfold buildHref. by rewrite Hwalk.
  - intros d Hd.
    destruct (reaches_chain _ d c Hroot Hd) as (l & segs & Hl & Hsegs).
    exists segs, (S (length l)). intros fuel Hfuel. unfold buildHref.
    rewrite (walkUp_chain _ d l) by done.
    rewrite decide_True by lia. simpl. by rewrite Hsegs.
  - intros fuel all i Hall Hi. unfold getAllTopicSlugs in Hall.
    apply mapM_Some in Hall.
    destruct (Forall2_lookup_l _ _ _ _ _ Hall Hi) as (r & -> & Hr).
    by rewrite Hwalk in Hr.
  - apply getAllTopicSlugs_total.
  - intros fuel. apply getNavigationTree_no_throw.
  - intros fuel. destruct Hdangling as (p & Hpar & Hp).
    destruct (getNavigationTree_unfold fuel cats) as (ix1 & Hch1 & ->).
    destruct (getNavigationTree_unfold fuel (filter (fun x => x ≠ c) cats))
      as (ix2 & Hch2 & ->).
    f_equal. apply (buildTree_agree cats _ _ p); [done| |done|done].
    intros k Hk. rewrite Hch2. apply childrenOf_remove. congruence.
  - apply getNavigationTree_total.
Qed.

Lemma dangling_parent_is_root_witness :
  buildHref 1 (child "o" "Orphan" "orphan" "gone" 1)
    (categoryMap orphanTaxonomy) = Some "/topics/orphan" ∧
  getNavigationTree 2 orphanTaxonomy =
    Value [ mkNavItem "Foundations" "/topics/foundations" [] ] ∧
  getAllTopicSlugs 2 orphanTaxonomy =
    Some [ ["foundations"]; ["orphan"]; ["orphan"; "kid"] ].
Proof.
  destruct (dangling_parent_is_root orphanTaxonomy
              (child "o" "Orphan" "orphan" "gone" 1))
    as (_ & Hhref & _).
  - unfold orphanTaxonomy. right. left.
  - exists "gone". split; [done|]. intros x Hx.
    unfold orphanTaxonomy in Hx.
    repeat (apply elem_of_cons in Hx as [->|Hx]; [done|]).
    by apply elem_of_nil in Hx.
  - split; [apply Hhref|]. split; by vm_compute.
Defined.

(** ** Previous and next topic *)

Lemma findIndex_None {A} (p : A → bool) l :
  findIndex p l = None ↔ Forall (fun x => p x = false) l.
Proof.
  induction l as [|x l IH]; simpl; [by split|].
  destruct (p x) eqn:Hx.
  - split; [done|]. inversion 1; congruence.
  - rewrite fmap_None, IH. split; [by constructor | by inversion 1].
Qed.

Lemma findIndex_Some {A} (p : A → bool) l i :
  findIndex p l = Some i ↔ firstAt p l i.
Proof.
  revert i; induction l as [|x l IH]; intros i; simpl.
  - split; [done|]. by intros [(y & ? & _) _].
  - destruct (p x) eqn:Hx.
    + split.
      * intros [= <-]. split; [by exists x|]. intros; lia.
      * intros [_ Hfirst]. destruct i as [|i]; [done|].
        specialize (Hfirst 0%nat x). simpl in Hfirst.
        rewrite Hfirst in Hx; [done|lia|done].
    + rewrite fmap_Some. split.
      * intros (i' & Hi'%IH & ->). destruct Hi' as [(y & Hy & Hpy) Hfirst].
        split; [by exists y|]. intros [|j] z Hj Hz; simpl in Hz.
        -- by injection Hz as <-.
        -- apply (Hfirst j); [lia|done].
      * intros [(y & Hy & Hpy) Hfirst]. destruct i as [|i].
        -- simpl in Hy. injection Hy as ->. congruence.
        -- exists i. split; [|done]. apply IH. split; [by exists y|].
           intros j z Hj Hz. apply (Hfirst (S j)); [lia|done].
Qed.

Lemma getTopicMetadata_value cats s :
  ∃ meta, getTopicMetadata cats s = Value meta.
Proof.
  unfold getTopicMetadata, findTopicBySlugPath.
  destruct (indexCategories_init cats) as (ix & -> & _). simpl.
  destruct (descend _ _ _) as [parent|]; [|by eexists].
  destruct (truthy parent); by eexists.
Qed.

Lemma getTopicInfo_Some cats s meta :
  getTopicMetadata cats s = Value meta →
  getTopicInfo cats (Some s) = Value (infoOf meta s).
Proof. unfold getTopicInfo. intros ->. by destruct meta. Qed.

Lemma getTopicInfo_value cats o : ∃ r, getTopicInfo cats o = Value r.
Proof.
  destruct o as [s|]; [|by eexists].
  destruct (getTopicMetadata_value cats s) as [meta Hmeta].
  rewrite (getTopicInfo_Some _ _ _ Hmeta). by eexists.
Qed.

Section PrevNext.
Context (fuel : nat) (cats : list Category) (slugPath : list string).
Context (allSlugs : list (list string)).
Hypothesis Hall : getAllTopicSlugs fuel cats = Some allSlugs.

Lemma getPrevNextTopics_not_found :
  findIndex (fun s => bool_decide (join "/" s = join "/" slugPath))
    allSlugs = None →
  getPrevNextTopics fuel cats slugPath = Value (mkPrevNext None None).
Proof.
  intros Hidx. unfold getPrevNextTopics. rewrite Hall. simpl.
  by rewrite Hidx.
Qed.

Lemma getPrevNextTopics_found i :
  findIndex (fun s => bool_decide (join "/" s = join "/" slugPath))
    allSlugs = Some i →
  ∃ p n,
    getPrevNextTopics fuel cats slugPath = Value (mkPrevNext p n) ∧
    getTopicInfo cats
      (if decide (0 < i)%nat then allSlugs !! (i - 1)%nat else None)
      = Value p ∧
    getTopicInfo cats
      (if decide (i < length allSlugs - 1)%nat
       then allSlugs !! (i + 1)%nat else None)
      = Value n.
Proof.
  intros Hidx. unfold getPrevNextTopics. rewrite Hall. simpl.
  rewrite Hidx.
  destruct (getTopicInfo_value cats
    (if decide (0 < i)%nat then allSlugs !! (i - 1)%nat else None))
    as [p Hp].
  destruct (getTopicInfo_value cats
    (if decide (i < length allSlugs - 1)%nat
     then allSlugs !! (i + 1)%nat else None)) as [n Hn].
  exists p, n. by rewrite Hp, Hn.
Qed.
End PrevNext.

(** C8, as amended: [getPrevNextTopics] locates the slug path at the first
    position of [getAllTopicSlugs()] whose joined string equals the joined
    path.  When there is none the result is [{prev: null, next: null}].
    Otherwise [prev] is the title and href of the element before that
    position when there is one and [getTopicMetadata] resolves it, and
    [null] when there is none or it does not resolve; [next] likewise for the
    element after it.  For the first slug path [prev] is [null]; for the last
    one [next] is [null] when no earlier element has the same joined
    string. *)
Theorem getPrevNextTopics_neighbours fuel cats slugPath allSlugs :
  getAllTopicSlugs fuel cats = Some allSlugs →
  let same := fun s => bool_decide (join "/" s = join "/" slugPath) in
  ∃ r, getPrevNextTopics fuel cats slugPath = Value r ∧
    (Forall (fun s => join "/" s ≠ join "/" slugPath) allSlugs →
     r = mkPrevNext None None) ∧
    (∀ i, firstAt same allSlugs i →
       (i = 0%nat → prev r = None) ∧
       (∀ s meta,
          (0 < i)%nat → allSlugs !! (i - 1)%nat = Some s →
          getTopicMetadata cats s = Value meta → prev r = infoOf meta s) ∧
       (S i = length allSlugs → next r = None) ∧
       (∀ s meta,
          allSlugs !! (i + 1)%nat = Some s →
          getTopicMetadata cats s = Value meta → next r = infoOf meta s)) ∧
    (head allSlugs = Some slugPath → prev r = None) ∧
    (last allSlugs = Some slugPath →
     (∀ j s, (S j < length allSlugs)%nat → allSlugs !! j = Some s →
             join "/" s ≠ join "/" slugPath) →
     next r = None).
Proof.
  intros Hall same.
  assert (∀ i r,
    findIndex same allSlugs = Some i →
    getPrevNextTopics fuel cats slugPath = Value r →
    (i = 0%nat → prev r = None) ∧
    (∀ s meta,
       (0 < i)%nat → allSlugs !! (i - 1)%nat = Some s →
       getTopicMetadata cats s = Value meta → prev r = infoOf meta s) ∧
    (S i = length allSlugs → next r = None) ∧
    (∀ s meta,
       allSlugs !! (i + 1)%nat = Some s →
       getTopicMetadata cats s = Value meta → next r = infoOf meta s))
    as Hfound.
  { intros i r Hidx Hr.
    destruct (getPrevNextTopics_found fuel cats slugPath allSlugs Hall i Hidx)
      as (p & n & Hpn & Hp & Hn).
    rewrite Hpn in Hr. injection Hr as <-. simpl.
    split; [|split; [|split]].
    - intros ->. rewrite decide_False in Hp by lia. simpl in Hp. congruence.
    - intros s meta Hi Hs Hmeta. rewrite decide_True in Hp by done.
      rewrite Hs, (getTopicInfo_Some _ _ _ Hmeta) in Hp. congruence.
    - intros Hi. rewrite decide_False in Hn by lia. simpl in Hn. congruence.
    - intros s meta Hs Hmeta.
      pose proof (lookup_lt_Some _ _ _ Hs).
      rewrite decide_True in Hn by lia.
      rewrite Hs, (getTopicInfo_Some _ _ _ Hmeta) in Hn. congruence. }
  destruct (findIndex same allSlugs) as [i0|] eqn:Hidx.
  - destruct (getPrevNextTopics_found fuel cats slugPath allSlugs Hall i0 Hidx)
      as (p & n & Hpn & _).
    exists (mkPrevNext p n). split; [done|].
    pose proof (Hfound i0 _ eq_refl Hpn) as (H0 & Hprev & Hlast & Hnext).
    split; [|split; [|split]].
    + intros Hnone. apply findIndex_Some in Hidx as [(x & Hx & Hsame) _].
      apply bool_decide_eq_true in Hsame.
      apply list_elem_of_lookup_2 in Hx.
      by destruct (proj1 (Forall_forall _ _) Hnone x Hx).
    + intros i Hi%findIndex_Some. assert (i = i0) as -> by congruence. done.
    + intros Hhead. apply H0.
      assert (findIndex same allSlugs = Some 0%nat) as Hz; [|congruence].
      apply findIndex_Some. split; [|intros; lia].
      exists slugPath. split; [by rewrite <-head_lookup|].
      by apply bool_decide_eq_true.
    + intros Hl Hbefore. apply Hlast.
      apply findIndex_Some in Hidx as [(x & Hx & Hsame) _].
      apply bool_decide_eq_true in Hsame.
      pose proof (lookup_lt_Some _ _ _ Hx).
      destruct (decide (S i0 = length allSlugs)) as [|Hne]; [done|].
      destruct (Hbefore i0 x); [lia|done|done].
  - exists (mkPrevNext None None).
    split; [by apply (getPrevNextTopics_not_found fuel cats slugPath allSlugs)|].
    apply findIndex_None in Hidx.
    assert (∀ s, s ∈ allSlugs → join "/" s ≠ join "/" slugPath) as Hno.
    { intros s Hs. apply (proj1 (Forall_forall _ _) Hidx) in Hs.
      by apply bool_decide_eq_false in Hs. }
    split; [done|]. split; [|split; [done|done]].
    intros i [(x & Hx & Hsame) _]. apply bool_decide_eq_true in Hsame.
    apply list_elem_of_lookup_2 in Hx. by destruct (Hno x Hx).
Qed.

Lemma getPrevNextTopics_neighbours_witness :
  ∃ r, getPrevNextTopics 3 smallTaxonomy ["foundations"; "speech-recognition"]
         = Value r ∧
       prev r = Some (mkTopicInfo "Foundations" "/topics/foundations") ∧
       next r = Some (mkTopicInfo "Guides" "/topics/guides").
Proof.
  destruct (getPrevNextTopics_neighbours 3 smallTaxonomy
              ["foundations"; "speech-recognition"]
              [ ["foundations"]; ["foundations"; "speech-recognition"];
                ["guides"] ])
    as (r & Hr & _ & Hfound & _); [by vm_compute|].
  exists r. split; [done|].
  destruct (Hfound 1%nat) as (_ & Hprev & _ & Hnext).
  { split; [eexists; split; [done|by vm_compute]|].
    intros [|j] y Hj Hy; [|lia]. injection Hy as <-. by vm_compute. }
  split.
  - apply (Hprev ["foundations"] (Some (root "f" "Foundations" "foundations" 1)));
      [lia|done|by vm_compute].
  - apply (Hnext ["guides"] (Some (root "g" "Guides" "guides" 2)));
      [done|by vm_compute].
Defined.

(** C8, as stated, fails in the taxonomy [strayTaxonomy], whose slug paths
    are [o], [b], [b]: the path [b] is found at index 1, the element before
    it does not resolve (its category hangs on a dangling reference) and
    [prev] is [null] although the index is positive; and [b] is the last slug
    path, yet [next] is not [null]. *)
Lemma getPrevNextTopics_stray :
  getAllTopicSlugs 2 strayTaxonomy = Some [ ["o"]; ["b"]; ["b"] ] ∧
  findIndex (fun s => bool_decide (join "/" s = join "/" ["b"]))
    [ ["o"]; ["b"]; ["b"] ] = Some 1%nat ∧
  last [ ["o"]; ["b"]; ["b"] ] = Some ["b"] ∧
  getPrevNextTopics 2 strayTaxonomy ["b"] =
    Value (mkPrevNext None (Some (mkTopicInfo "B" "/topics/b"))).
Proof. repeat split; by vm_compute. Qed.

(** ** Strings: lower case and substrings *)

Lemma toLowerCase_app a b :
  toLowerCase (a +:+ b) = toLowerCase a +:+ toLowerCase b.
Proof.
  induction a as [|c a IH]; [done|].
  rewrite string_app_cons. simpl. rewrite IH. by rewrite string_app_cons.
Qed.

Lemma toLowerCase_split s x y :
  toLowerCase s = x +:+ y →
  ∃ a b, s = a +:+ b ∧ toLowerCase a = x ∧ toLowerCase b = y.
Proof.
  revert s; induction x as [|c x IH]; intros s Hs.
  - by exists "", s.
  - destruct s as [|d s]; [done|].
    rewrite string_app_cons in Hs. simpl in Hs. injection Hs as Hc Hs.
    destruct (IH s Hs) as (a & b & -> & Ha & Hb).
    exists (String d a), b. split; [done|]. split; [|done].
    simpl. by rewrite Hc, Ha.
Qed.

Lemma startsWith_spec s q : startsWith s q = true ↔ ∃ b, s = q +:+ b.
Proof.
  revert s; induction q as [|c q IH]; intros s.
  - destruct s; simpl; (split; [intros _; by eexists | done]).
  - destruct s as [|d s]; simpl.
    + split; [done|]. by intros [b ?].
    + rewrite andb_true_iff, bool_decide_eq_true, IH. split.
      * intros [-> [b ->]]. by exists b.
      * intros [b Hb]. rewrite string_app_cons in Hb.
        injection Hb as -> ->. split; [done|]. by exists b.
Qed.

Lemma includes_spec s q : includes s q = true ↔ ∃ a b, s = a +:+ q +:+ b.
Proof.
  induction s as [|d s IH].
  - cbn [includes]. rewrite orb_false_r, startsWith_spec. split.
    + intros [b Hb]. by exists "", b.
    + intros ([|??] & b & Hb); [by exists b|done].
  - cbn [includes]. rewrite orb_true_iff, IH, startsWith_spec. split.
    + intros [[b Hb]|(a & b & ->)]; [by exists "", b|].
      by exists (String d a), b.
    + intros ([|c a] & b & Hb).
      * left. by exists b.
      * right. rewrite string_app_cons in Hb. injection Hb as -> ->.
        by exists a, b.
Qed.

Lemma includes_containsCI field query :
  includes (toLowerCase field) (toLowerCase query) = true ↔
  containsCI field query.
Proof.
  rewrite includes_spec. split.
  - intros (x & y & Hxy).
    apply toLowerCase_split in Hxy as (a & rest & -> & Ha & Hrest).
    apply toLowerCase_split in Hrest as (found & b & -> & Hfound & Hb).
    by exists a, found, b.
  - intros (a & found & b & -> & Hfound).
    exists (toLowerCase a), (toLowerCase b).
    by rewrite !toLowerCase_app, Hfound.
Qed.

Lemma includes_not_containsCI field query :
  includes (toLowerCase field) (toLowerCase query) = false ↔
  ¬ containsCI field query.
Proof. rewrite <-includes_containsCI. by destruct (includes _ _). Qed.

Lemma existsb_tags_containsCI (l : list string) query :
  existsb (fun tag => includes (toLowerCase tag) (toLowerCase query)) l = true ↔
  ∃ tag, tag ∈ l ∧ containsCI tag query.
Proof.
  rewrite existsb_exists. split.
  - intros (tag & Hin%list_elem_of_In & Htag%includes_containsCI). eauto.
  - intros (tag & Hin%list_elem_of_In & Htag%includes_containsCI). eauto.
Qed.

(** ** The match type of an item *)

Lemma matchTypeOf_Some query item mt :
  matchTypeOf (toLowerCase query) item = Some mt ↔ firstMatch query item mt.
Proof.
  unfold matchTypeOf, firstMatch.
  destruct (includes (toLowerCase (title _)) _) eqn:Ht.
  { apply includes_containsCI in Ht.
    destruct mt; intuition congruence. }
  apply includes_not_containsCI in Ht.
  destruct (includes (toLowerCase (description _)) _) eqn:Hd.
  { apply includes_containsCI in Hd.
    destruct mt; intuition congruence. }
  apply includes_not_containsCI in Hd.
  destruct (existsb _ _) eqn:Hg.
  { apply existsb_tags_containsCI in Hg.
    destruct mt; intuition congruence. }
  split; [done|]. assert (¬ ∃ tag, tag ∈ tags (item_category item) ∧
                                   containsCI tag query) as Hno.
  { rewrite <-existsb_tags_containsCI. by rewrite Hg. }
  destruct mt; intuition congruence.
Qed.

Lemma matchTypeOf_is_Some query item :
  is_Some (matchTypeOf (toLowerCase query) item) ↔ matchesQuery query item.
Proof.
  split.
  - intros [mt Hmt%matchTypeOf_Some]. unfold matchesQuery.
    destruct mt; simpl in Hmt; tauto.
  - unfold matchesQuery, matchTypeOf.
    rewrite <-!includes_containsCI, <-existsb_tags_containsCI.
    intros [-> | [-> | ->]]; repeat case_match; by eexists.
Qed.

(** ** Trimming *)

Lemma allChars_whitespaceOnly s :
  allChars isSpace s = true ↔ whitespaceOnly s.
Proof.
  unfold whitespaceOnly. induction s as [|c s IH]; simpl.
  - split; [by intros _ [|?] ?|done].
  - rewrite andb_true_iff, IH. split.
    + intros [Hc Hs] [|i] d Hd; simpl in Hd; [by injection Hd as <-|eauto].
    + intros Hall. split; [by apply (Hall 0%nat)|].
      intros i d Hd. by apply (Hall (S i)).
Qed.

Lemma trimStart_blank s : allChars isSpace s = true → trimStart s = "".
Proof.
  induction s as [|c s IH]; simpl; [done|].
  intros [-> Hs]%andb_true_iff. auto.
Qed.

Lemma trimStart_head s c t : trimStart s = String c t → isSpace c = false.
Proof.
  induction s as [|d s IH]; simpl; [done|].
  destruct (isSpace d) eqn:Hd; [done|]. by intros [= <- _].
Qed.

Lemma trimEnd_empty s : trimEnd s = "" → allChars isSpace s = true.
Proof.
  induction s as [|c s IH]; simpl; [done|].
  destruct (trimEnd s) eqn:Ht; [|done].
  destruct (isSpace c); [|done]. intros _. by rewrite IH.
Qed.

Lemma trim_empty s : trim s = "" ↔ whitespaceOnly s.
Proof.
  rewrite <-allChars_whitespaceOnly. unfold trim. split.
  - intros Hs%trimEnd_empty.
    destruct (trimStart s) as [|c t] eqn:Ht.
    + clear Hs. induction s as [|d s IH]; simpl in *; [done|].
      destruct (isSpace d); [auto|done].
    + apply trimStart_head in Ht. simpl in Hs. by rewrite Ht in Hs.
  - intros Hs. by rewrite trimStart_blank.
Qed.

(** ** The order of the results *)

Lemma leBy_compareResults a b : leBy compareResults a b ↔ rankLe a b.
Proof.
  unfold leBy, compareResults, rankLe.
  destruct (isTitle a), (isTitle b); simpl; intuition (try lia; try done).
Qed.

#[global] Instance compareResults_consistent : Consistent compareResults.
Proof.
  split.
  - intros a b. rewrite !leBy_compareResults. unfold rankLe.
    destruct (isTitle a), (isTitle b);
      destruct (decide (result_order a ≤ result_order b));
      intuition (try lia; try done).
  - intros a b c. rewrite !leBy_compareResults. unfold rankLe.
    destruct (isTitle a), (isTitle b), (isTitle c);
      intuition (try lia; try done).
Qed.

Lemma found_items query (items : list SearchItem) :
  result_item <$>
    omap (fun item =>
            mkSearchResult item <$> matchTypeOf (toLowerCase query) item)
         items =
  filter (fun item => is_Some (matchTypeOf (toLowerCase query) item)) items.
Proof.
  induction items as [|item items IH]; [done|].
  rewrite filter_cons. simpl.
  destruct (matchTypeOf _ item) as [mt|] eqn:Hmt; simpl.
  - by f_equal.
  - exact IH.
Qed.




(** C9: for a query that is empty or consists of white space only, [search]
    (and [searchTopics]) returns the empty list whatever the items are.  The
    cut is made before any matching: the query of one space is contained in
    the title ["a b"], and the results are empty all the same. *)
Theorem search_blank limit items cats query :
  whitespaceOnly query →
  results (search limit items query) = [] ∧
  selectedIndex (search limit items query) = -1 ∧
  searchTopics cats query = [] ∧
  results (search limit items "") = [] ∧
  results (search limit items "   ") = [] ∧
  matchTypeOf (toLowerCase " ") spacedItem = Some Title ∧
  results (search limit [spacedItem] " ") = [].
Proof.
  intros Hblank%trim_empty. unfold searchTopics, search.
  rewrite Hblank. repeat split; by vm_compute.
Qed.

Lemma search_blank_witness :
  results (search 8 speechItems "  ") = [] ∧
  searchTopics smallTaxonomy "  " = [].
Proof.
  destruct (search_blank 8 speechItems smallTaxonomy "  ")
    as (Hresults & _ & Htopics & _).
  - apply trim_empty. by vm_compute.
  - done.
Defined.

(** ** Strings: prefixes and lengths *)

Lemma string_length_app (a b : string) :
  String.length (a +:+ b) = (String.length a + String.length b)%nat.
Proof.
  induction a as [|c a IH]; [done|].
  rewrite string_app_cons. simpl. by rewrite IH.
Qed.

Lemma takeWhileS_dropWhileS p s : takeWhileS p s +:+ dropWhileS p s = s.
Proof.
  induction s as [|c s IH]; simpl; [done|].
  destruct (p c); [|done]. rewrite string_app_cons. by f_equal.
Qed.

Lemma takeWhileS_all p s : allChars p (takeWhileS p s) = true.
Proof.
  induction s as [|c s IH]; simpl; [done|].
  destruct (p c) eqn:Hc; simpl; [by rewrite Hc|done].
Qed.

Lemma dropWhileS_stopsAt p s : stopsAt p (dropWhileS p s) = true.
Proof.
  induction s as [|c s IH]; simpl; [done|].
  destruct (p c) eqn:Hc; simpl; [done|by rewrite Hc].
Qed.

Lemma allChars_app p a b :
  allChars p (a +:+ b) = allChars p a && allChars p b.
Proof.
  induction a as [|c a IH]; [done|].
  rewrite string_app_cons. simpl. by rewrite IH, andb_assoc.
Qed.

(** ** The quantifier *)

Section Rep.
Context {R : Type} (class : ascii → bool).

(** A match passes through the continuation after a run of characters of the
    class whose length the bounds admit. *)
Lemma rep_inv min max s taken (k : string → string → option R) r :
  rep class min max s taken k = Some r →
  ∃ run rest,
    s = run +:+ rest ∧ allChars class run = true ∧
    (min ≤ String.length run)%nat ∧ admits max (String.length run) ∧
    k (taken +:+ run) rest = Some r.
Proof.
  revert min max taken; induction s as [|c s IH]; intros min max taken.
  - simpl. case_decide as Hmin; [|done]. intros Hk.
    exists "", "". split; [done|]. split; [done|]. split; [simpl; lia|].
    split; [destruct max; simpl; lia|]. by rewrite string_app_nil_r.
  - cbn [rep].
    assert ((if decide (min = 0%nat) then k taken (String c s) else None)
              = Some r →
            ∃ run rest,
              String c s = run +:+ rest ∧ allChars class run = true ∧
              (min ≤ String.length run)%nat ∧
              admits max (String.length run) ∧
              k (taken +:+ run) rest = Some r) as Hstop.
    { case_decide as Hmin; [|done]. intros Hk.
      exists "", (String c s). split; [done|]. split; [done|].
      split; [simpl; lia|]. split; [destruct max; simpl; lia|].
      by rewrite string_app_nil_r. }
    destruct (class c && bool_decide (max ≠ Some 0%nat)) eqn:Hc; [|done].
    apply andb_true_iff in Hc as [Hc Hmax%bool_decide_eq_true].
    destruct (rep class (pred min) (pred <$> max) s _ k) as [r'|] eqn:Hrec;
      [|done].
    intros [= <-].
    apply IH in Hrec as (run & rest & -> & Hrun & Hmin & Hadm & Hk).
    exists (String c run), rest. rewrite string_app_cons.
    split; [done|]. split; [by simpl; rewrite Hc|].
    split; [simpl; lia|]. split.
    + destruct max as [[|m]|]; simpl in *; try done. lia.
    + by rewrite string_app_assoc in Hk.
Qed.

(** Greedy: when what follows accepts the longest run, that is the match. *)
Lemma rep_greedy min run rest taken (k : string → string → option R) r :
  allChars class run = true → stopsAt class rest = true →
  (min ≤ String.length run)%nat →
  k (taken +:+ run) rest = Some r →
  rep class min None (run +:+ rest) taken k = Some r.
Proof.
  revert min taken; induction run as [|c run IH]; intros min taken.
  - intros _ Hrest Hmin Hk. rewrite string_app_nil_r in Hk.
    rewrite string_app_nil_l. simpl in Hmin.
    destruct rest as [|d rest]; simpl.
    + by rewrite decide_True by lia.
    + simpl in Hrest. apply negb_true_iff in Hrest. rewrite Hrest. simpl.
      by rewrite decide_True by lia.
  - intros [Hc Hrun]%andb_true_iff Hrest Hmin Hk.
    rewrite string_app_cons. cbn [rep]. rewrite Hc. simpl.
    rewrite (IH (pred min) (taken +:+ String c "")); try done.
    + simpl in Hmin. lia.
    + by rewrite string_app_assoc.
Qed.

End Rep.

(** ** The heading expression on one line *)


Lemma isLineTerminator_isSpace c :
  isLineTerminator c = true → isSpace c = true.
Proof.
  unfold isLineTerminator, isSpace.
  intros [H|H]%orb_true_iff; apply N.eqb_eq in H; by rewrite H.
Qed.




(** ** The matches over the lines of a text *)


Lemma lastOr_isDot c s :
  isDot c = true → allChars isDot s = true →
  ∃ d, lastOr (Some c) s = Some d ∧ isDot d = true.
Proof.
  revert c; induction s as [|e s IH]; intros c Hc; simpl; [eauto|].
  intros [He Hs]%andb_true_iff. eauto.
Qed.






(** ** Every match is a heading of level 2 to 4 *)




(** ** Replacing the runs of other characters by hyphens *)


Lemma nonAlnumRegex_run prev c s :
  notAlnum c = true →
  nonAlnumRegex prev (String c s) = Some ("-", dropWhileS notAlnum s).
Proof.
  intros Hc. unfold nonAlnumRegex.
  rewrite <-(takeWhileS_dropWhileS notAlnum s) at 1.
  rewrite <-string_app_cons.
  erewrite rep_greedy; [done| | | |done].
  - simpl. by rewrite Hc, takeWhileS_all.
  - apply dropWhileS_stopsAt.
  - simpl; lia.
Qed.

Lemma nonAlnumRegex_none prev c s :
  notAlnum c = false → nonAlnumRegex prev (String c s) = None.
Proof. intros Hc. unfold nonAlnumRegex. cbn [rep]. by rewrite Hc. Qed.

Lemma replaceAll_nonAlnum s :
  ∀ prev,
    replaceAll nonAlnumRegex prev s 0 = collapse false s ∧
    replaceAll nonAlnumRegex prev s
      (String.length (takeWhileS notAlnum s)) = collapse true s.
Proof.
  induction s as [|c s IH]; intros prev; [done|].
  destruct (notAlnum c) eqn:Hc.
  - assert (replaceAll nonAlnumRegex prev (String c s)
              (String.length (takeWhileS notAlnum (String c s)))
            = collapse true (String c s)) as Hin.
    { simpl. rewrite Hc. simpl. apply IH. }
    split; [|done]. cbn [replaceAll collapse].
    rewrite nonAlnumRegex_run, Hc by done. rewrite string_app_cons.
    rewrite string_app_nil_l. f_equal.
    rewrite <-(proj2 (IH (Some c))). f_equal.
    rewrite <-(takeWhileS_dropWhileS notAlnum s) at 1.
    cbn [String.length]. rewrite string_length_app. lia.
  - assert (replaceAll nonAlnumRegex prev (String c s) 0
            = collapse false (String c s)) as Hout.
    { cbn [replaceAll collapse]. rewrite nonAlnumRegex_none, Hc by done.
      f_equal. apply IH. }
    split; [done|]. simpl takeWhileS. rewrite Hc. simpl String.length.
    rewrite Hout. simpl. by rewrite Hc.
Qed.

(** ** Removing the hyphens at the two ends *)

Lemma replaceAll_edge_inside p s :
  replaceAll edgeHyphenRegex (Some p) s 0 = dropLastHyphen s.
Proof.
  revert p; induction s as [|c s IH]; intros p; [done|].
  cbn [replaceAll]. unfold edgeHyphenRegex at 1. simpl.
  case_bool_decide as Hc.
  - subst c. destruct s as [|d s]; [done|]. simpl atEnd. cbv iota.
    rewrite IH. done.
  - rewrite IH. destruct s; [|done]. simpl.
    rewrite bool_decide_eq_false_2; [done|congruence].
Qed.

Lemma replaceAll_edge s :
  replaceAll edgeHyphenRegex None s 0 = dropLastHyphen (dropFirstHyphen s).
Proof.
  destruct s as [|c s]; [done|].
  cbn [replaceAll]. unfold edgeHyphenRegex at 1. simpl.
  case_bool_decide as Hc.
  - subst c. rewrite bool_decide_eq_true_2 by done. simpl.
    rewrite string_app_nil_l.
    replace (S (String.length s) - String.length s - 1)%nat with 0%nat by lia.
    apply replaceAll_edge_inside.
  - rewrite bool_decide_eq_false_2 by congruence.
    rewrite replaceAll_edge_inside. destruct s; [|done]. simpl.
    rewrite bool_decide_eq_false_2; [done|congruence].
Qed.

(** ** The id is the words of the text joined by hyphens *)

Lemma notAlnum_isAlnum c : notAlnum c = negb (isAlnum c).
Proof. done. Qed.

Lemma alnum_not_hyphen c : notAlnum c = false → c ≠ "-"%char.
Proof. by intros Hc ->. Qed.

Lemma alnumWords_isWord s : Forall isWord (alnumWords s).
Proof.
  induction s as [|c s IH]; simpl; [constructor|].
  destruct (notAlnum c) eqn:Hc; [done|].
  assert (isAlnum c = true) as Hc'.
  { rewrite notAlnum_isAlnum in Hc. by apply negb_false_iff. }
  destruct (stopsAt isAlnum s).
  - constructor; [|done]. split; [done|]. simpl. by rewrite Hc'.
  - destruct IH as [|w ws [Hw1 Hw2] Hws].
    + constructor; [|done]. split; [done|]. simpl. by rewrite Hc'.
    + constructor; [|done]. split; [done|]. simpl. by rewrite Hc', Hw2.
Qed.

Lemma alnumWords_nonempty s :
  stopsAt isAlnum s = false → alnumWords s ≠ [].
Proof.
  destruct s as [|c s]; simpl; [done|].
  rewrite notAlnum_isAlnum. intros ->%negb_false_iff. simpl.
  destruct (stopsAt isAlnum s); [done|]. by destruct (alnumWords s).
Qed.

Lemma collapse_empty b s : collapse b s = "" ↔ b = true ∧ alnumWords s = [] ∨ s = "".
Proof.
  revert b; induction s as [|c s IH]; intros b; simpl; [by split; auto|].
  destruct (notAlnum c) eqn:Hc.
  - destruct b.
    + rewrite IH. split.
      * intros [[_ ?]| ->]; left; [done|]. done.
      * intros [[_ ?]|?]; [|done]. by left.
    + split; [done|]. by intros [[? _]|?].
  - split; [done|]. intros [[_ Hw]|?]; [|done].
    destruct (stopsAt isAlnum s); [done|]. by destruct (alnumWords s).
Qed.

Lemma dropLastHyphen_cons c s :
  s ≠ "" → dropLastHyphen (String c s) = String c (dropLastHyphen s).
Proof. by destruct s. Qed.

Lemma join_hyphen_cons_char c w ws :
  join "-" (String c w :: ws) = String c (join "-" (w :: ws)).
Proof. by destruct ws. Qed.

Lemma join_hyphen_alnum c s :
  notAlnum c = false →
  join "-" (alnumWords (String c s)) =
    String c
      (if stopsAt isAlnum s
       then match alnumWords s with
            | [] => ""
            | _ => "-" +:+ join "-" (alnumWords s)
            end
       else join "-" (alnumWords s)).
Proof.
  intros Hc. simpl alnumWords. rewrite Hc.
  destruct (stopsAt isAlnum s) eqn:Hs.
  - by destruct (alnumWords s).
  - pose proof (alnumWords_nonempty s Hs).
    destruct (alnumWords s) as [|w ws]; [done|].
    apply join_hyphen_cons_char.
Qed.

Lemma dropLastHyphen_collapse s :
  ∀ b,
    dropLastHyphen (collapse b s) =
      (if negb b && negb (stopsAt notAlnum s)
          && bool_decide (alnumWords s ≠ [])
       then "-" else "") +:+ join "-" (alnumWords s).
Proof.
  induction s as [|c s IH]; intros b; [by destruct b|].
  destruct (notAlnum c) eqn:Hc.
  - (* a character that is neither a lowercase letter nor a digit *)
    assert (alnumWords (String c s) = alnumWords s) as Hw
      by (simpl; by rewrite Hc).
    rewrite Hw. simpl collapse. simpl stopsAt. rewrite Hc.
    destruct b; simpl negb; cbv iota.
    + rewrite IH. done.
    + destruct (decide (alnumWords s = [])) as [Hnil|Hnil].
      * rewrite bool_decide_eq_false_2 by tauto.
        assert (collapse true s = "") as -> by (apply collapse_empty; auto).
        by rewrite Hnil.
      * rewrite bool_decide_eq_true_2 by done.
        rewrite dropLastHyphen_cons, IH.
        -- done.
        -- rewrite collapse_empty. intros [[_ ?]| ->]; done.
  - (* a lowercase letter or a digit *)
    rewrite join_hyphen_alnum by done.
    simpl collapse. simpl stopsAt. rewrite Hc.
    replace (negb b && negb (negb false)) with false
      by (by destruct b).
    rewrite string_app_nil_l.
    destruct s as [|d s].
    { simpl. rewrite bool_decide_eq_false_2; [done|].
      by apply alnum_not_hyphen. }
    rewrite dropLastHyphen_cons.
    2:{ rewrite collapse_empty. intros [[? _]|?]; done. }
    f_equal. rewrite IH. simpl negb. rewrite andb_true_l.
    change (stopsAt isAlnum (String d s)) with (negb (isAlnum d)).
    change (stopsAt notAlnum (String d s)) with (negb (notAlnum d)).
    rewrite notAlnum_isAlnum.
    destruct (isAlnum d) eqn:Hd; simpl negb; cbv iota.
    + by rewrite string_app_nil_l.
    + rewrite andb_true_l.
      destruct (alnumWords (String d s)) as [|w ws] eqn:Hw.
      * by rewrite bool_decide_eq_false_2 by tauto.
      * by rewrite bool_decide_eq_true_2 by done.
Qed.

(** The three steps of the id — lower case, one hyphen for each maximal run
    of other characters, no hyphen at the ends — leave the words of the
    lowercased text joined by single hyphens. *)
Lemma headingId_words text :
  headingId text = join "-" (alnumWords (toLowerCase text)).
Proof.
  unfold headingId.
  rewrite (proj1 (replaceAll_nonAlnum (toLowerCase text) None)).
  rewrite replaceAll_edge.
  destruct (toLowerCase text) as [|c s]; [done|].
  destruct (notAlnum c) eqn:Hc.
  - simpl collapse. rewrite Hc. simpl dropFirstHyphen.
    rewrite dropLastHyphen_collapse. simpl alnumWords. by rewrite Hc.
  - assert (dropFirstHyphen (collapse false (String c s))
            = collapse false (String c s)) as ->.
    { simpl. rewrite Hc. simpl.
      rewrite bool_decide_eq_false_2; [done|].
      by apply alnum_not_hyphen. }
    rewrite dropLastHyphen_collapse. simpl stopsAt. by rewrite Hc.
Qed.

(** ** Links *)






(** ** Heading lines *)






(** ** The functions at work *)

(** The slug paths follow the order of the input list, not the order of the
    tree. *)
Example getAllTopicSlugs_small :
  getAllTopicSlugs 2 smallTaxonomy =
    Some [ ["foundations"]; ["foundations"; "speech-recognition"];
           ["guides"] ].
Proof. by vm_compute. Qed.

(** On a cycle the walk of [buildHref] has no end: no fuel is enough. *)
Lemma buildHref_cycle fuel :
  buildHref fuel (child "a" "A" "a" "b" 1) (categoryMap cyclicTaxonomy) = None.
Proof.
  unfold buildHref.
  assert (∀ acc,
    walkUp fuel (categoryMap cyclicTaxonomy)
      (Some (child "a" "A" "a" "b" 1)) acc = None ∧
    walkUp fuel (categoryMap cyclicTaxonomy)
      (Some (child "b" "B" "b" "a" 2)) acc = None) as Hloop.
  { induction fuel as [|fuel IH]; intros acc; [done|].
    split; simpl.
    - change (parentOf (categoryMap cyclicTaxonomy) (child "a" "A" "a" "b" 1))
        with (categoryMap cyclicTaxonomy !! "b").
      replace (categoryMap cyclicTaxonomy !! "b")
        with (Some (child "b" "B" "b" "a" 2)) by (by vm_compute).
      apply IH.
    - change (parentOf (categoryMap cyclicTaxonomy) (child "b" "B" "b" "a" 2))
        with (categoryMap cyclicTaxonomy !! "a").
      replace (categoryMap cyclicTaxonomy !! "a")
        with (Some (child "a" "A" "a" "b" 1)) by (by vm_compute).
      apply IH. }
  by rewrite (proj1 (Hloop [])).
Qed.

(** The example of the documentation of [stripMarkdownLinks]. *)
Example stripMarkdownLinks_example :
  stripMarkdownLinks "[STT Overview](/topics/path)" = "STT Overview".
Proof. by vm_compute. Qed.

Example headingId_example :
  headingId "  --Hello,   World!!--  " = "hello-world".
Proof. by vm_compute. Qed.

(** Bare headings at the end of a content: after one space nothing matches;
    after two, the second space is the text of the match and the item is
    empty. *)
Example extractTableOfContents_bare_end :
  extractTableOfContents "## " = [] ∧
  extractTableOfContents "##  " = [ mkTableOfContentsItem "" "" 2 ].
Proof. split; by vm_compute. Qed.

(** * Further properties *)

(** ** Topics of a parent *)

Lemma getAllTopics_topicOf cats : getAllTopics cats = topicOf <$> cats.
Proof. done. Qed.

#[global] Instance byTopicOrder_consistent : Consistent byTopicOrder.
Proof. split; unfold leBy, byTopicOrder; intros; lia. Qed.

Lemma insertBy_fmap {A B} (f : A → B) (cmpA : A → A → Z) (cmpB : B → B → Z)
    x (l : list A) :
  (∀ a b, cmpB (f a) (f b) = cmpA a b) →
  insertBy cmpB (f x) (f <$> l) = f <$> insertBy cmpA x l.
Proof.
  intros Hcmp. induction l as [|y l IH]; [done|].
  rewrite fmap_cons. cbn [insertBy]. rewrite Hcmp.
  case_decide; [done|]. by rewrite fmap_cons, IH.
Qed.

Lemma sortBy_fmap {A B} (f : A → B) (cmpA : A → A → Z) (cmpB : B → B → Z)
    (l : list A) :
  (∀ a b, cmpB (f a) (f b) = cmpA a b) →
  sortBy cmpB (f <$> l) = f <$> sortBy cmpA l.
Proof.
  intros Hcmp. induction l as [|x l IH]; [done|].
  rewrite fmap_cons. cbn [sortBy]. rewrite IH. by apply insertBy_fmap.
Qed.

Lemma filter_topicOf cats parent :
  filter (fun t => topic_parentId t = parent) (topicOf <$> cats) =
  topicOf <$> childrenOf cats parent.
Proof.
  unfold childrenOf. induction cats as [|c cats IH]; [done|].
  rewrite fmap_cons, !filter_cons, IH. simpl.
  by destruct (decide (parentId c = parent)).
Qed.

Lemma getTopicsByParent_children cats parent :
  getTopicsByParent cats parent =
  topicOf <$> sortBy byOrder (childrenOf cats parent).
Proof.
  unfold getTopicsByParent.
  rewrite getAllTopics_topicOf, filter_topicOf.
  by apply sortBy_fmap.
Qed.

(** X1: [getTopicsByParent(parentId)] returns the topics whose [parentId] is
    strictly equal to the argument — one for each such category, with the
    fields of the category — by ascending [order], those of equal [order] in
    the order of the taxonomy. *)
Theorem getTopicsByParent_sorted cats parent :
  let found :=
    filter (fun t => topic_parentId t = parent) (getAllTopics cats) in
  let r := getTopicsByParent cats parent in
  r ≡ₚ found ∧
  StronglySorted (fun a b => topic_order a ≤ topic_order b) r ∧
  (∀ o, filter (fun t => topic_order t = o) r =
        filter (fun t => topic_order t = o) found) ∧
  (∀ t, t ∈ r ↔ ∃ c, c ∈ cats ∧ parentId c = parent ∧ t = topicOf c).
Proof.
  simpl. unfold getTopicsByParent. split; [apply sortBy_perm|]. split.
  { eapply StronglySorted_weaken; [|apply (sortBy_sorted byTopicOrder)].
    unfold leBy, byTopicOrder. intros; lia. }
  split.
  { intros o. apply sortBy_filter. unfold leBy, byTopicOrder. intros; lia. }
  intros t. rewrite elem_of_sortBy, getAllTopics_topicOf, filter_topicOf.
  rewrite list_elem_of_fmap. unfold childrenOf.
  split.
  - intros (c & -> & [Hp Hc]%list_elem_of_filter). by exists c.
  - intros (c & Hc & Hp & ->). exists c. split; [done|].
    by apply list_elem_of_filter.
Qed.

Lemma getTopicsByParent_sorted_witness :
  topic_title <$> getTopicsByParent siblingTaxonomy (Some "p") =
    ["B"; "C"; "A"] ∧
  topicOf (child "a" "A" "a" "p" 2) ∈
    getTopicsByParent siblingTaxonomy (Some "p").
Proof.
  split; [by vm_compute|].
  apply (getTopicsByParent_sorted siblingTaxonomy (Some "p")).
  exists (child "a" "A" "a" "p" 2). split; [|done].
  apply (bool_decide_unpack _). by vm_compute.
Defined.

Lemma buildTree_inTree cats ch fuel parent base items c item :
  (∀ k, default [] (ch !! k) = childrenOf cats k) →
  buildTree fuel ch parent base = Some items →
  inTree cats parent items c item →
  ∃ fuel' base',
    buildTree (S fuel') ch (Some (id c)) base' = Some (nav_children item).
Proof.
  intros Hch Hbuild Hin. revert fuel base Hbuild.
  induction Hin as [parent items i c item Hc Hitem
                   |parent items i c' item' c item Hc Hitem _ IH];
    intros [|fuel] base Hbuild; try done.
  - apply (buildTree_Some cats ch Hch) in Hbuild.
    destruct (Forall2_lookup_lr _ _ _ _ _ _ Hbuild Hc Hitem)
      as (kids & Hkids & ->).
    destruct fuel as [|fuel]; [done|]. by exists fuel, (childPath base c).
  - apply (buildTree_Some cats ch Hch) in Hbuild.
    destruct (Forall2_lookup_lr _ _ _ _ _ _ Hbuild Hc Hitem)
      as (kids & Hkids & ->).
    by apply (IH fuel (childPath base c')).
Qed.

Lemma buildTree_titles cats ch fuel parent base items :
  (∀ k, default [] (ch !! k) = childrenOf cats k) →
  buildTree fuel ch parent base = Some items →
  nav_title <$> items = topic_title <$> getTopicsByParent cats parent ∧
  nav_href <$> items =
    (fun t => base +:+ "/" +:+ topic_slug t) <$>
      getTopicsByParent cats parent.
Proof.
  intros Hch Hbuild. destruct fuel as [|fuel]; [done|].
  apply (buildTree_Some cats ch Hch) in Hbuild.
  rewrite getTopicsByParent_children, <-!list_fmap_compose.
  induction Hbuild as [|c item l items (kids & _ & ->) _ [IH1 IH2]];
    [done|].
  rewrite !fmap_cons, IH1, IH2. done.
Qed.

(** X2: the items of the navigation tree are the topics of
    [getTopicsByParent], level by level: the top level carries the titles of
    the topics whose parent is [null], in the same order, with the hrefs
    ["/topics/" + slug], and the children of the item made from a category
    carry the titles of the topics whose parent is the id of that
    category. *)
Theorem getTopicsByParent_navigation fuel cats tree :
  getNavigationTree fuel cats = Value tree →
  nav_title <$> tree = topic_title <$> getTopicsByParent cats None ∧
  nav_href <$> tree =
    (fun t => "/topics/" +:+ topic_slug t) <$> getTopicsByParent cats None ∧
  ∀ c item,
    inTree cats None tree c item →
    nav_title <$> nav_children item =
      topic_title <$> getTopicsByParent cats (Some (id c)).
Proof.
  destruct (getNavigationTree_unfold fuel cats) as (ix & Hch & ->).
  destruct (buildTree _ _ _ _) as [items|] eqn:Hbuild; [|done].
  intros [= <-].
  destruct (buildTree_titles cats _ _ _ _ _ Hch Hbuild) as [Ht Hh].
  split; [done|]. split; [exact Hh|].
  intros c item Hin.
  destruct (buildTree_inTree cats _ _ _ _ _ _ _ Hch Hbuild Hin)
    as (fuel' & base' & Hkids).
  by destruct (buildTree_titles cats _ _ _ _ _ Hch Hkids).
Qed.

Lemma getTopicsByParent_navigation_witness :
  getNavigationTree 3 siblingTaxonomy =
    Value [ mkNavItem "P" "/topics/p"
              [ mkNavItem "B" "/topics/p/b" [];
                mkNavItem "C" "/topics/p/c" [];
                mkNavItem "A" "/topics/p/a" [] ] ] ∧
  nav_title <$>
    [ mkNavItem "P" "/topics/p"
        [ mkNavItem "B" "/topics/p/b" [];
          mkNavItem "C" "/topics/p/c" [];
          mkNavItem "A" "/topics/p/a" [] ] ] =
  topic_title <$> getTopicsByParent siblingTaxonomy None.
Proof.
  split; [by vm_compute|].
  apply (getTopicsByParent_navigation 3 siblingTaxonomy). by vm_compute.
Defined.

(** ** Searching the topics *)

Lemma topicMatches_test query (t : Topic) :
  includes (toLowerCase (topic_title t)) (toLowerCase query)
  || includes (toLowerCase (topic_description t)) (toLowerCase query)
  || existsb (fun tag => includes (toLowerCase tag) (toLowerCase query))
             (topic_tags t) = true ↔
  topicMatches query t.
Proof.
  unfold topicMatches.
  rewrite !orb_true_iff, !includes_containsCI, existsb_tags_containsCI.
  tauto.
Qed.

Lemma take_all_of_short {A} n (l : list A) :
  (length (take n l) < n)%nat → take n l = l.
Proof. rewrite length_take. intros H. apply take_ge. lia. Qed.



Lemma allItems_categories fuel cats items :
  allItems fuel cats = Some items → item_category <$> items = cats.
Proof.
  unfold allItems. rewrite mapM_Some.
  induction 1 as [|c item cs its Hc _ IH]; [done|].
  apply bind_Some in Hc as (h & _ & [= <-]). by rewrite fmap_cons, IH.
Qed.

Lemma matchTypeOf_topicOf query item :
  is_Some (matchTypeOf (toLowerCase query) item) ↔
  topicMatches query (topicOf (item_category item)).
Proof. by rewrite matchTypeOf_is_Some. Qed.

Lemma found_topics query (items : list SearchItem) :
  topicOf ∘ item_category <$>
    filter (fun item => is_Some (matchTypeOf (toLowerCase query) item))
           items =
  filter (fun topic =>
            includes (toLowerCase (topic_title topic)) (toLowerCase query)
            || includes (toLowerCase (topic_description topic))
                        (toLowerCase query)
            || existsb (fun tag =>
                          includes (toLowerCase tag) (toLowerCase query))
                       (topic_tags topic) = true)
         (topicOf <$> (item_category <$> items)).
Proof.
  induction items as [|item items IH]; [done|].
  rewrite !fmap_cons, !filter_cons, <-IH.
  pose proof (matchTypeOf_topicOf query item) as Hm.
  rewrite <-topicMatches_test in Hm.
  repeat case_decide; tauto || done.
Qed.

(** X4: the search of the library and the search page find the same topics:
    when [searchTopics(query)] returns fewer than 20 topics, the results of
    the search page for the same query are made from the same categories,
    each once; the page ranks them, the library keeps the order of the
    taxonomy. *)
Theorem searchTopics_searchPage fuel cats items query :
  allItems fuel cats = Some items →
  (length (searchTopics cats query) < 20)%nat →
  topicOf ∘ item_category ∘ result_item <$>
    results (searchPage items query) ≡ₚ searchTopics cats query.
Proof.
  intros Hitems%allItems_categories. unfold searchTopics, searchPage, search.
  destruct (trim query) as [|x s]; [done|]. cbn [results].
  intros Hlen. rewrite (take_all_of_short 20 (filter _ _)) by done.
  apply take_all_of_short in Hlen as Hfull. rewrite Hfull in Hlen.
  rewrite getAllTopics_topicOf, <-Hitems, <-found_topics in Hlen |- *.
  rewrite <-found_items, <-list_fmap_compose in Hlen |- *.
  rewrite length_fmap in Hlen.
  rewrite take_ge by (rewrite (Permutation_length (sortBy_perm _ _)); lia).
  by rewrite sortBy_perm.
Qed.

Lemma searchTopics_searchPage_witness :
  title ∘ item_category ∘ result_item <$>
    results (searchPage speechItems "speech") =
    ["Speech Recognition"; "X"; "Y"] ∧
  topicOf ∘ item_category ∘ result_item <$>
    results (searchPage speechItems "speech") ≡ₚ
  searchTopics (item_category <$> speechItems) "speech".
Proof.
  split; [by vm_compute|].
  apply (searchTopics_searchPage 2 (item_category <$> speechItems)).
  - by vm_compute.
  - vm_compute. lia.
Defined.

(** ** The items of the search and the slug paths *)

Lemma buildHref_walkUp fuel c m :
  buildHref fuel c m =
  (fun p => "/topics/" +:+ join "/" p) <$> walkUp fuel m (Some c) [].
Proof. unfold buildHref. by destruct (walkUp _ _ _ _). Qed.

Lemma walkUp_last fuel m c acc r :
  walkUp fuel m (Some c) acc = Some r →
  ∃ l, chain (parentOf m) c l ∧ (length l < fuel)%nat ∧
       r = rev (slug <$> l) ++ slug c :: acc.
Proof.
  intros Hr. destruct (walkUp_Some_chain m _ _ _ _ Hr) as (l & Hl & Hlen).
  exists l. split; [done|]. split; [done|].
  rewrite (walkUp_chain m c l) in Hr by done.
  rewrite decide_True in Hr by done. congruence.
Qed.

(** X5: [getAllTopicSlugs] and [allItems] walk the same chains: one ends
    when the other does, the two lists have one entry for each category, in
    the order of the taxonomy; the href of the i-th item is ["/topics/"]
    followed by the i-th slug path joined with slashes, and that path ends
    with the slug of the i-th category itself. *)
Theorem getAllTopicSlugs_allItems fuel cats allSlugs :
  getAllTopicSlugs fuel cats = Some allSlugs →
  ∃ items,
    allItems fuel cats = Some items ∧
    item_category <$> items = cats ∧
    href <$> items = (fun p => "/topics/" +:+ join "/" p) <$> allSlugs ∧
    length allSlugs = length cats ∧
    Forall2 (fun c p => last p = Some (slug c)) cats allSlugs.
Proof.
  unfold getAllTopicSlugs, allItems. rewrite mapM_Some.
  generalize (categoryMap cats) as m. intros m.
  induction 1 as [|c p cs ps Hp _ (items & Hitems & Hcs & Hhref & Hlen & Hlast)].
  { exists []. by repeat split. }
  exists (mkSearchItem c ("/topics/" +:+ join "/" p) (getParentTitle c m)
            :: items).
  split.
  { cbn [mapM]. rewrite buildHref_walkUp, Hp. simpl.
    change (mapM ?f cs) with (mapM f cs). by rewrite Hitems. }
  split; [by rewrite fmap_cons, Hcs|].
  split; [by rewrite !fmap_cons, Hhref|].
  split; [simpl; by rewrite Hlen|].
  constructor; [|done].
  apply walkUp_last in Hp as (l & _ & _ & ->). by rewrite last_snoc.
Qed.

Lemma getAllTopicSlugs_allItems_witness :
  ∃ items,
    allItems 3 smallTaxonomy = Some items ∧
    href <$> items =
      ["/topics/foundations"; "/topics/foundations/speech-recognition";
       "/topics/guides"].
Proof.
  destruct (getAllTopicSlugs_allItems 3 smallTaxonomy
              [["foundations"]; ["foundations"; "speech-recognition"];
               ["guides"]])
    as (items & Hitems & _ & Hhref & _); [by vm_compute|].
  exists items. split; [done|]. exact Hhref.
Defined.

Lemma chain_inv_parent m c p l :
  chain (parentOf m) c l → parentOf m c = Some p →
  ∃ l', l = p :: l' ∧ chain (parentOf m) p l'.
Proof.
  intros Hl Hp. inversion Hl as [c' Hc|c' p' l' Hp' Hl']; subst.
  - congruence.
  - rewrite Hp in Hp'. injection Hp' as <-. by exists l'.
Qed.

(** X6: the hrefs of [buildHref] are nested as the categories are: the href
    of a category whose parent is found in the map is the href of the parent
    followed by a slash and the slug of the category, and the parent title
    that the search shows beside the category is the title of that
    parent. *)
Theorem buildHref_parent fuel m c p h :
  parentOf m c = Some p →
  buildHref fuel c m = Some h →
  ∃ hp,
    buildHref fuel p m = Some hp ∧
    h = hp +:+ "/" +:+ slug c ∧
    getParentTitle c m = Some (title p).
Proof.
  intros Hp. rewrite !buildHref_walkUp.
  intros (r & Hr & ->)%fmap_Some.
  apply walkUp_last in Hr as (l & Hl & Hlen & ->).
  destruct (chain_inv_parent m c p l Hl Hp) as (l' & -> & Hl').
  rewrite (walkUp_chain m p l') by done.
  rewrite decide_True by (simpl in Hlen; lia).
  eexists. split; [done|]. split.
  - rewrite <-!topics_slashes.
    + cbn [fmap list_fmap rev]. rewrite (slashes_app _ [slug c]).
      cbn [slashes]. by rewrite string_app_nil_r, string_app_assoc.
    + by destruct (rev _).
    + by destruct (rev _).
  - unfold getParentTitle. unfold parentOf in Hp.
    destruct (truthy (parentId c)); [|done]. by rewrite Hp.
Qed.

Lemma buildHref_parent_witness :
  ∃ hp,
    buildHref 3 (root "f" "Foundations" "foundations" 1)
      (categoryMap smallTaxonomy) = Some hp ∧
    "/topics/foundations/speech-recognition" =
      hp +:+ "/" +:+ slug (child "s" "Speech" "speech-recognition" "f" 1) ∧
    getParentTitle (child "s" "Speech" "speech-recognition" "f" 1)
      (categoryMap smallTaxonomy) =
      Some (title (root "f" "Foundations" "foundations" 1)).
Proof. apply (buildHref_parent 3); by vm_compute. Defined.

(** ** The keyboard of the search components *)

Lemma pressKeys_snoc items keys key st :
  pressKeys items (keys ++ [key]) st =
  afterRender items (pressKeys items keys st)
    (handleKeyDown key (pressKeys items keys st)).1.
Proof. unfold pressKeys. by rewrite foldl_app. Qed.

Lemma handleKeyDown_results key st :
  bar_results (handleKeyDown key st).1 = bar_results st.
Proof.
  destruct key; simpl; try done.
  destruct (resultAt _ _); [done|]. by destruct (trim _).
Qed.

Lemma handleKeyDown_query key st :
  bar_query (handleKeyDown key st).1 = bar_query st ∨
  bar_query (handleKeyDown key st).1 = "".
Proof.
  destruct key; simpl; auto.
  destruct (resultAt _ _); [by right|]. left. by destruct (trim _).
Qed.

Lemma inRange_step items key st :
  -1 ≤ bar_selectedIndex st < Z.of_nat (length (bar_results st)) →
  let st' := afterRender items st (handleKeyDown key st).1 in
  -1 ≤ bar_selectedIndex st' < Z.of_nat (length (bar_results st')) ∧
  (bar_results st' = bar_results st ∧ bar_query st' = bar_query st ∨
   bar_results st' = [] ∧ bar_query st' = "" ∧ bar_selectedIndex st' = -1).
Proof.
  intros Hst. cbv zeta. unfold afterRender. case_decide as Hq.
  - split; [|left; split; [apply handleKeyDown_results|done]].
    rewrite handleKeyDown_results.
    destruct st as [q rs sel o]. simpl in *.
    destruct key; simpl; unfold arrowDown, arrowUp; try done.
    + case_decide; simpl; lia.
    + case_decide; simpl; lia.
    + destruct (resultAt _ _); [done|]. by destruct (trim _).
  - destruct (handleKeyDown_query key st) as [Hsame|Hempty]; [done|].
    rewrite Hempty. simpl. split; [done|]. by right.
Qed.

(** One key that is not the enter key: the results and the query stay, and
    an arrow moves the selection by one within the list. *)
Lemma arrow_step items key st :
  key ≠ Enter →
  -1 ≤ bar_selectedIndex st < Z.of_nat (length (bar_results st)) →
  let st' := afterRender items st (handleKeyDown key st).1 in
  bar_results st' = bar_results st ∧
  bar_query st' = bar_query st ∧
  bar_selectedIndex st' =
    match key with
    | ArrowDown =>
        Z.min (bar_selectedIndex st + 1)
              (Z.of_nat (length (bar_results st)) - 1)
    | ArrowUp => Z.max (bar_selectedIndex st - 1) (-1)
    | _ => bar_selectedIndex st
    end.
Proof.
  intros Hkey Hst. cbv zeta. unfold afterRender.
  destruct st as [q rs sel o]. simpl in *.
  destruct key; try done; simpl; rewrite decide_True by done; simpl;
    (split; [done|]); (split; [done|]); unfold arrowDown, arrowUp;
    try done; case_decide; lia.
Qed.

(** Once the enter key on a selected result has cleared the query, the list
    is empty and no key changes the state any more. *)
Lemma pressKeys_cleared items keys :
  pressKeys items keys (mkBarState "" [] (-1) false) =
  mkBarState "" [] (-1) false.
Proof.
  induction keys as [|key keys IH]; [done|].
  unfold pressKeys in *. cbn [foldl].
  assert (afterRender items (mkBarState "" [] (-1) false)
            (handleKeyDown key (mkBarState "" [] (-1) false)).1 =
          mkBarState "" [] (-1) false) as ->; [|exact IH].
  by destruct key.
Qed.

(** X7: the keys never move the selection of the search bar out of the
    list.  From a state whose [selectedIndex] is [-1] or the index of a
    result, every sequence of keys — each followed by the effect that
    searches again when the query has changed — leaves [selectedIndex] at
    [-1] or at the index of a result.  The arrows do not wrap around: as
    long as the enter key is not pressed, the results and the query stay
    and each down arrow moves the selection one further, the last result
    being the end, each up arrow one back, [-1] being the end.  The results
    change on the enter key only, pressed on a selected result while the
    query is not empty: the query is cleared, the list is empty and closed
    with nothing selected, and stays so whatever key follows. *)
Theorem handleKeyDown_in_range items keys st :
  -1 ≤ bar_selectedIndex st < Z.of_nat (length (bar_results st)) →
  let st' := pressKeys items keys st in
  let last_index := Z.of_nat (length (bar_results st)) - 1 in
  -1 ≤ bar_selectedIndex st' < Z.of_nat (length (bar_results st')) ∧
  (Forall (fun key => key ≠ Enter) keys →
   bar_results st' = bar_results st ∧
   bar_query st' = bar_query st ∧
   bar_selectedIndex st' =
     foldl (fun sel key =>
              match key with
              | ArrowDown => Z.min (sel + 1) last_index
              | ArrowUp => Z.max (sel - 1) (-1)
              | _ => sel
              end) (bar_selectedIndex st) keys) ∧
  (bar_results st' = bar_results st ∧ bar_query st' = bar_query st ∨
   bar_results st' = [] ∧ bar_query st' = "" ∧ bar_selectedIndex st' = -1) ∧
  (∀ key,
     bar_results (pressKeys items [key] st) ≠ bar_results st →
     key = Enter ∧ 0 ≤ bar_selectedIndex st ∧ bar_query st ≠ "") ∧
  (0 ≤ bar_selectedIndex st → bar_query st ≠ "" →
   pressKeys items (Enter :: keys) st = mkBarState "" [] (-1) false).
Proof.
  intros Hst. cbv zeta.
  assert (∀ ks,
            -1 ≤ bar_selectedIndex (pressKeys items ks st)
               < Z.of_nat (length (bar_results (pressKeys items ks st))) ∧
            (bar_results (pressKeys items ks st) = bar_results st ∧
             bar_query (pressKeys items ks st) = bar_query st ∨
             bar_results (pressKeys items ks st) = [] ∧
             bar_query (pressKeys items ks st) = "" ∧
             bar_selectedIndex (pressKeys items ks st) = -1)) as Hall.
  { intros ks. induction ks as [|key ks [IH Hres]] using rev_ind;
      [by auto|].
    rewrite pressKeys_snoc.
    destruct (inRange_step items key (pressKeys items ks st) IH)
      as [Hrange Hstep].
    split; [done|].
    destruct Hstep as [[Hr Hq]|Hempty]; [|by right].
    destruct Hres as [[Hr0 Hq0]|(Hr0 & Hq0 & _)].
    - left. by rewrite Hr, Hq.
    - right. rewrite Hr, Hr0 in Hrange. simpl in Hrange.
      rewrite Hr, Hq. split; [done|]. split; [done|lia]. }
  destruct (Hall keys) as [Hrange Hres].
  split; [done|]. split; [|split; [done|split]].
  - clear Hrange Hres.
    induction keys as [|key keys IH] using rev_ind; [done|].
    intros [Hkeys [Hkey _]%Forall_cons]%Forall_app.
    destruct (IH Hkeys) as (Hr & Hq & Hsel).
    rewrite pressKeys_snoc, foldl_app. cbn [foldl].
    destruct (arrow_step items key (pressKeys items keys st) Hkey
                (proj1 (Hall keys)))
      as (Hr' & Hq' & Hsel').
    rewrite Hr', Hq', Hsel', Hr, Hq, Hsel. done.
  - intros key Hchanged.
    destruct (decide (key = Enter)) as [->|Hkey].
    + split; [done|]. unfold pressKeys in Hchanged. cbn [foldl] in Hchanged.
      unfold afterRender in Hchanged. case_decide as Hq.
      { by rewrite handleKeyDown_results in Hchanged. }
      destruct st as [q rs sel o]. simpl in *.
      unfold resultAt in Hq. case_decide as Hsel.
      * split; [done|]. intros ->.
        destruct (rs !! Z.to_nat sel); [done|]. by destruct (trim "").
      * by destruct (trim q).
    + destruct (arrow_step items key st Hkey Hst) as (Hr & _).
      by destruct Hchanged.
  - intros Hsel Hq. unfold pressKeys. cbn [foldl].
    assert (afterRender items st (handleKeyDown Enter st).1 =
            mkBarState "" [] (-1) false) as ->;
      [|apply pressKeys_cleared].
    destruct st as [q rs sel o]. simpl in *.
    unfold resultAt. rewrite decide_True by done.
    destruct (rs !! Z.to_nat sel) as [r|] eqn:Hr.
    + unfold afterRender. simpl. by rewrite decide_False.
    + apply lookup_ge_None in Hr. lia.
Qed.

Lemma handleKeyDown_in_range_witness :
  bar_selectedIndex
    (pressKeys speechItems
       [ArrowDown; ArrowDown; ArrowDown; ArrowDown; ArrowUp; Escape]
       (typed speechItems "speech")) = 1 ∧
  pressKeys speechItems
    [Enter; ArrowDown; ArrowDown]
    (pressKeys speechItems [ArrowDown] (typed speechItems "speech")) =
  mkBarState "" [] (-1) false.
Proof.
  split.
  - destruct (handleKeyDown_in_range speechItems
                [ArrowDown; ArrowDown; ArrowDown; ArrowDown; ArrowUp; Escape]
                (typed speechItems "speech"))
      as (_ & Harrows & _).
    { vm_compute. split; [by intros [=] | done]. }
    destruct Harrows as (_ & _ & ->); [|by vm_compute].
    repeat (constructor; [done|]). constructor.
  - apply (handleKeyDown_in_range speechItems [ArrowDown; ArrowDown]
             (pressKeys speechItems [ArrowDown]
                        (typed speechItems "speech"))).
    + vm_compute. split; [by intros [=] | done].
    + by vm_compute.
    + by vm_compute.
Defined.

Lemma pressKeys_arrowDown items n st :
  bar_selectedIndex st = -1 →
  pressKeys items (replicate n ArrowDown) st =
  mkBarState (bar_query st) (bar_results st)
    (Z.min (Z.of_nat n - 1) (Z.of_nat (length (bar_results st)) - 1))
    (bar_isOpen st).
Proof.
  intros Hsel. induction n as [|n IH].
  - destruct st as [q rs sel o]. simpl in *. subst sel. f_equal. lia.
  - replace (replicate (S n) ArrowDown)
      with (replicate n ArrowDown ++ [ArrowDown])
      by (by rewrite <-replicate_S_end).
    rewrite pressKeys_snoc, IH. unfold afterRender. simpl.
    rewrite decide_True by done. f_equal.
    unfold arrowDown. case_decide; lia.
Qed.

(** X8: key by key to a result.  Once [search] has set the state for a
    query, [n] presses of the down arrow select the result of index [n - 1],
    or the last result when there are fewer than [n]; and after [k + 1]
    presses, the enter key opens the href of the result of rank [k], closes
    the list and clears the query. *)
Theorem handleKeyDown_select items query n :
  let st := typed items query in
  let shown := results (searchBar items query) in
  bar_selectedIndex (pressKeys items (replicate n ArrowDown) st) =
    Z.min (Z.of_nat n - 1) (Z.of_nat (length shown) - 1) ∧
  ∀ k r,
    shown !! k = Some r →
    handleKeyDown Enter (pressKeys items (replicate (S k) ArrowDown) st) =
      (mkBarState "" shown (Z.of_nat k) false,
       Some (ToHref (href (result_item r)))).
Proof.
  cbv zeta.
  assert (bar_selectedIndex (typed items query) = -1) as Hsel.
  { unfold typed, searchBar, search. by destruct (trim query). }
  assert (bar_results (typed items query) = results (searchBar items query))
    as Hres by done.
  split; [by rewrite pressKeys_arrowDown, ?Hres|].
  intros k r Hk. rewrite pressKeys_arrowDown, Hres by done.
  apply lookup_lt_Some in Hk as Hlt.
  replace (Z.min _ _) with (Z.of_nat k) by lia.
  cbn [handleKeyDown bar_results bar_selectedIndex]. unfold resultAt.
  rewrite decide_True by lia. by rewrite Nat2Z.id, Hk.
Qed.

Lemma handleKeyDown_select_witness :
  handleKeyDown Enter
    (pressKeys speechItems [ArrowDown; ArrowDown]
               (typed speechItems "speech")) =
  (mkBarState "" (results (searchBar speechItems "speech")) 1 false,
   Some (ToHref "/topics/x")).
Proof.
  destruct (handleKeyDown_select speechItems "speech" 2) as [_ Henter].
  exact (Henter 1%nat _ eq_refl).
Defined.

(** X9: the enter key of the search bar right after a search, before any
    arrow: no result is selected, so no result is opened; the search page is
    opened for the query as typed, and the list closed, exactly when the
    query is not blank; for a blank query nothing happens. *)
Theorem handleKeyDown_enter_unselected items query :
  (whitespaceOnly query →
   handleKeyDown Enter (typed items query) = (typed items query, None)) ∧
  (¬ whitespaceOnly query →
   handleKeyDown Enter (typed items query) =
     (mkBarState query (results (searchBar items query)) (-1) false,
      Some (ToSearch query))).
Proof.
  pose proof (trim_empty query) as Hblank.
  assert (typed items query =
          mkBarState query (results (searchBar items query)) (-1) true)
    as ->.
  { unfold typed, searchBar, search. by destruct (trim query). }
  unfold handleKeyDown.
  cbn [bar_query bar_results bar_selectedIndex bar_isOpen].
  change (resultAt _ (-1)) with (@None SearchResult).
  destruct (trim query) as [|x s] eqn:Htrim.
  - split; [done|]. intros []. by apply Hblank.
  - split; [|done]. intros H%Hblank. done.
Qed.

Lemma handleKeyDown_enter_unselected_witness :
  handleKeyDown Enter (typed speechItems "  ") =
    (typed speechItems "  ", None) ∧
  handleKeyDown Enter (typed speechItems "speech") =
    (mkBarState "speech" (results (searchBar speechItems "speech")) (-1)
                false,
     Some (ToSearch "speech")).
Proof.
  split.
  - apply (handleKeyDown_enter_unselected speechItems "  ").
    apply trim_empty. by vm_compute.
  - apply (handleKeyDown_enter_unselected speechItems "speech").
    intros H%trim_empty. by vm_compute in H.
Defined.

(** X10: what the keys may open.  The search bar calls [router.push] on the
    enter key only, with the href of one of its results or with the search
    page for a query that is not blank; the search page calls it on the
    enter key only and with the href of one of its results only, and it
    changes nothing of its state but the query, which the escape key
    clears. *)
Theorem keys_navigation key :
  (∀ st st' nav,
     handleKeyDown key st = (st', Some nav) →
     key = Enter ∧
     ((∃ r, r ∈ bar_results st ∧ nav = ToHref (href (result_item r))) ∨
      (nav = ToSearch (bar_query st) ∧ ¬ whitespaceOnly (bar_query st)))) ∧
  (∀ st st' nav,
     pageKeyDown key st = (st', Some nav) →
     key = Enter ∧ st' = st ∧
     ∃ r, r ∈ page_results st ∧ nav = ToHref (href (result_item r))) ∧
  (∀ st,
     page_results (pageKeyDown key st).1 = page_results st ∧
     (key ≠ Escape → page_query (pageKeyDown key st).1 = page_query st) ∧
     (key ≠ ArrowDown → key ≠ ArrowUp →
      page_selectedIndex (pageKeyDown key st).1 = page_selectedIndex st)).
Proof.
  split; [|split].
  - intros st st' nav. destruct key; simpl; try done.
    unfold resultAt. case_decide.
    + destruct (bar_results st !! _) as [r|] eqn:Hr.
      * intros [= _ <-]. split; [done|]. left. exists r. split; [|done].
        by eapply list_elem_of_lookup_2.
      * destruct (trim _) eqn:Htrim; [done|]. intros [= _ <-].
        split; [done|]. right. split; [done|]. rewrite <-trim_empty.
        by rewrite Htrim.
    + destruct (trim _) eqn:Htrim; [done|]. intros [= _ <-].
      split; [done|]. right. split; [done|]. rewrite <-trim_empty.
      by rewrite Htrim.
  - intros st st' nav. destruct key; simpl; try done.
    unfold resultAt. case_decide; [|done].
    destruct (page_results st !! _) as [r|] eqn:Hr; [|done].
    intros [= <- <-]. split; [done|]. split; [done|]. exists r.
    split; [|done]. by eapply list_elem_of_lookup_2.
  - intros st. destruct key; simpl; try done;
      destruct (resultAt _ _); done.
Qed.

Lemma keys_navigation_witness :
  Enter = Enter ∧
  ((∃ r, r ∈ bar_results (typed speechItems "speech") ∧
         ToSearch "speech" = ToHref (href (result_item r))) ∨
   (ToSearch "speech" = ToSearch (bar_query (typed speechItems "speech")) ∧
    ¬ whitespaceOnly (bar_query (typed speechItems "speech")))).
Proof.
  destruct (keys_navigation Enter) as [Hbar _].
  eapply Hbar. by vm_compute.
Defined.

(** X11: the two arrows undo each other.  On a selection that the down
    arrow can move, the up arrow after it restores the selection; on a
    selected result, the down arrow after the up arrow restores it. *)
Theorem arrows_inverse st :
  let down st := (handleKeyDown ArrowDown st).1 in
  let up st := (handleKeyDown ArrowUp st).1 in
  (-1 ≤ bar_selectedIndex st < Z.of_nat (length (bar_results st)) - 1 →
   up (down st) = st) ∧
  (0 ≤ bar_selectedIndex st < Z.of_nat (length (bar_results st)) →
   down (up st) = st).
Proof.
  destruct st as [q rs sel o]. simpl. unfold arrowDown, arrowUp.
  split; intros Hsel; f_equal; repeat case_decide; lia.
Qed.

Lemma arrows_inverse_witness :
  (handleKeyDown ArrowUp
     (handleKeyDown ArrowDown (typed speechItems "speech")).1).1 =
  typed speechItems "speech".
Proof.
  apply (arrows_inverse (typed speechItems "speech")). by vm_compute.
Defined.

(** ** The groups and the tags of the search page *)

Lemma rootWalk_top m c l fuel rootId :
  chain (parentOf m) c l → (length l < fuel)%nat →
  m !! rootId = Some c →
  ∃ rootId',
    rootWalk fuel m (Some c) rootId = Some rootId' ∧
    m !! rootId' =
      match truthy (parentId (topOf c l)) with
      | None => Some (topOf c l)
      | Some _ => None
      end.
Proof.
  intros Hl. revert fuel rootId.
  induction Hl as [c Hc|c p l Hp _ IH]; intros fuel rootId Hlen Hroot.
  - destruct fuel as [|fuel]; [simpl in Hlen; lia|].
    unfold parentOf in Hc. unfold topOf. simpl.
    destruct (truthy (parentId c)) as [pid|] eqn:Hpid.
    + exists pid. split; [|done]. rewrite Hc. by destruct fuel.
    + by exists rootId.
  - destruct fuel as [|fuel]; [simpl in Hlen; lia|].
    rewrite topOf_cons. unfold parentOf in Hp. simpl.
    destruct (truthy (parentId c)) as [pid|] eqn:Hpid; [|done].
    rewrite Hp. apply IH; [simpl in Hlen; lia | done].
Qed.

(** X12: the group of a result of the search page.  The walk of
    [groupedResults] ends at the top of the parent chain of the category
    filed under the id of the result.  When that top category has no parent
    id, the group is its title, or ["Other"] when the title is empty; when
    it names a parent that is not in the map, the group is ["Other"], though
    [buildHref] takes the same category for a root.  A result and the
    results made of its ancestors are all in one group. *)
Theorem groupNameOf_top fuel m r c l :
  m !! id (item_category (result_item r)) = Some c →
  chain (parentOf m) c l →
  (length l < fuel)%nat →
  groupNameOf fuel m r =
    Some (match truthy (parentId (topOf c l)) with
          | None => titleOrOther (Some (topOf c l))
          | Some _ => "Other"
          end) ∧
  ∀ r' a,
    a ∈ l → m !! id (item_category (result_item r')) = Some a →
    groupNameOf fuel m r' = groupNameOf fuel m r.
Proof.
  intros Hr Hl Hlen.
  assert (∀ r' a l',
            m !! id (item_category (result_item r')) = Some a →
            chain (parentOf m) a l' → (length l' < fuel)%nat →
            groupNameOf fuel m r' =
              Some (match truthy (parentId (topOf a l')) with
                    | None => titleOrOther (Some (topOf a l'))
                    | Some _ => "Other"
                    end)) as Hgroup.
  { intros r' a l' Hr' Hl' Hlen'. unfold groupNameOf. rewrite Hr'.
    destruct (rootWalk_top m a l' fuel _ Hl' Hlen' Hr')
      as (rootId' & -> & Htop).
    simpl. rewrite Htop. by destruct (truthy _). }
  split; [by apply Hgroup|].
  intros r' a (l1 & l2 & ->)%list_elem_of_split Hr'.
  rewrite (Hgroup r c _ Hr Hl Hlen).
  rewrite (Hgroup r' a l2 Hr' (chain_suffix _ _ _ _ _ Hl)).
  - by rewrite topOf_app.
  - rewrite length_app in Hlen. simpl in Hlen. lia.
Qed.

Lemma groupNameOf_top_witness :
  groupNameOf 3 (categoryMap smallTaxonomy)
    (mkSearchResult
       (mkSearchItem (child "s" "Speech" "speech-recognition" "f" 1)
                     "/topics/foundations/speech-recognition"
                     (Some "Foundations"))
       Title) = Some "Foundations".
Proof.
  apply (groupNameOf_top 3 (categoryMap smallTaxonomy) _
           (child "s" "Speech" "speech-recognition" "f" 1)
           [root "f" "Foundations" "foundations" 1]).
  - by vm_compute.
  - apply chain_step; [by vm_compute|]. apply chain_root. by vm_compute.
  - simpl. lia.
Defined.



(** ** The ids of the headings *)

Lemma toLowerCase_fixed s :
  allChars (fun c => negb (isUpper c)) s = true → toLowerCase s = s.
Proof.
  induction s as [|c s IH]; simpl; [done|].
  intros [Hc Hs]%andb_true_iff. rewrite IH by done. f_equal.
  unfold lowerChar. apply negb_true_iff in Hc. by rewrite Hc.
Qed.

Lemma toLowerCase_not_upper s :
  allChars (fun c => negb (isUpper c)) (toLowerCase s) = true.
Proof.
  induction s as [|c s IH]; simpl; [done|]. rewrite IH, andb_true_r.
  unfold lowerChar. destruct (isUpper c) eqn:Hc; [|by rewrite Hc].
  unfold isUpper, code in *. 
  apply andb_true_iff in Hc as [H1%N.leb_le H2%N.leb_le].
  rewrite N_ascii_embedding by lia. apply negb_true_iff, andb_false_iff.
  right. apply N.leb_gt. lia.
Qed.

Lemma isAlnum_not_upper c : isAlnum c = true → isUpper c = false.
Proof.
  unfold isAlnum, isLower, isDigit, isUpper.
  intros [[H1%N.leb_le H2%N.leb_le]%andb_true_iff
         |[H1%N.leb_le H2%N.leb_le]%andb_true_iff]%orb_true_iff;
    apply andb_false_iff.
  - right. apply N.leb_gt. lia.
  - left. apply N.leb_gt. lia.
Qed.

Lemma word_not_upper w :
  allChars isAlnum w = true →
  allChars (fun c => negb (isUpper c)) w = true.
Proof.
  induction w as [|c w IH]; simpl; [done|].
  intros [Hc Hw]%andb_true_iff. by rewrite (isAlnum_not_upper c), IH.
Qed.

Lemma join_hyphen_cons w w' ws :
  join "-" (w :: w' :: ws) = w +:+ "-" +:+ join "-" (w' :: ws).
Proof. done. Qed.

Lemma join_hyphen_not_upper ws :
  Forall isWord ws →
  allChars (fun c => negb (isUpper c)) (join "-" ws) = true.
Proof.
  induction 1 as [|w ws [_ Hw] Hws IH]; [done|].
  destruct ws as [|w' ws]; [by apply word_not_upper|].
  rewrite join_hyphen_cons, !allChars_app, IH, (word_not_upper w) by done.
  done.
Qed.

Lemma alnumWords_word w rest :
  isWord w → stopsAt isAlnum rest = true →
  alnumWords (w +:+ rest) = w :: alnumWords rest.
Proof.
  intros [Hne Hw] Hrest. induction w as [|c w IH]; [done|].
  simpl in Hw. apply andb_true_iff in Hw as [Hc Hw].
  rewrite string_app_cons. simpl alnumWords.
  rewrite notAlnum_isAlnum, Hc. simpl.
  destruct w as [|d w].
  - rewrite string_app_nil_l, Hrest. done.
  - rewrite IH by done. rewrite string_app_cons. simpl stopsAt.
    simpl in Hw. apply andb_true_iff in Hw as [Hd _]. by rewrite Hd.
Qed.

Lemma alnumWords_join ws :
  Forall isWord ws → alnumWords (join "-" ws) = ws.
Proof.
  induction 1 as [|w ws Hw Hws IH]; [done|].
  destruct ws as [|w' ws].
  - change (join "-" [w]) with w. rewrite <-(string_app_nil_r w) at 1.
    by rewrite alnumWords_word.
  - rewrite join_hyphen_cons, alnumWords_word by done.
    f_equal. rewrite string_app_cons, string_app_nil_l.
    simpl alnumWords. exact IH.
Qed.

(** X14: the id of a heading is in normal form — lowercase words of letters
    and digits, joined by single hyphens — so that making the id of an id
    changes nothing, and the letter case of the text does not matter; the
    ids of the table of contents are such ids. *)
Theorem headingId_idempotent text :
  headingId (headingId text) = headingId text ∧
  headingId (toLowerCase text) = headingId text ∧
  ∀ content item,
    item ∈ extractTableOfContents content →
    headingId (toc_id item) = toc_id item.
Proof.
  assert (∀ t, headingId (headingId t) = headingId t) as Hidem.
  { intros t. rewrite !headingId_words.
    pose proof (alnumWords_isWord (toLowerCase t)) as Hws.
    rewrite toLowerCase_fixed by by apply join_hyphen_not_upper.
    by rewrite alnumWords_join. }
  split; [done|]. split.
  - rewrite !headingId_words. f_equal. f_equal.
    apply toLowerCase_fixed, toLowerCase_not_upper.
  - intros content item (groups & -> & _)%list_elem_of_fmap.
    unfold tocItem. simpl. apply Hidem.
Qed.

Lemma headingId_idempotent_witness :
  headingId "speech-to-text" = "speech-to-text".
Proof.
  destruct (headingId_idempotent "Speech to Text") as (_ & _ & Hitems).
  apply (Hitems "## Speech to Text"
           (mkTableOfContentsItem "speech-to-text" "Speech to Text" 2)).
  apply (bool_decide_unpack _). by vm_compute.
Defined.

(** ** Paths and their prefixes *)

Lemma resolves_app_inv cats parent p q last :
  resolves cats parent (p ++ q) last →
  ∃ mid, resolves cats parent p mid ∧ resolves cats mid q last.
Proof.
  revert parent. induction p as [|s p IH]; intros parent; simpl.
  - intros H. exists parent. split; [constructor|done].
  - intros H. inversion H as [|? ? ? c ? Hc Hrest]; subst.
    destruct (IH _ Hrest) as (mid & Hp & Hq).
    exists mid. split; [|done]. by econstructor.
Qed.

Lemma resolves_snoc cats parent p mid s c :
  resolves cats parent p mid → firstChild cats mid s c →
  resolves cats parent (p ++ [s]) (Some (id c)).
Proof.
  induction 1 as [parent|parent s' rest c' last Hc' _ IH]; intros Hc; simpl.
  - econstructor; [done|constructor].
  - econstructor; [done|]. by apply IH.
Qed.

Lemma getTopicMetadata_resolves cats path c :
  getTopicMetadata cats path = Value (Some c) ↔
  ∃ i, resolves cats None path (Some i) ∧ i ≠ "" ∧
       categoryMap cats !! i = Some c.
Proof.
  unfold getTopicMetadata, findTopicBySlugPath.
  destruct (indexCategories_init cats) as (ix & -> & Hid & Hch). simpl.
  rewrite Hid.
  destruct (descend (childrenMap ix) None path) as [parent|] eqn:Hd.
  - apply (descend_Some cats _ Hch) in Hd.
    destruct parent as [[|x i]|]; simpl.
    + split; [done|]. intros (i & Hi & Hne & _).
      pose proof (proj2 (descend_Some cats _ Hch None path _) Hd) as E1.
      pose proof (proj2 (descend_Some cats _ Hch None path _) Hi) as E2.
      congruence.
    + split.
      * intros [= Hc]. by exists (String x i).
      * intros (j & Hj & _ & Hc).
        pose proof (proj2 (descend_Some cats _ Hch None path _) Hd) as E1.
        pose proof (proj2 (descend_Some cats _ Hch None path _) Hj) as E2.
        assert (j = String x i) as -> by congruence. by rewrite Hc.
    + split; [done|]. intros (i & Hi & _ & _).
      pose proof (proj2 (descend_Some cats _ Hch None path _) Hd) as E1.
      pose proof (proj2 (descend_Some cats _ Hch None path _) Hi) as E2.
      congruence.
  - split; [done|]. intros (i & Hi & _ & _).
    apply (descend_Some cats _ Hch) in Hi. congruence.
Qed.

(** X15: the topic found for a path is a child of the topic found for the
    path without its last segment.  When no id is empty, a path that
    resolves has only prefixes that resolve; and when the ids are unique,
    the topic of the path has the last segment for its slug and the id of
    the topic of the prefix for its [parentId]. *)
Theorem getTopicMetadata_prefix cats path s c :
  nonEmptyIds cats → path ≠ [] →
  getTopicMetadata cats (path ++ [s]) = Value (Some c) →
  ∃ c',
    getTopicMetadata cats path = Value (Some c') ∧
    (uniqueIds cats → parentId c = Some (id c') ∧ slug c = s).
Proof.
  intros Hne Hpath (i & Hres & Hi & Hc)%getTopicMetadata_resolves.
  apply resolves_app_inv in Hres as (mid & Hp & Hs).
  inversion Hs as [|? ? ? c0 ? Hc0 Hnil]; subst.
  inversion Hnil; subst.
  destruct (resolves_last _ _ _ _ Hp) as [[-> _]|(c1 & Hc1 & ->)]; [done|].
  destruct (categoryMap_lookup_is_Some cats c1 Hc1) as [c' Hc'].
  exists c'. split.
  - apply getTopicMetadata_resolves. exists (id c1). split; [done|].
    split; [|done]. by apply (proj1 (Forall_forall _ _) Hne).
  - intros Hunique.
    destruct Hc0 as (before & after & Hch & Hslug & _).
    assert (c0 ∈ childrenOf cats (Some (id c1))) as Hin.
    { rewrite Hch. apply elem_of_app. right. left. }
    apply elem_of_childrenOf in Hin as [Hin Hparent].
    rewrite (categoryMap_lookup_NoDup cats c0 Hunique Hin) in Hc.
    injection Hc as <-.
    rewrite (categoryMap_lookup_NoDup cats c1 Hunique Hc1) in Hc'.
    injection Hc' as <-. done.
Qed.

Lemma getTopicMetadata_prefix_witness :
  ∃ c',
    getTopicMetadata smallTaxonomy ["foundations"] = Value (Some c') ∧
    (uniqueIds smallTaxonomy →
     parentId (child "s" "Speech" "speech-recognition" "f" 1) =
       Some (id c') ∧
     slug (child "s" "Speech" "speech-recognition" "f" 1) =
       "speech-recognition").
Proof.
  apply (getTopicMetadata_prefix smallTaxonomy ["foundations"]).
  - unfold nonEmptyIds. by repeat constructor.
  - done.
  - by vm_compute.
Defined.

(** ** The buckets of the index *)

Lemma indexCategory_buckets ix cat ix' :
  (∀ k l, childrenMap ix !! k = Some l → l ≠ []) →
  indexCategory ix cat = Value ix' →
  ∀ k l, childrenMap ix' !! k = Some l → l ≠ [].
Proof.
  intros Hix. unfold indexCategory.
  destruct (childrenMap ix !! parentId cat) as [bucket|] eqn:Hb.
  - rewrite Hb. intros [= <-] k l. simpl. rewrite lookup_insert.
    case_decide; [|by apply Hix]. intros [= <-]. by destruct bucket.
  - rewrite lookup_insert_eq. intros [= <-] k l. simpl.
    rewrite insert_insert_eq, lookup_insert.
    case_decide; [|by apply Hix]. by intros [= <-].
Qed.

Lemma indexCategories_buckets_from cats ix ix' :
  (∀ k l, childrenMap ix !! k = Some l → l ≠ []) →
  indexCategories ix cats = Value ix' →
  ∀ k l, childrenMap ix' !! k = Some l → l ≠ [].
Proof.
  revert ix. induction cats as [|cat cats IH]; intros ix Hix; simpl.
  - by intros [= <-].
  - destruct (indexCategory ix cat) as [ix1| |] eqn:H1; try done. simpl.
    apply IH. by eapply indexCategory_buckets.
Qed.

Lemma categoryMap_last cats i :
  categoryMap cats !! i = last (filter (fun c => id c = i) cats).
Proof.
  induction cats as [|c cats IH] using rev_ind; [done|].
  rewrite categoryMap_snoc, lookup_insert, filter_app, filter_cons, filter_nil.
  case_decide.
  - by rewrite last_snoc.
  - by rewrite app_nil_r.
Qed.

(** X16: the index that [getNavigationTree] and [findTopicBySlugPath] build
    first.  Building it never throws: the bucket that [push] is called on is
    always there.  A bucket exists for exactly the values of [parentId] that
    occur, and holds the categories with that [parentId] in the order of the
    taxonomy, so that no bucket is empty and every category is in exactly
    one bucket; the map by id holds, for each id, the last category that
    carries it. *)
Theorem indexCategories_buckets cats :
  ∃ ix,
    indexCategories (mkIndex ∅ ∅) cats = Value ix ∧
    (∀ k, childrenMap ix !! k =
          if decide (childrenOf cats k = []) then None
          else Some (childrenOf cats k)) ∧
    (∀ c, c ∈ cats →
       ∀ k, c ∈ default [] (childrenMap ix !! k) ↔ k = parentId c) ∧
    (∀ i, byId ix !! i = last (filter (fun c => id c = i) cats)).
Proof.
  destruct (indexCategories_init cats) as (ix & Hix & Hid & Hch).
  exists ix. split; [done|]. split; [|split].
  - intros k. specialize (Hch k).
    destruct (childrenMap ix !! k) as [l|] eqn:Hk; simpl in Hch.
    + rewrite <-Hch. rewrite decide_False; [done|].
      eapply (indexCategories_buckets_from cats (mkIndex ∅ ∅)); [|done..].
      intros k' l'. simpl. by rewrite lookup_empty.
    + by rewrite <-Hch, decide_True.
  - intros c Hc k. rewrite Hch, elem_of_childrenOf.
    split; [by intros [_ ->] | by intros ->].
  - intros i. rewrite Hid. apply categoryMap_last.
Qed.

Lemma indexCategories_buckets_witness :
  ∃ ix,
    indexCategories (mkIndex ∅ ∅) smallTaxonomy = Value ix ∧
    ∀ k, root "f" "Foundations" "foundations" 1
           ∈ default [] (childrenMap ix !! k) ↔ k = None.
Proof.
  destruct (indexCategories_buckets smallTaxonomy) as (ix & Hix & _ & Hin & _).
  exists ix. split; [done|].
  apply (Hin (root "f" "Foundations" "foundations" 1)). left.
Defined.

(** ** Longer queries *)




(** ** What stripping the links removes *)

Lemma lit_inv {R} c s (k : string → option R) r :
  lit c s k = Some r → ∃ s', s = String c s' ∧ k s' = Some r.
Proof.
  destruct s as [|d s]; simpl; [done|]. case_bool_decide; [|done].
  subst. intros Hk. by exists s.
Qed.

Lemma linkRegex_inv prev s t rest :
  linkRegex prev s = Some (t, rest) →
  ∃ u, s = "[" +:+ t +:+ "](" +:+ u +:+ ")" +:+ rest ∧
       t ≠ "" ∧ u ≠ "" ∧
       allChars (isNot "]") t = true ∧ allChars (isNot ")") u = true.
Proof.
  unfold linkRegex.
  intros (s1 & -> & H1)%lit_inv.
  apply rep_inv in H1 as (t' & s2 & -> & Ht & Htlen & _ & H2).
  rewrite string_app_nil_l in H2.
  apply lit_inv in H2 as (s3 & -> & H3).
  apply lit_inv in H3 as (s4 & -> & H4).
  apply rep_inv in H4 as (u & s5 & -> & Hu & Hulen & _ & H5).
  apply lit_inv in H5 as (s6 & -> & [= <- <-]).
  exists u. split; [done|].
  split; [intros ->; simpl in *; lia|].
  split; [intros ->; simpl in *; lia|]. done.
Qed.

Lemma replaceAll_link_shorter s :
  ∀ prev skip,
    (skip ≤ String.length s)%nat →
    let out := replaceAll linkRegex prev s skip in
    (∃ a, s = a +:+ out ∧ String.length a = skip) ∨
    (String.length out + skip + 5 ≤ String.length s)%nat.
Proof.
  induction s as [|c s IH]; intros prev skip Hskip; cbv zeta.
  { left. exists "". simpl in *. split; [done|lia]. }
  destruct skip as [|n].
  - cbn [replaceAll].
    destruct (linkRegex prev (String c s)) as [[t rest]|] eqn:Hre.
    + right.
      apply linkRegex_inv in Hre as (u & Hs & Ht & Hu & _ & _).
      apply (f_equal String.length) in Hs as Hlen.
      rewrite !string_length_app in Hlen. cbn [String.length] in Hlen.
      assert (String.length u ≠ 0)%nat by by destruct u.
      rewrite string_length_app.
      destruct (IH (Some c)
                  (String.length (String c s) - String.length rest - 1)%nat)
        as [(a & Ha & Halen)|Hshort].
      * cbn [String.length]. lia.
      * apply (f_equal String.length) in Ha.
        rewrite string_length_app in Ha. cbn [String.length] in *. lia.
      * cbn [String.length] in *. lia.
    + destruct (IH (Some c) 0%nat) as [(a & Ha & Halen)|Hshort];
        [lia| |].
      * left. exists "". split; [|done]. destruct a; [|done].
        rewrite string_app_nil_l in Ha. by rewrite string_app_nil_l, <-Ha.
      * right. cbn [String.length]. lia.
  - cbn [replaceAll]. cbn [String.length] in Hskip.
    destruct (IH (Some c) n) as [(a & Ha & Halen)|Hshort]; [lia| |].
    + left. exists (String c a). split.
      * by rewrite string_app_cons, <-Ha.
      * simpl. by rewrite Halen.
    + right. cbn [String.length]. lia.
Qed.

(** X18: [stripMarkdownLinks] never adds to a text: either it leaves the
    text as it is, or the result is shorter by at least five characters —
    the brackets and parentheses of a link and at least one character of
    its address. *)
Theorem stripMarkdownLinks_shorter text :
  stripMarkdownLinks text = text ∨
  (String.length (stripMarkdownLinks text) + 5 ≤ String.length text)%nat.
Proof.
  unfold stripMarkdownLinks.
  destruct (replaceAll_link_shorter text None 0%nat)
    as [(a & Ha & Halen)|Hshort]; [lia| |].
  - left. destruct a; [|done]. by rewrite string_app_nil_l in Ha.
  - right. lia.
Qed.

(** ** From a category to its path and back *)

Lemma parentOf_resolved cats c :
  nonEmptyIds cats → uniqueIds cats → parentsResolve cats → c ∈ cats →
  match parentOf (categoryMap cats) c with
  | None => parentId c = None
  | Some p => p ∈ cats ∧ parentId c = Some (id p)
  end.
Proof.
  intros Hne Hunique Hres Hc.
  destruct (proj1 (Forall_forall _ _) Hres c Hc) as [Hroot|(p & Hp & Hpar)];
    unfold parentOf; rewrite ?Hroot, ?Hpar; simpl; [done|].
  pose proof (proj1 (Forall_forall _ _) Hne p Hp) as Hid.
  destruct (id p) as [|x i] eqn:Hidp; [done|]. rewrite <-Hidp.
  by rewrite (categoryMap_lookup_NoDup cats p Hunique Hp).
Qed.

Lemma firstChild_unique cats c :
  uniqueIds cats → siblingSlugsUnique cats → c ∈ cats →
  firstChild cats (parentId c) (slug c) c.
Proof.
  intros Hunique Hsib Hc.
  assert (c ∈ childrenOf cats (parentId c)) as Hin
    by by apply elem_of_childrenOf.
  apply list_elem_of_split in Hin as (before & after & Hsplit).
  exists before, after. split; [done|]. split; [done|].
  apply Forall_forall. intros x Hx Hslug.
  assert (x ∈ childrenOf cats (parentId c)) as Hxin.
  { rewrite Hsplit. apply elem_of_app. by left. }
  apply elem_of_childrenOf in Hxin as [Hxcats Hxpar].
  assert (x = c) as ->.
  { pose proof (proj1 (Forall_forall _ _) Hsib x Hxcats) as Hx1.
    by apply (proj1 (Forall_forall _ _) Hx1 c Hc). }
  assert (NoDup (childrenOf cats (parentId c))) as Hnd.
  { unfold childrenOf. apply NoDup_filter.
    by apply (NoDup_fmap_1 id). }
  rewrite Hsplit in Hnd. apply NoDup_app in Hnd as (_ & Hnd & _).
  apply (Hnd c Hx). left.
Qed.

Lemma chain_resolves cats c l :
  nonEmptyIds cats → uniqueIds cats → siblingSlugsUnique cats →
  parentsResolve cats →
  chain (parentOf (categoryMap cats)) c l → c ∈ cats →
  resolves cats None (rev (slug <$> l) ++ [slug c]) (Some (id c)).
Proof.
  intros Hne Hunique Hsib Hres.
  induction 1 as [c Hroot|c p l Hp _ IH]; intros Hc.
  - pose proof (parentOf_resolved cats c Hne Hunique Hres Hc) as Hpar.
    rewrite Hroot in Hpar. simpl.
    econstructor; [|constructor]. rewrite <-Hpar.
    by apply firstChild_unique.
  - pose proof (parentOf_resolved cats c Hne Hunique Hres Hc) as Hpar.
    rewrite Hp in Hpar. destruct Hpar as [Hpin Hpar].
    rewrite fmap_cons. cbn [rev].
    eapply resolves_snoc; [by apply IH|]. rewrite <-Hpar.
    by apply firstChild_unique.
Qed.

Lemma slugs_found fuel cats allSlugs :
  nonEmptyIds cats → uniqueIds cats → siblingSlugsUnique cats →
  parentsResolve cats →
  getAllTopicSlugs fuel cats = Some allSlugs →
  Forall2 (fun c p => getTopicMetadata cats p = Value (Some c))
          cats allSlugs.
Proof.
  intros Hne Hunique Hsib Hres Hall.
  unfold getAllTopicSlugs in Hall. apply mapM_Some in Hall.
  apply Forall2_same_length_lookup. split; [by eapply Forall2_length|].
  intros i c p Hc Hp.
  pose proof (Forall2_lookup_lr _ _ _ _ _ _ Hall Hc Hp) as Hwalk.
  apply walkUp_last in Hwalk as (l & Hl & _ & ->).
  apply list_elem_of_lookup_2 in Hc.
  apply getTopicMetadata_resolves. exists (id c). split.
  - by apply chain_resolves.
  - split; [by apply (proj1 (Forall_forall _ _) Hne)|].
    by apply categoryMap_lookup_NoDup.
Qed.

Lemma slugs_NoDup cats allSlugs :
  uniqueIds cats →
  Forall2 (fun c p => getTopicMetadata cats p = Value (Some c))
          cats allSlugs →
  NoDup allSlugs.
Proof.
  intros Hunique Hfound.
  apply NoDup_alt. intros i j p Hi Hj.
  destruct (Forall2_lookup_r _ _ _ _ _ Hfound Hi) as (c & Hc & Hmeta).
  destruct (Forall2_lookup_r _ _ _ _ _ Hfound Hj) as (c' & Hc' & Hmeta').
  assert (c = c') as <- by congruence.
  apply (NoDup_fmap_1 id) in Hunique.
  by eapply NoDup_lookup.
Qed.

(** X19: from a category to its path and back.  In a taxonomy with unique
    non-empty ids, slugs unique among siblings and every [parentId] either
    [null] or the id of a category, every slug path of [getAllTopicSlugs]
    resolves: [getTopicMetadata] finds, for the i-th path, the i-th category
    itself; so the paths are pairwise different. *)
Theorem getAllTopicSlugs_resolve fuel cats allSlugs :
  nonEmptyIds cats → uniqueIds cats → siblingSlugsUnique cats →
  parentsResolve cats →
  getAllTopicSlugs fuel cats = Some allSlugs →
  Forall2 (fun c p => getTopicMetadata cats p = Value (Some c))
          cats allSlugs ∧
  NoDup allSlugs.
Proof.
  intros Hne Hunique Hsib Hres Hall.
  pose proof (slugs_found fuel cats allSlugs Hne Hunique Hsib Hres Hall).
  split; [done|]. by eapply slugs_NoDup.
Qed.

Lemma getAllTopicSlugs_resolve_witness :
  Forall2 (fun c p => getTopicMetadata smallTaxonomy p = Value (Some c))
    smallTaxonomy
    [["foundations"]; ["foundations"; "speech-recognition"]; ["guides"]].
Proof.
  apply (getAllTopicSlugs_resolve 3 smallTaxonomy).
  - unfold nonEmptyIds. by repeat constructor.
  - apply (bool_decide_unpack _). by vm_compute.
  - unfold siblingSlugsUnique. repeat constructor; by intros [=].
  - unfold parentsResolve, smallTaxonomy.
    apply Forall_cons; split; [by left|].
    apply Forall_cons; split.
    { right. exists (root "f" "Foundations" "foundations" 1).
      split; [left|done]. }
    apply Forall_cons; split; [by left|constructor].
  - by vm_compute.
Defined.

(** ** The sidebar of a topic page *)

Lemma isAncestorActive_leaf pathname t h :
  isAncestorActive pathname (mkNavItem t h []) =
  onPath pathname (mkNavItem t h []).
Proof.
  unfold onPath. simpl. case_bool_decide; [done|].
  by destruct (startsWith _ _).
Qed.

Lemma isAncestorActive_onPath pathname t h kids :
  (∀ kid, kid ∈ kids → isAncestorActive pathname kid = true →
          startsWith pathname (h +:+ "/") = true) →
  isAncestorActive pathname (mkNavItem t h kids) =
  onPath pathname (mkNavItem t h kids).
Proof.
  intros Hkids. unfold onPath. simpl. case_bool_decide; [done|].
  destruct (startsWith _ _) eqn:Hstarts; [done|]. simpl.
  apply not_true_iff_false. intros (kid & Hkid & Hactive)%existsb_exists.
  apply list_elem_of_In in Hkid.
  by specialize (Hkids kid Hkid Hactive).
Qed.

Lemma onPath_below pathname base segment item :
  nav_href item = base +:+ "/" +:+ segment →
  onPath pathname item = true →
  startsWith pathname (base +:+ "/") = true.
Proof.
  intros Hhref. unfold onPath. rewrite Hhref.
  intros [->%bool_decide_eq_true|Hs]%orb_true_iff; apply startsWith_spec.
  - exists segment. by rewrite string_app_assoc.
  - apply startsWith_spec in Hs as [rest ->].
    exists (segment +:+ "/" +:+ rest). by rewrite !string_app_assoc.
Qed.

Lemma buildTree_below cats ch fuel parent base items item :
  (∀ k, default [] (ch !! k) = childrenOf cats k) →
  buildTree fuel ch parent base = Some items →
  item ∈ items →
  (∃ segment, nav_href item = base +:+ "/" +:+ segment) ∧
  ∃ fuel' parent',
    buildTree fuel' ch parent' (nav_href item) = Some (nav_children item).
Proof.
  intros Hch Hbuild Hitem. destruct fuel as [|fuel]; [done|].
  apply (buildTree_Some cats ch Hch) in Hbuild.
  apply list_elem_of_lookup in Hitem as [i Hi].
  destruct (Forall2_lookup_r _ _ _ _ _ Hbuild Hi) as (c & _ & kids & Hkids & ->).
  split; [by exists (slug c)|]. by exists fuel, (Some (id c)).
Qed.

(** X20: which items the sidebar of a topic page shows expanded.  On the
    navigation that the page makes of the navigation tree, the look into the
    children adds nothing: on each of the three levels an item is expanded
    exactly when the pathname is its href or begins with its href and a
    slash — the hrefs of the items below are of that form. *)
Theorem isAncestorActive_pathname fuel cats tree pathname item :
  getNavigationTree fuel cats = Value tree →
  item ∈ threeLevels (pageNavigation tree) →
  isAncestorActive pathname item = onPath pathname item.
Proof.
  destruct (getNavigationTree_unfold fuel cats) as (ix & Hch & ->).
  destruct (buildTree _ _ _ _) as [items|] eqn:Hbuild; [|done].
  intros [= <-].
  assert (∀ f par base l grandchild,
            buildTree f (childrenMap ix) par base = Some l →
            grandchild ∈ (fun g => mkNavItem (nav_title g) (nav_href g) [])
                           <$> l →
            isAncestorActive pathname grandchild = onPath pathname grandchild ∧
            ∃ segment, nav_href grandchild = base +:+ "/" +:+ segment)
    as Hthird.
  { intros f par base l grandchild Hl (g & -> & Hg)%list_elem_of_fmap.
    split; [apply isAncestorActive_leaf|].
    by destruct (buildTree_below cats _ _ _ _ _ _ Hch Hl Hg). }
  assert (∀ f par base l child,
            buildTree f (childrenMap ix) par base = Some l →
            child ∈ (fun c =>
                       mkNavItem (nav_title c) (nav_href c)
                         ((fun g => mkNavItem (nav_title g) (nav_href g) [])
                            <$> nav_children c)) <$> l →
            isAncestorActive pathname child = onPath pathname child ∧
            (∃ segment, nav_href child = base +:+ "/" +:+ segment) ∧
            ∀ grandchild, grandchild ∈ nav_children child →
              isAncestorActive pathname grandchild =
                onPath pathname grandchild)
    as Hsecond.
  { intros f par base l child Hl (c & -> & Hc)%list_elem_of_fmap.
    destruct (buildTree_below cats _ _ _ _ _ _ Hch Hl Hc)
      as [Hseg (f' & par' & Hkids)].
    split; [|split; [done|]].
    - apply isAncestorActive_onPath. intros kid Hkid Hactive.
      destruct (Hthird _ _ _ _ _ Hkids Hkid) as [Heq (segment & Hhref)].
      rewrite Heq in Hactive. by eapply onPath_below.
    - intros grandchild Hg. simpl in Hg.
      by destruct (Hthird _ _ _ _ _ Hkids Hg). }
  assert (∀ top, top ∈ pageNavigation items →
            isAncestorActive pathname top = onPath pathname top ∧
            ∀ child, child ∈ nav_children top →
              isAncestorActive pathname child = onPath pathname child ∧
              ∀ grandchild, grandchild ∈ nav_children child →
                isAncestorActive pathname grandchild =
                  onPath pathname grandchild)
    as Hfirst.
  { intros top (t & -> & Ht)%list_elem_of_fmap.
    destruct (buildTree_below cats _ _ _ _ _ _ Hch Hbuild Ht)
      as [_ (f' & par' & Hkids)].
    split.
    - apply isAncestorActive_onPath. intros kid Hkid Hactive.
      destruct (Hsecond _ _ _ _ _ Hkids Hkid) as (Heq & (segment & Hhref) & _).
      rewrite Heq in Hactive. by eapply onPath_below.
    - intros child Hchild. simpl in Hchild.
      destruct (Hsecond _ _ _ _ _ Hkids Hchild) as (Heq & _ & Hgrand).
      by split. }
  unfold threeLevels. rewrite !elem_of_app.
  intros [Htop|[Hchild|Hgrand]].
  - by apply Hfirst.
  - apply list_elem_of_bind in Hchild as (top & Hchild & Htop).
    destruct (Hfirst top Htop) as [_ Hbelow].
    by destruct (Hbelow item Hchild).
  - apply list_elem_of_bind in Hgrand as (child & Hgrand & Hchild).
    apply list_elem_of_bind in Hchild as (top & Hchild & Htop).
    destruct (Hfirst top Htop) as [_ Hbelow].
    destruct (Hbelow child Hchild) as [_ Hbelow'].
    by apply Hbelow'.
Qed.

Lemma isAncestorActive_pathname_witness :
  isAncestorActive "/topics/p/a"
    (mkNavItem "P" "/topics/p"
       [ mkNavItem "B" "/topics/p/b" [];
         mkNavItem "C" "/topics/p/c" [];
         mkNavItem "A" "/topics/p/a" [] ]) =
  onPath "/topics/p/a"
    (mkNavItem "P" "/topics/p"
       [ mkNavItem "B" "/topics/p/b" [];
         mkNavItem "C" "/topics/p/c" [];
         mkNavItem "A" "/topics/p/a" [] ]).
Proof.
  apply (isAncestorActive_pathname 3 siblingTaxonomy
           [ mkNavItem "P" "/topics/p"
               [ mkNavItem "B" "/topics/p/b" [];
                 mkNavItem "C" "/topics/p/c" [];
                 mkNavItem "A" "/topics/p/a" [] ] ]).
  - by vm_compute.
  - left.
Defined.

(** ** The breadcrumbs of a topic page *)

Lemma split_segment sep s :
  allChars (isNot sep) s = true → split sep s = [s].
Proof.
  induction s as [|c s IH]; [done|].
  cbn [allChars split]. intros [Hc Hs]%andb_true_iff.
  unfold isNot in Hc. apply negb_true_iff, bool_decide_eq_false in Hc.
  rewrite bool_decide_eq_false_2 by done. by rewrite IH.
Qed.

Lemma split_app sep a b :
  allChars (isNot sep) a = true →
  split sep (a +:+ String sep b) = a :: split sep b.
Proof.
  induction a as [|c a IH].
  - intros _. rewrite string_app_nil_l. cbn [split].
    by rewrite bool_decide_eq_true_2.
  - cbn [allChars]. intros [Hc Ha]%andb_true_iff.
    unfold isNot in Hc. apply negb_true_iff, bool_decide_eq_false in Hc.
    rewrite string_app_cons. cbn [split].
    rewrite bool_decide_eq_false_2 by done. by rewrite IH.
Qed.

Lemma split_segments s rest :
  allChars (isNot "/") s = true →
  Forall isSegment rest →
  split "/" (s +:+ slashes rest) = s :: rest.
Proof.
  intros Hs Hrest. revert s Hs.
  induction Hrest as [|s' rest [_ Hs'] _ IH]; intros s Hs.
  - simpl. rewrite string_app_nil_r. by apply split_segment.
  - cbn [slashes]. rewrite string_app_cons, string_app_nil_l.
    rewrite split_app by done. f_equal. by apply IH.
Qed.

Lemma split_slashes segs :
  Forall isSegment segs →
  filter (fun s => s ≠ "") (split "/" (slashes segs)) = segs.
Proof.
  intros Hsegs.
  rewrite <-(string_app_nil_l (slashes segs)), split_segments by done.
  rewrite filter_cons, decide_False by (by intros []).
  induction Hsegs as [|s rest [Hne _] _ IH]; [done|].
  by rewrite filter_cons, decide_True, IH.
Qed.

(** X21: the breadcrumbs of a topic page.  For a pathname made of segments
    — not empty, without a slash — each after a slash, there is one crumb
    for each segment; the href of a crumb is the pathname up to its segment,
    so that the last crumb is the page itself; the last crumb is labelled
    with the title of the page, every other crumb with the label of its
    segment. *)
Theorem breadcrumbs_prefixes pageTitle segs :
  Forall isSegment segs →
  let crumbs := breadcrumbs pageTitle (slashes segs) in
  length crumbs = length segs ∧
  (∀ i s,
     segs !! i = Some s →
     crumbs !! i =
       Some (mkCrumb
               (if bool_decide (S i = length segs) then pageTitle
                else segmentLabel s)
               (slashes (take (S i) segs))
               (bool_decide (S i = length segs)))) ∧
  (∀ c, last crumbs = Some c →
        crumb_href c = slashes segs ∧ crumb_label c = pageTitle).
Proof.
  intros Hsegs. cbv zeta. unfold breadcrumbs. rewrite split_slashes by done.
  assert (∀ i s,
     segs !! i = Some s →
     imap (fun index segment =>
             mkCrumb
               (if bool_decide (index = (length segs - 1)%nat)
                then pageTitle else segmentLabel segment)
               ("/" +:+ join "/" (take (S index) segs))
               (bool_decide (index = (length segs - 1)%nat))) segs !! i =
       Some (mkCrumb
               (if bool_decide (S i = length segs) then pageTitle
                else segmentLabel s)
               (slashes (take (S i) segs))
               (bool_decide (S i = length segs)))) as Hcrumb.
  { intros i s Hi. rewrite list_lookup_imap, Hi. simpl.
    apply lookup_lt_Some in Hi as Hlt.
    rewrite slashes_join by (destruct segs; [simpl in Hlt; lia|done]).
    assert (bool_decide (i = (length segs - 1)%nat) =
            bool_decide (S i = length segs)) as ->; [|done].
    apply bool_decide_ext. lia. }
  split; [by rewrite length_imap|]. split; [done|].
  intros c. rewrite last_lookup, length_imap.
  destruct segs as [|s0 segs'] eqn:Hs; [done|]. rewrite <-Hs in *.
  assert (is_Some (segs !! pred (length segs))) as [s Hlast].
  { apply lookup_lt_is_Some. rewrite Hs. simpl. lia. }
  rewrite (Hcrumb _ s Hlast).
  assert (S (pred (length segs)) = length segs) as Hlen
    by (rewrite Hs; simpl; lia).
  rewrite Hlen, bool_decide_eq_true_2 by done.
  intros [= <-]. simpl. split; [|done].
  by rewrite firstn_all.
Qed.

Lemma breadcrumbs_prefixes_witness :
  breadcrumbs "Speech" "/topics/foundations/speech-recognition" =
    [ mkCrumb "Topics" "/topics" false;
      mkCrumb "Foundations" "/topics/foundations" false;
      mkCrumb "Speech" "/topics/foundations/speech-recognition" true ] ∧
  ∀ c,
    last (breadcrumbs "Speech"
            (slashes ["topics"; "foundations"; "speech-recognition"])) =
      Some c →
    crumb_href c = slashes ["topics"; "foundations"; "speech-recognition"] ∧
    crumb_label c = "Speech".
Proof.
  split; [by vm_compute|].
  apply (breadcrumbs_prefixes "Speech"
           ["topics"; "foundations"; "speech-recognition"]).
  repeat constructor; done.
Defined.

(** ** Previous and next in a well-formed taxonomy *)

Lemma chain_elem_of cats c l :
  chain (parentOf (categoryMap cats)) c l → Forall (fun x => x ∈ cats) l.
Proof.
  induction 1 as [c Hc|c p l Hp _ IH]; constructor; [|done].
  unfold parentOf in Hp. destruct (truthy (parentId c)); [|done].
  by apply categoryMap_lookup_Some in Hp as [? _].
Qed.

Lemma join_slashes_inj p q :
  p ≠ [] → q ≠ [] → Forall isSegment p → Forall isSegment q →
  join "/" p = join "/" q → p = q.
Proof.
  intros Hp Hq Hsp Hsq Heq.
  assert (slashes p = slashes q) as Hs by by rewrite !slashes_join, Heq.
  apply (f_equal (fun s => filter (fun s => s ≠ "") (split "/" s))) in Hs.
  by rewrite !split_slashes in Hs.
Qed.

Lemma slugs_segments fuel cats allSlugs :
  Forall (fun c => isSegment (slug c)) cats →
  getAllTopicSlugs fuel cats = Some allSlugs →
  Forall (fun p => p ≠ [] ∧ Forall isSegment p) allSlugs.
Proof.
  intros Hseg Hall. unfold getAllTopicSlugs in Hall.
  apply mapM_Some in Hall. apply Forall_forall. intros p Hp.
  apply list_elem_of_lookup in Hp as [i Hi].
  destruct (Forall2_lookup_r _ _ _ _ _ Hall Hi) as (c & Hc & Hwalk).
  apply walkUp_last in Hwalk as (l & Hl & _ & ->).
  split; [by destruct (rev _)|].
  apply Forall_app. split.
  - apply Forall_rev, Forall_fmap. apply chain_elem_of in Hl.
    eapply Forall_impl; [exact Hl|]. intros x Hx. simpl.
    by apply (proj1 (Forall_forall _ _) Hseg).
  - constructor; [|done]. apply (proj1 (Forall_forall _ _) Hseg).
    by eapply list_elem_of_lookup_2.
Qed.

(** X22: previous and next in a well-formed taxonomy.  In a taxonomy with
    unique non-empty ids, slugs that are segments — not empty, without a
    slash — and unique among siblings, and every [parentId] either [null]
    or the id of a category, [getPrevNextTopics] called with the slug path
    of the i-th category returns the entries of the categories just before
    and just after it in the taxonomy, each with its title and its slug path
    as href, and [null] only before the first and after the last. *)
Theorem getPrevNextTopics_adjacent fuel cats allSlugs i p :
  nonEmptyIds cats → uniqueIds cats → siblingSlugsUnique cats →
  parentsResolve cats →
  Forall (fun c => isSegment (slug c)) cats →
  getAllTopicSlugs fuel cats = Some allSlugs →
  allSlugs !! i = Some p →
  getPrevNextTopics fuel cats p =
    Value (mkPrevNext
             (match i with
              | O => None
              | S j => neighbourAt cats allSlugs j
              end)
             (neighbourAt cats allSlugs (S i))).
Proof.
  intros Hne Hunique Hsib Hres Hseg Hall Hp.
  pose proof (slugs_found fuel cats allSlugs Hne Hunique Hsib Hres Hall)
    as Hfound.
  pose proof (slugs_NoDup cats allSlugs Hunique Hfound) as Hnd.
  pose proof (slugs_segments fuel cats allSlugs Hseg Hall) as Hsegs.
  assert (findIndex (fun s => bool_decide (join "/" s = join "/" p))
            allSlugs = Some i) as Hidx.
  { apply findIndex_Some. split.
    - exists p. split; [done|]. by apply bool_decide_eq_true.
    - intros j q Hj Hq. apply bool_decide_eq_false. intros Heq.
      destruct (proj1 (Forall_forall _ _) Hsegs q) as [Hq1 Hq2];
        [by eapply list_elem_of_lookup_2|].
      destruct (proj1 (Forall_forall _ _) Hsegs p) as [Hp1 Hp2];
        [by eapply list_elem_of_lookup_2|].
      apply join_slashes_inj in Heq; [|done..]. subst q.
      pose proof (NoDup_lookup _ _ _ _ Hnd Hq Hp). lia. }
  destruct (getPrevNextTopics_found fuel cats p allSlugs Hall i Hidx)
    as (pr & nx & -> & Hprev & Hnext).
  assert (∀ j, getTopicInfo cats (allSlugs !! j) =
               Value (neighbourAt cats allSlugs j)) as Hinfo.
  { intros j. unfold neighbourAt.
    destruct (allSlugs !! j) as [q|] eqn:Hq.
    - destruct (Forall2_lookup_r _ _ _ _ _ Hfound Hq) as (c & Hc & Hmeta).
      by rewrite (getTopicInfo_Some _ _ _ Hmeta), Hc.
    - simpl. by destruct (cats !! j). }
  f_equal. f_equal.
  - destruct i as [|j].
    + rewrite decide_False in Hprev by lia. simpl in Hprev. congruence.
    + rewrite decide_True in Hprev by lia.
      replace (S j - 1)%nat with j in Hprev by lia.
      rewrite Hinfo in Hprev. congruence.
  - case_decide as Hlt.
    + replace (i + 1)%nat with (S i) in Hnext by lia.
      rewrite Hinfo in Hnext. congruence.
    + assert (allSlugs !! S i = None) as Hnone.
      { apply lookup_ge_None. apply lookup_lt_Some in Hp. lia. }
      unfold neighbourAt. rewrite Hnone. simpl in Hnext.
      destruct (cats !! S i); simpl; congruence.
Qed.

Lemma getPrevNextTopics_adjacent_witness :
  getPrevNextTopics 3 smallTaxonomy ["foundations"; "speech-recognition"] =
    Value (mkPrevNext
             (Some (mkTopicInfo "Foundations" "/topics/foundations"))
             (Some (mkTopicInfo "Guides" "/topics/guides"))).
Proof.
  apply (getPrevNextTopics_adjacent 3 smallTaxonomy
           [["foundations"]; ["foundations"; "speech-recognition"];
            ["guides"]] 1).
  - unfold nonEmptyIds. by repeat constructor.
  - apply (bool_decide_unpack _). by vm_compute.
  - unfold siblingSlugsUnique. repeat constructor; by intros [=].
  - unfold parentsResolve, smallTaxonomy.
    apply Forall_cons; split; [by left|].
    apply Forall_cons; split.
    { right. exists (root "f" "Foundations" "foundations" 1).
      split; [left|done]. }
    apply Forall_cons; split; [by left|constructor].
  - repeat constructor; done.
  - by vm_compute.
  - done.
Defined.

(** ** The keyboard and the popular topics of the search page *)

Lemma pagePressKeys_snoc items keys key st :
  pagePressKeys items (keys ++ [key]) st =
  pageAfterRender items (pagePressKeys items keys st)
    (pageKeyDown key (pagePressKeys items keys st)).1.
Proof. unfold pagePressKeys. by rewrite foldl_app. Qed.

Lemma pageKeyDown_query key st :
  page_query (pageKeyDown key st).1 = page_query st ∨
  page_query (pageKeyDown key st).1 = "".
Proof. destruct key; simpl; auto. left. by destruct (resultAt _ _). Qed.

Lemma pageInRange_step items key st :
  -1 ≤ page_selectedIndex st < Z.of_nat (length (page_results st)) →
  let st' := pageAfterRender items st (pageKeyDown key st).1 in
  -1 ≤ page_selectedIndex st' < Z.of_nat (length (page_results st')).
Proof.
  intros Hst. cbv zeta. unfold pageAfterRender. case_decide as Hq.
  - destruct st as [q rs sel]. simpl in *.
    destruct key; simpl; unfold arrowDown, arrowUp; try done.
    + case_decide; simpl; lia.
    + case_decide; simpl; lia.
    + by destruct (resultAt _ _).
  - destruct (pageKeyDown_query key st) as [Hsame|Hempty]; [done|].
    by rewrite Hempty.
Qed.

Lemma pagePressKeys_arrowDown items n st :
  page_selectedIndex st = -1 →
  pagePressKeys items (replicate n ArrowDown) st =
  mkPageState (page_query st) (page_results st)
    (Z.min (Z.of_nat n - 1) (Z.of_nat (length (page_results st)) - 1)).
Proof.
  intros Hsel. induction n as [|n IH].
  - destruct st as [q rs sel]. simpl in *. subst sel. f_equal. lia.
  - replace (replicate (S n) ArrowDown)
      with (replicate n ArrowDown ++ [ArrowDown])
      by (by rewrite <-replicate_S_end).
    rewrite pagePressKeys_snoc, IH. unfold pageAfterRender. simpl.
    rewrite decide_True by done. f_equal.
    unfold arrowDown. case_decide; lia.
Qed.

(** X23: the keyboard of the search page.  From a state whose
    [selectedIndex] is [-1] or the index of a result, every sequence of keys
    — each followed by the effect that searches again when the query has
    changed — leaves [selectedIndex] at [-1] or at the index of a result;
    and once [search] has set the state for a query, [k + 1] presses of the
    down arrow followed by the enter key open the href of the result of rank
    [k] and leave the state as it is. *)
Theorem pageKeyDown_select items query keys st :
  (-1 ≤ page_selectedIndex st < Z.of_nat (length (page_results st)) →
   let st' := pagePressKeys items keys st in
   -1 ≤ page_selectedIndex st' < Z.of_nat (length (page_results st'))) ∧
  ∀ k r,
    results (searchPage items query) !! k = Some r →
    pageKeyDown Enter
      (pagePressKeys items (replicate (S k) ArrowDown)
                     (pageTyped items query)) =
      (mkPageState query (results (searchPage items query)) (Z.of_nat k),
       Some (ToHref (href (result_item r)))).
Proof.
  split.
  - intros Hst. cbv zeta.
    induction keys as [|key keys IH] using rev_ind; [done|].
    rewrite pagePressKeys_snoc. by apply pageInRange_step.
  - assert (page_selectedIndex (pageTyped items query) = -1) as Hsel.
    { unfold pageTyped, searchPage, search. by destruct (trim query). }
    assert (page_results (pageTyped items query) =
            results (searchPage items query)) as Hres by done.
    intros k r Hk. rewrite pagePressKeys_arrowDown, Hres by done.
    apply lookup_lt_Some in Hk as Hlt.
    replace (Z.min _ _) with (Z.of_nat k) by lia.
    cbn [pageKeyDown page_results page_selectedIndex page_query].
    unfold resultAt. rewrite decide_True by lia.
    by rewrite Nat2Z.id, Hk.
Qed.

Lemma pageKeyDown_select_witness :
  -1 ≤ page_selectedIndex
         (pagePressKeys speechItems [ArrowDown; ArrowDown; Escape; ArrowDown]
                        (pageTyped speechItems "speech"))
     < Z.of_nat
         (length
            (page_results
               (pagePressKeys speechItems
                  [ArrowDown; ArrowDown; Escape; ArrowDown]
                  (pageTyped speechItems "speech")))).
Proof.
  apply (pageKeyDown_select speechItems "speech"
           [ArrowDown; ArrowDown; Escape; ArrowDown]
           (pageTyped speechItems "speech")).
  vm_compute. split; [by intros [=] | done].
Defined.

Lemma allItems_roots fuel cats items :
  allItems fuel cats = Some items →
  href <$> filter (fun item => parentId (item_category item) = None) items =
  (fun c => "/topics/" +:+ slug c) <$> childrenOf cats None.
Proof.
  unfold allItems, childrenOf. rewrite mapM_Some.
  generalize (categoryMap cats) as m. intros m.
  induction 1 as [|c item cs its Hc _ IH]; [done|].
  apply bind_Some in Hc as (h & Hh & [= <-]).
  rewrite !filter_cons. cbn [item_category].
  destruct (decide (parentId c = None)) as [Hroot|Hroot];
    [rewrite !decide_True by done | by rewrite !decide_False by done].
  rewrite !fmap_cons, IH. f_equal. cbn [href].
  unfold buildHref in Hh. destruct fuel as [|fuel]; [done|].
  simpl in Hh. unfold parentOf in Hh. rewrite Hroot in Hh. simpl in Hh.
  destruct fuel; by injection Hh as <-.
Qed.

(** X24: the popular topics of the search page are entries of the top level
    of the navigation tree: the href of every popular topic is the href of a
    top-level item of the tree, and when at most six categories have the
    parent [null], the hrefs of the popular topics are those of the whole
    top level — in the order of the taxonomy, where the tree sorts by
    [order]. *)
Theorem popularTopics_navigation fuel fuel' cats items tree :
  allItems fuel cats = Some items →
  getNavigationTree fuel' cats = Value tree →
  (∀ item, item ∈ popularTopics items →
           href item ∈ nav_href <$> tree) ∧
  ((length (childrenOf cats None) ≤ 6)%nat →
   href <$> popularTopics items ≡ₚ nav_href <$> tree).
Proof.
  intros Hitems%allItems_roots Htree.
  assert (nav_href <$> tree ≡ₚ
          (fun c => "/topics/" +:+ slug c) <$> childrenOf cats None)
    as Htop.
  { destruct (getNavigationTree_unfold fuel' cats) as (ix & Hch & Heq).
    rewrite Heq in Htree.
    destruct (buildTree _ _ _ _) as [l|] eqn:Hbuild; [|done].
    injection Htree as <-.
    destruct (buildTree_titles cats _ _ _ _ _ Hch Hbuild) as [_ ->].
    rewrite getTopicsByParent_children, <-list_fmap_compose.
    by rewrite sortBy_perm. }
  unfold popularTopics. split.
  - intros item Hitem%subseteq_take. rewrite Htop, <-Hitems.
    apply list_elem_of_fmap. by exists item.
  - intros Hlen. rewrite Htop, <-Hitems, take_ge; [done|].
    apply (f_equal length) in Hitems. rewrite !length_fmap in Hitems. lia.
Qed.

Lemma popularTopics_navigation_witness :
  href <$> popularTopics
    [ mkSearchItem (root "f" "Foundations" "foundations" 1)
        "/topics/foundations" None;
      mkSearchItem (child "s" "Speech" "speech-recognition" "f" 1)
        "/topics/foundations/speech-recognition" (Some "Foundations");
      mkSearchItem (root "g" "Guides" "guides" 2) "/topics/guides" None ]
  ≡ₚ ["/topics/foundations"; "/topics/guides"].
Proof.
  apply (popularTopics_navigation 3 3 smallTaxonomy _
           [ mkNavItem "Foundations" "/topics/foundations"
               [ mkNavItem "Speech" "/topics/foundations/speech-recognition"
                   [] ];
             mkNavItem "Guides" "/topics/guides" [] ]).
  - by vm_compute.
  - by vm_compute.
  - vm_compute. lia.
Defined.
